(** * AutoSub: caption normalization, active-segment lookup and burned export

    A shallow embedding of the caption pipeline of the AutoSub sources:

    - [services/geminiService.ts]: [postProcessSubtitles], and of
      [generateSubtitles] the calls on the service and the fence taken off
      its response;
    - [components/SubtitleOverlay.tsx]: the subtitle lookup of [updateUI],
      [handleSeek] and the effect run when [videoUrl] changes; the time
      labels, the volume controls, the rows of [SubtitleList] and the
      captions of [SubtitleOverlay];
    - [App.tsx]: [downloadSRT], [processSelectedFile], [handleExportBurned]
      with [drawText] and [drawFrame], [cancelExport] and the recorder
      handlers;
    - [types.ts]: the main process script that follows the types.

    Conventions of the embedding.

    - A JavaScript [number] holding a time in seconds is an exact rational
      ([Q]) and the arithmetic on times is exact; NaN and the infinities
      are not modelled.  The quotients and the product that give the target
      dimensions of the export, whose operands are whole numbers, are
      rounded to double precision ([Double.binary64]).  Pixel sizes, indices
      and the values of the style sliders are integers ([Z]).
    - A JavaScript object is a location in a store; an array of objects is a
      list of locations.  Two occurrences of a location are two references to
      one object, so a field write through either is seen through both.
    - Strings are byte strings (UTF-8): the line feed is the byte 10.  The
      text of a response is a list of UTF-16 code units. *)

From Stdlib Require Import ZArith QArith Qround Lia Lqa List Bool.
From Stdlib Require Import Ascii String DecimalString DecimalZ Qabs Qpower.
From Stdlib Require Import Sorting.Sorted Sorting.Permutation.
From stdpp Require Import base option list gmap.

Import ListNotations.
Local Open Scope Q_scope.

(** ** The data model ([types.ts]) *)

Record SubtitleSegment : Type := mkSegment {
  startTime : Q;
  endTime : Q;
  english : string;
  chinese : string
}.

#[export] Instance SubtitleSegment_inhabited : Inhabited SubtitleSegment :=
  populate (mkSegment 0 0 EmptyString EmptyString).

(** Object identity. *)
Definition loc : Type := nat.

(** The object store: which segment object lives at which location. *)
Abbreviation Store := (gmap loc SubtitleSegment).

(** Boolean readings of the comparisons the sources use on numbers. *)
Definition Qleb (x y : Q) : bool := Qle_bool x y.
Definition Qltb (x y : Q) : bool := negb (Qle_bool y x).

(** ** Normalization ([postProcessSubtitles], geminiService.ts 20-64) *)

Module Normalize.

(** [obj.startTime] and [obj.endTime] read through a reference. *)
Definition start_of (σ : Store) (l : loc) : Q := startTime (σ !!! l).
Definition end_of (σ : Store) (l : loc) : Q := endTime (σ !!! l).

(** [obj.endTime = v]: an in-place field write.  A reference always names
    a live object; on a location the store does not hold, which no program
    can reach, the write makes the default object appear there. *)
Definition set_endTime (σ : Store) (l : loc) (v : Q) : Store :=
  let s := σ !!! l in
  <[l := mkSegment (startTime s) v (english s) (chinese s)]> σ.

(** [[...subtitles].sort((a, b) => a.startTime - b.startTime)].
    [Array.prototype.sort] is stable, so its result is the one stable
    arrangement by [startTime]; it is computed here by insertion.  The element
    [x] moves past [y] exactly when the comparator is positive on [(x, y)],
    that is when [y.startTime < x.startTime]. *)
Fixpoint sort_insert (σ : Store) (x : loc) (l : list loc) : list loc :=
  match l with
  | [] => [x]
  | y :: l' =>
      if Qltb (start_of σ y) (start_of σ x)
      then y :: sort_insert σ x l'
      else x :: y :: l'
  end.

Definition sort_by_startTime (σ : Store) (subtitles : list loc) : list loc :=
  foldr (sort_insert σ) [] subtitles.

(** The first loop (lines 31-40): clamp degenerate spans, push onto
    [processed].  Times being rationals, the sum is the exact one; the
    double the code writes is above [startTime] as well, for start times
    below 2^53 in magnitude ([binary64_sum_above]). *)
Fixpoint clamp_loop (σ : Store) (sorted processed : list loc)
  : Store * list loc :=
  match sorted with
  | [] => (σ, processed)
  | segment :: rest =>
      let σ' :=
        if Qleb (end_of σ segment) (start_of σ segment)
        then set_endTime σ segment (start_of σ segment + 1.5)
        else σ in
      clamp_loop σ' rest (processed ++ [segment])
  end.

(** The second loop (lines 43-61): trim [current] where it runs into
    [next].  Both arms of the inner test perform the same assignment, as in
    the source. *)
Fixpoint trim_loop (σ : Store) (processed : list loc) : Store :=
  match processed with
  | current :: ((next :: _) as rest) =>
      let σ' :=
        if Qltb (start_of σ next) (end_of σ current)
        then
          if Qltb (end_of σ current - start_of σ next) 1
          then set_endTime σ current (start_of σ next)
          else set_endTime σ current (start_of σ next)
        else σ in
      trim_loop σ' rest
  | _ => σ
  end.

(** The function returns the array [processed]; the store it leaves behind is
    the other half of its result. *)
Definition postProcessSubtitles (σ : Store) (subtitles : list loc)
  : Store * list loc :=
  if (length subtitles =? 0)%nat then (σ, [])
  else
    let sorted := sort_by_startTime σ subtitles in
    let '(σ1, processed) := clamp_loop σ sorted [] in
    (trim_loop σ1 processed, processed).

(** The segments an array denotes in a store. *)
Definition contents (σ : Store) (a : list loc) : list SubtitleSegment :=
  map (fun l => σ !!! l) a.

(** Allocation of a fresh array of fresh objects, as [JSON.parse] does for
    the raw model output: object [i] of the array lives at location [i]. *)
Definition alloc (segs : list SubtitleSegment) : Store * list loc :=
  (list_to_map (imap (fun i s => (i, s)) segs), seq 0 (length segs)).

(** *** The normalized invariant of the data model *)

(** [adjacent R a]: [R] holds of every pair of neighbours of [a]. *)
Fixpoint adjacent (R : loc -> loc -> Prop) (a : list loc) : Prop :=
  match a with
  | x :: ((y :: _) as rest) => R x y /\ adjacent R rest
  | _ => True
  end.

Definition sorted_by_start (σ : Store) (a : list loc) : Prop :=
  adjacent (fun x y => start_of σ x <= start_of σ y) a.

Definition non_overlapping (σ : Store) (a : list loc) : Prop :=
  adjacent (fun x y => end_of σ x <= start_of σ y) a.

Definition positive_durations (σ : Store) (a : list loc) : Prop :=
  Forall (fun x => start_of σ x < end_of σ x) a.

Definition normalized (σ : Store) (a : list loc) : Prop :=
  sorted_by_start σ a /\ non_overlapping σ a /\ positive_durations σ a.

(** The same invariant as a check that runs. *)
Fixpoint adjacentb (r : loc -> loc -> bool) (a : list loc) : bool :=
  match a with
  | x :: ((y :: _) as rest) => r x y && adjacentb r rest
  | _ => true
  end.

Definition normalizedb (σ : Store) (a : list loc) : bool :=
  adjacentb (fun x y => Qleb (start_of σ x) (start_of σ y)) a
  && adjacentb (fun x y => Qleb (end_of σ x) (start_of σ y)) a
  && forallb (fun x => Qltb (start_of σ x) (end_of σ x)) a.

(** One step of the trim loop, as a function of the store. *)
Definition trim_step (σ : Store) (current next : loc) : Store :=
  if Qltb (start_of σ next) (end_of σ current)
  then set_endTime σ current (start_of σ next)
  else σ.

(** No segment ends before it starts. *)
Definition nonnegative_durations (σ : Store) (a : list loc) : Prop :=
  Forall (fun x => start_of σ x <= end_of σ x) a.

(** Two stores agree on every field the loops do not write. *)
Definition same_but_endTime (σ σ' : Store) : Prop :=
  forall x : loc,
    startTime (σ' !!! x) = startTime (σ !!! x)
    /\ english (σ' !!! x) = english (σ !!! x)
    /\ chinese (σ' !!! x) = chinese (σ !!! x).

(** *** Concrete inputs *)

Definition ex_overlap : list SubtitleSegment :=
  [ mkSegment 0 2 "A" "a"; mkSegment 1.5 3 "B" "b" ].

Definition ex_zero : list SubtitleSegment := [ mkSegment 5 5 "X" "X" ].

Definition ex_same_start : list SubtitleSegment :=
  [ mkSegment 0 2 "A" "a"; mkSegment 0 3 "B" "b" ].

(** Normalization of a freshly allocated array, read back. *)
Definition normalize_fresh (segs : list SubtitleSegment)
  : list SubtitleSegment :=
  let '(σ, a) := alloc segs in
  let '(σ', r) := postProcessSubtitles σ a in
  contents σ' r.

Definition ex_normalized : list SubtitleSegment :=
  [ mkSegment 0 1.5 "A" "a"; mkSegment 1.5 3 "B" "b"; mkSegment 4 6 "C" "c" ].

(** No two entries of the array start at the same time. *)
Fixpoint distinct_starts (σ : Store) (a : list loc) : Prop :=
  match a with
  | [] => True
  | x :: rest =>
      Forall (fun y => ~ start_of σ x == start_of σ y) rest
      /\ distinct_starts σ rest
  end.

(** The value the clamp of lines 35-37 leaves in [endTime]. *)
Definition clamped_end (σ : Store) (x : loc) : Q :=
  if Qleb (end_of σ x) (start_of σ x) then start_of σ x + 1.5 else end_of σ x.

End Normalize.

(** ** The text of the response ([generateSubtitles], geminiService.ts
    241-250) *)

Module Response.

(** A string as its UTF-16 code units, the elements the regular expressions
    of lines 246-247 work on. *)
Definition Text : Type := list N.

(** The class [\s]: the white space and line terminator characters. *)
Definition is_white (c : N) : bool :=
  ((9 <=? c) && (c <=? 13) || (c =? 32) || (c =? 160) || (c =? 5760)
   || (8192 <=? c) && (c <=? 8202) || (c =? 8232) || (c =? 8233)
   || (c =? 8239) || (c =? 8287) || (c =? 12288) || (c =? 65279))%N.

(** The text after the longest run of white space at its start. *)
Fixpoint skip_white (s : Text) : Text :=
  match s with
  | c :: rest => if is_white c then skip_white rest else s
  | [] => []
  end.

(** The text after the prefix [p], when it starts with [p]. *)
Fixpoint strip_prefix (p s : Text) : option Text :=
  match p, s with
  | [], _ => Some s
  | c :: p', d :: s' => if (c =? d)%N then strip_prefix p' s' else None
  | _ :: _, [] => None
  end.

(** Three backquotes, and the same followed by [json]. *)
Definition fence : Text := [96; 96; 96]%N.
Definition fence_json : Text := (fence ++ [106; 115; 111; 110])%N.

(** [s.replace(/^```json\s*/, '')] *)
Definition replace_json_fence (s : Text) : Text :=
  match strip_prefix fence_json s with
  | Some rest => skip_white rest
  | None => s
  end.

(** [s.replace(/^```\s*/, '')] *)
Definition replace_open_fence (s : Text) : Text :=
  match strip_prefix fence s with
  | Some rest => skip_white rest
  | None => s
  end.

(** [s.replace(/\s*```$/, '')]: the match is the leftmost one, so it takes
    the whole run of white space before the closing backquotes. *)
Definition replace_close_fence (s : Text) : Text :=
  match strip_prefix (rev fence) (rev s) with
  | Some before => rev (skip_white before)
  | None => s
  end.

(** Lines 246-248. *)
Definition strip_fence (jsonText : Text) : Text :=
  match strip_prefix fence jsonText with
  | Some _ =>
      replace_close_fence (replace_open_fence (replace_json_fence jsonText))
  | None => jsonText
  end.

(** A text that neither starts nor ends with white space, and starts with
    neither a backquote nor the letter j: such is a JSON array. *)
Definition bare (body : Text) : Prop :=
  exists first last,
    (body = [first] /\ last = first
     \/ exists middle, body = first :: middle ++ [last])
    /\ is_white first = false /\ first <> 96%N /\ first <> 106%N
    /\ is_white last = false.

Definition all_white (s : Text) : Prop :=
  Forall (fun c => is_white c = true) s.

(** The text [[1]] in a fence with line breaks. *)
Definition ex_fenced : Text :=
  (fence_json ++ [10] ++ [91; 49; 93] ++ [10] ++ fence)%N.

End Response.

(** ** Asking the service ([generateSubtitles], geminiService.ts 137-248) *)

Module Service.

Import Response.

(** The state of an uploaded file. *)
Inductive FileState : Type := STATE_UNSPECIFIED | PROCESSING | ACTIVE | FAILED.

(** What [generateSubtitles] throws before it parses the text. *)
Inductive Failure : Type :=
  | ReadRejected
  | UploadRejected (attempt : nat)
  | UploadFailedAfterRetries
  | GetRejected (poll : nat)
  | ProcessingFailed
  | GenerateRejected
  | EmptyResponse.

(** The calls it makes on the outside, in order. *)
Inductive Call : Type :=
  | OnProgressAnalyzing
  | ReadAsDataURL
  | FilesUpload
  | Warn
  | Sleep
  | FilesGet
  | GenerateContent (inline : bool)
  | FilesDelete.

(** The outside, as far as a run can tell: whether each promise resolves and
    with what.  [upload n] and [get n] are the outcomes of call number [n]
    of [ai.files.upload] and [ai.files.get], [None] for a rejection;
    [generateContent] is the [text] of the response, empty when it has
    none. *)
Record Outside : Type := mkOutside {
  readAsDataURL : bool;
  upload : nat -> option FileState;
  get : nat -> option FileState;
  generateContent : option Text
}.

(** A run: the calls made, and a failure thrown or a value. *)
Definition Run (A : Type) : Type := list Call * (Failure + A).

(** The upload loop (lines 177-194), [retries] and the number of the next
    attempt being its state; [inr None] when it ends with no result. *)
Fixpoint upload_loop (o : Outside) (retries attempt : nat)
  : Run (option FileState) :=
  match retries with
  | O => ([], inr None)
  | S retries' =>
      match upload o attempt with
      | Some st => ([FilesUpload], inr (Some st))
      | None =>
          if (retries' =? 0)%nat
          then ([FilesUpload], inl (UploadRejected attempt))
          else
            let '(calls, r) := upload_loop o retries' (S attempt) in
            ([FilesUpload; Warn; Sleep] ++ calls, r)
      end
  end.

(** The polling loop (lines 203-208).  It runs for as long as the file is
    being processed; [fuel] bounds the iterations and [None] tells that it
    ran out. *)
Fixpoint poll_loop (o : Outside) (fuel poll : nat) (fileState : FileState)
  : option (Run FileState) :=
  match fileState with
  | PROCESSING =>
      match fuel with
      | O => None
      | S fuel' =>
          match get o poll with
          | Some st =>
              match poll_loop o fuel' (S poll) st with
              | Some (calls, r) => Some ([Sleep; FilesGet] ++ calls, r)
              | None => None
              end
          | None => Some ([Sleep; FilesGet], inl (GetRejected poll))
          end
      end
  | _ => Some ([], inr fileState)
  end.

Definition INLINE_LIMIT_BYTES : N := 20 * 1024 * 1024.

(** Lines 147-239: the text of the response, for a file of [size] bytes,
    with a progress callback given. *)
Definition respond (o : Outside) (size : N) (fuel : nat)
  : option (Run Text) :=
  if (size <? INLINE_LIMIT_BYTES)%N then
    if readAsDataURL o then
      match generateContent o with
      | Some text =>
          Some ([OnProgressAnalyzing; ReadAsDataURL; GenerateContent true],
                inr text)
      | None =>
          Some ([OnProgressAnalyzing; ReadAsDataURL; GenerateContent true],
                inl GenerateRejected)
      end
    else Some ([OnProgressAnalyzing; ReadAsDataURL], inl ReadRejected)
  else
    let '(calls1, uploadResult) := upload_loop o 3 0 in
    match uploadResult with
    | inl e => Some (calls1, inl e)
    | inr None => Some (calls1, inl UploadFailedAfterRetries)
    | inr (Some st) =>
        match poll_loop o fuel 0 st with
        | None => None
        | Some (calls2, inl e) => Some (calls1 ++ calls2, inl e)
        | Some (calls2, inr FAILED) =>
            Some (calls1 ++ calls2, inl ProcessingFailed)
        | Some (calls2, inr _) =>
            match generateContent o with
            | Some text =>
                Some (calls1 ++ calls2
                      ++ [OnProgressAnalyzing; GenerateContent false;
                          FilesDelete],
                      inr text)
            | None =>
                Some (calls1 ++ calls2
                      ++ [OnProgressAnalyzing; GenerateContent false],
                      inl GenerateRejected)
            end
        end
    end.

(** Lines 137-248: the text handed to [JSON.parse]. *)
Definition jsonText (o : Outside) (size : N) (fuel : nat)
  : option (Run Text) :=
  match respond o size fuel with
  | Some (calls, inr []) => Some (calls, inl EmptyResponse)
  | Some (calls, inr text) => Some (calls, inr (strip_fence text))
  | Some (calls, inl e) => Some (calls, inl e)
  | None => None
  end.

Definition is_upload (c : Call) : bool :=
  match c with FilesUpload => true | _ => false end.

Definition is_get (c : Call) : bool :=
  match c with FilesGet => true | _ => false end.

Definition is_delete (c : Call) : bool :=
  match c with FilesDelete => true | _ => false end.

Definition count (which : Call -> bool) (calls : list Call) : nat :=
  length (List.filter which calls).

(** A first upload rejected and the second accepted; the file processed
    after three polls; a fenced answer. *)
Definition ex_outside : Outside :=
  mkOutside true
    (fun n => if (n <? 1)%nat then None else Some PROCESSING)
    (fun n => if (n <? 2)%nat then Some PROCESSING else Some ACTIVE)
    (Some ex_fenced).

End Service.

(** ** Active-segment lookup ([Player], SubtitleOverlay.tsx) *)

Module Locator.

Import Normalize.

(** The part of the component's state the lookup depends on.  [video] is
    [localVideoRef.current]: [None] while no video element is mounted,
    otherwise its [currentTime]. *)
Record Player : Type := mkPlayer {
  video : option Q;
  activeSubIndexRef : Z;
  activeSubRef : option loc;
  activeSubtitle : option loc;
  isPlaying : bool
}.

(** The state the component starts in ([useRef(-1)], [useRef(null)],
    [useState(null)], [useState(false)]). *)
Definition initial (v : option Q) : Player := mkPlayer v (-1) None None false.

Definition set_currentTime (t : Q) (p : Player) : Player :=
  mkPlayer (Some t) (activeSubIndexRef p) (activeSubRef p) (activeSubtitle p)
    (isPlaying p).

(** A computation that reads the array: it either throws (an element read
    out of range yields [undefined], whose field read is a [TypeError]) or
    yields a value together with the indices it has read, in order. *)
Definition Lookup (A : Type) : Type := option (A * list Z).

Definition ret {A} (a : A) : Lookup A := Some (a, []).

Definition bind {A B} (m : Lookup A) (f : A -> Lookup B) : Lookup B :=
  match m with
  | None => None
  | Some (a, tr) =>
      match f a with
      | None => None
      | Some (b, tr') => Some (b, tr ++ tr')
      end
  end.

Notation "'let*' x ':=' m 'in' f" := (bind m (fun x => f))
  (at level 10, x pattern, m at level 100, f at level 200).

(** [subtitles[i]] followed by a field read.  The loops read the element of
    one index several times in an iteration; the trace notes it once. *)
Definition array_get (subtitles : list loc) (i : Z) : Lookup loc :=
  if (i <? 0)%Z then None
  else match subtitles !! Z.to_nat i with
       | Some l => Some (l, [i])
       | None => None
       end.

(** [time >= s.startTime && time <= s.endTime] *)
Definition contains (σ : Store) (s : loc) (time : Q) : bool :=
  Qleb (start_of σ s) time && Qleb time (end_of σ s).

(** The forward loop (lines 286-294), from [i].  Its guard is
    [i < subtitles.length]; [remaining] bounds the iterations still to run
    and is given as the distance from [i] to the length. *)
Fixpoint forward_scan (σ : Store) (subtitles : list loc) (time : Q)
    (remaining : nat) (i : Z) : Lookup (option (loc * Z)) :=
  match remaining with
  | O => ret None
  | S remaining' =>
      if (i <? Z.of_nat (length subtitles))%Z then
        let* s := array_get subtitles i in
        if contains σ s time then ret (Some (s, i))
        else if Qltb time (start_of σ s) then ret None
        else forward_scan σ subtitles time remaining' (i + 1)
      else ret None
  end.

(** The backward fallback (lines 300-306), from [i].  Its guard is
    [i < scanEnd]; [remaining] bounds the iterations still to run and is
    given as the distance from [i] to [scanEnd]. *)
Fixpoint backward_scan (σ : Store) (subtitles : list loc) (time : Q)
    (scanEnd : Z) (remaining : nat) (i : Z) : Lookup (option (loc * Z)) :=
  match remaining with
  | O => ret None
  | S remaining' =>
      if (i <? scanEnd)%Z then
        let* s := array_get subtitles i in
        if contains σ s time then ret (Some (s, i))
        else backward_scan σ subtitles time scanEnd remaining' (i + 1)
      else ret None
  end.

(** Lines 283-307: the scan that runs when the cached segment does not
    hold [time].  It yields [foundSub] and [foundIndex]. *)
Definition scan (σ : Store) (subtitles : list loc) (time : Q) (index : Z)
  : Lookup (option loc * Z) :=
  let n := Z.of_nat (length subtitles) in
  let startIndex := Z.max 0 index in
  let* fwd := forward_scan σ subtitles time
                (Z.to_nat (n - startIndex)) startIndex in
  match fwd with
  | Some (s, i) => ret (Some s, i)
  | None =>
      if (0 <? startIndex)%Z then
        let scanEnd := Z.min startIndex n in
        let* bwd :=
          backward_scan σ subtitles time scanEnd (Z.to_nat scanEnd) 0 in
        match bwd with
        | Some (s, i) => ret (Some s, i)
        | None => ret (None, (-1)%Z)
        end
      else ret (None, (-1)%Z)
  end.

(** [currentCached && time >= currentCached.startTime
     && time <= currentCached.endTime] *)
Definition cache_valid (σ : Store) (cached : option loc) (time : Q) : bool :=
  match cached with
  | Some c => contains σ c time
  | None => false
  end.

(** Lines 266-309: the lookup.  It yields [foundSub], [foundIndex] and the
    value its stale-index guard leaves in [activeSubIndexRef.current]. *)
Definition locate (σ : Store) (subtitles : list loc) (time : Q)
    (index : Z) (cached : option loc) : Lookup (option loc * Z * Z) :=
  let n := Z.of_nat (length subtitles) in
  if (0 <? n)%Z then
    let index := if (n <=? index)%Z then (-1)%Z else index in
    if cache_valid σ cached time then ret (cached, index, index)
    else
      let* found := scan σ subtitles time index in
      ret (fst found, snd found, index)
  else ret (None, (-1)%Z, index).

(** [foundSub !== activeSubRef.current]: comparison of references. *)
Definition same_ref (a b : option loc) : bool :=
  match a, b with
  | Some x, Some y => (x =? y)%nat
  | None, None => true
  | _, _ => false
  end.

(** [updateUI] (lines 256-345), without its throttled progress-bar part,
    which touches none of the fields modelled. *)
Definition updateUI (σ : Store) (subtitles : list loc) (p : Player)
  : Lookup Player :=
  match video p with
  | None => ret p
  | Some time =>
      let* found :=
        locate σ subtitles time (activeSubIndexRef p) (activeSubRef p) in
      let '(foundSub, foundIndex, index) := found in
      if same_ref foundSub (activeSubRef p)
      then ret (mkPlayer (video p) index (activeSubRef p)
                  (activeSubtitle p) (isPlaying p))
      else ret (mkPlayer (video p) foundIndex foundSub foundSub (isPlaying p))
  end.

(** The effect that runs when [videoUrl] changes (lines 347-364). *)
Definition videoUrl_effect (p : Player) : Player :=
  mkPlayer (match video p with Some _ => Some 0 | None => None end)
    (-1) None None false.

(** The assignments of [handleSeek] (lines 428-434) that precede its call
    of [updateUI]. *)
Definition seek_assign (time : Q) (p : Player) : Player :=
  mkPlayer (Some time) (-1) (activeSubRef p) (activeSubtitle p) (isPlaying p).

(** [handleSeek] (lines 426-437). *)
Definition handleSeek (σ : Store) (subtitles : list loc) (time : Q)
    (p : Player) : Lookup Player :=
  match video p with
  | None => ret p
  | Some _ => updateUI σ subtitles (seek_assign time p)
  end.

(** Playback: one [updateUI] per animation frame, the video clock reading
    the given times in turn; the result lists the segment shown after each
    frame. *)
Fixpoint play (σ : Store) (subtitles : list loc) (p : Player)
    (times : list Q) : Lookup (list (option loc)) :=
  match times with
  | [] => ret []
  | t :: times' =>
      let* p' := updateUI σ subtitles (set_currentTime t p) in
      let* shown := play σ subtitles p' times' in
      ret (activeSubtitle p' :: shown)
  end.

(** The reference lookup: a linear scan for the first segment holding
    [time] (what [drawFrame] of the export does with [subtitles.find]). *)
Definition linear_scan (σ : Store) (subtitles : list loc) (time : Q)
  : option loc :=
  List.find (fun s => contains σ s time) subtitles.

(** *** The scans read over lists *)

(** What a scan finds in the run [l] of the array that starts at index
    [i]: the first segment holding [time] and its index.  With [early] the
    scan gives up at the first segment that starts after [time]. *)
Fixpoint scan_list (early : bool) (σ : Store) (time : Q) (l : list loc)
    (i : Z) : option (loc * Z) :=
  match l with
  | [] => None
  | s :: l' =>
      if contains σ s time then Some (s, i)
      else if early && Qltb time (start_of σ s) then None
      else scan_list early σ time l' (i + 1)
  end.

(** [scan] from the index [k]: forward over the array from [k], then, if
    nothing was found and [k] is positive, over the part before [k]. *)
Definition scan_lists (σ : Store) (subtitles : list loc) (time : Q) (k : nat)
  : option loc * Z :=
  match scan_list true σ time (drop k subtitles) (Z.of_nat k) with
  | Some (s, i) => (Some s, i)
  | None =>
      if (0 <? Z.of_nat k)%Z then
        match scan_list false σ time (take k subtitles) 0 with
        | Some (s, i) => (Some s, i)
        | None => (None, (-1)%Z)
        end
      else (None, (-1)%Z)
  end.

(** The index the stale-index guard (lines 272-274) leaves. *)
Definition guarded_index (subtitles : list loc) (index : Z) : Z :=
  if (Z.of_nat (length subtitles) <=? index)%Z then (-1)%Z else index.

(** Every index of a trace lies inside the array. *)
Definition in_bounds (subtitles : list loc) (tr : list Z) : Prop :=
  Forall (fun i => (0 <= i < Z.of_nat (length subtitles))%Z) tr.

(** The invariant playback keeps, [t'] being the time of the last lookup:
    the segment shown is the cached one, and either nothing is cached and
    the index is -1, or the index is that of the cached segment, which
    started by [t'] and is the first of the array to hold [t']. *)
Definition tracking (σ : Store) (subtitles : list loc) (t' : Q) (p : Player)
  : Prop :=
  activeSubtitle p = activeSubRef p
  /\ ((activeSubRef p = None /\ activeSubIndexRef p = (-1)%Z)
      \/ exists pre c suf,
           subtitles = pre ++ c :: suf
           /\ activeSubIndexRef p = Z.of_nat (length pre)
           /\ activeSubRef p = Some c
           /\ start_of σ c <= t'
           /\ Forall (fun s => contains σ s t' = false) pre).

(** What a frame may show at [time]: a segment that holds it, or nothing
    when the array has no segment that does. *)
Definition covering (σ : Store) (subtitles : list loc) (time : Q)
    (shown : option loc) : Prop :=
  match shown with
  | Some s => contains σ s time = true
  | None => linear_scan σ subtitles time = None
  end.

(** The state a seek leaves behind when the cached segment holds the new
    time [t']: the index is reset, the segment is still cached and shown. *)
Definition seeked (σ : Store) (t' : Q) (p : Player) : Prop :=
  activeSubtitle p = activeSubRef p
  /\ activeSubIndexRef p = (-1)%Z
  /\ exists c, activeSubRef p = Some c /\ start_of σ c <= t'.

(** *** Concrete inputs *)

Definition ex_store : Store := (alloc ex_normalized).1.
Definition ex_subtitles : list loc := (alloc ex_normalized).2.

(** The clock of a playback of [ex_normalized]. *)
Definition ex_times : list Q := [0; 1; 1.5; 2; 3.5; 5; 7].

(** A player in the middle of the second segment of [ex_normalized]. *)
Definition ex_player : Player :=
  mkPlayer (Some 2) 1 (Some 1%nat) (Some 1%nat) true.

End Locator.

(** ** Caption file export ([downloadSRT], App.tsx 407-427) *)

Module Srt.

Local Open Scope string_scope.

(** The line feed. *)
Definition LF : ascii := "010"%char.

(** [ToIntegerOrInfinity] on a finite number: truncation toward zero. *)
Definition ToIntegerOrInfinity (q : Q) : Z := Z.quot (Qnum q) (Zpos (Qden q)).

(** [date = new Date(0); date.setMilliseconds(s * 1000)]: the time value of
    [date], in milliseconds from the epoch.  [setMilliseconds] truncates its
    argument and replaces the milliseconds field of the epoch, which is 0.
    Times being rationals, the product is the exact one; and the date is
    set as in a time zone whose offset is fixed and a whole number of
    seconds, where replacing the milliseconds of the local time comes to
    adding them to the epoch. *)
Definition setMilliseconds_from_epoch (s : Q) : Z :=
  (0 + ToIntegerOrInfinity (s * 1000))%Z.

(** The character of the decimal digit [n].  The fields of a date are
    padded with zeros to a fixed width, so that every digit written is one
    of the ten. *)
Definition digit (n : Z) : ascii :=
  match String.get (Z.to_nat n) "0123456789" with
  | Some c => c
  | None => "9"%char
  end.

Definition pad2 (n : Z) : string :=
  String (digit (n / 10)) (String (digit (n mod 10)) "").

Definition pad3 (n : Z) : string :=
  String (digit (n / 100)) (pad2 (n mod 100)).

(** [date.toISOString().substr(11, 12)]: the [HH:mm:ss.sss] part of the ISO
    string, for a date whose year has four digits (time values from
    -62167219200000 to 253402300799999; [toISOString] writes other years
    with a sign and six digits, which moves the substring). *)
Definition toISOString_time (tv : Z) : string :=
  let tod := (tv mod 86400000)%Z in
  pad2 (tod / 3600000) ++ ":" ++ pad2 ((tod / 60000) mod 60) ++ ":"
  ++ pad2 ((tod / 1000) mod 60) ++ "." ++ pad3 (tod mod 1000).

(** [str.replace(a, b)] with one-character strings: the first occurrence. *)
Fixpoint replace_first (a b : ascii) (s : string) : string :=
  match s with
  | EmptyString => EmptyString
  | String c s' =>
      if Ascii.eqb c a then String b s' else String c (replace_first a b s')
  end.

Definition formatSrtTime (s : Q) : string :=
  replace_first "." "," (toISOString_time (setMilliseconds_from_epoch s)).

(** [`${index + 1}`] for an array index. *)
Definition string_of_index (n : nat) : string :=
  NilEmpty.string_of_uint (Nat.to_uint n).

(** What one [forEach] callback appends to [srtContent]. *)
Definition entry (index : nat) (sub : SubtitleSegment) : string :=
  (string_of_index (index + 1) ++ String LF "")
  ++ (formatSrtTime (startTime sub) ++ " --> " ++ formatSrtTime (endTime sub)
      ++ String LF "")
  ++ (english sub ++ String LF "" ++ chinese sub ++ String LF (String LF "")).

Fixpoint forEach_append (index : nat) (subtitles : list SubtitleSegment)
    (srtContent : string) : string :=
  match subtitles with
  | [] => srtContent
  | sub :: rest => forEach_append (S index) rest (srtContent ++ entry index sub)
  end.

(** The text of the file [downloadSRT] offers for download; [None] when it
    returns at line 408 without producing a file.  The function only reads
    the segments, so it is given their contents. *)
Definition downloadSRT (subtitles : list SubtitleSegment) : option string :=
  if (length subtitles =? 0)%nat then None
  else Some (forEach_append 0 subtitles "").

(** *** A reader of the caption file format *)

(** Modelled from the spec: the sources write caption files and never read
    them, so the reader against which the round trip is stated follows the
    format of the specification: a file is a sequence of entries, each a
    1-based sequence number line, a timing line
    [HH:MM:SS,mmm --> HH:MM:SS,mmm], the primary text line, the secondary
    text line and a blank line. *)
Fixpoint split_lines (s : string) : list string :=
  match s with
  | EmptyString => [EmptyString]
  | String c s' =>
      if Ascii.eqb c LF then EmptyString :: split_lines s'
      else match split_lines s' with
           | l :: ls => String c l :: ls
           | [] => [String c EmptyString]
           end
  end.

(** Modelled from the spec: the value of a decimal digit, by its code. *)
Definition digit_value (c : ascii) : option Z :=
  let code := Z.of_nat (nat_of_ascii c) in
  if (48 <=? code)%Z && (code <=? 57)%Z then Some (code - 48)%Z else None.

(** Modelled from the spec: reads [n] decimal digits. *)
Fixpoint read_digits (n : nat) (acc : Z) (s : string) : option (Z * string) :=
  match n with
  | O => Some (acc, s)
  | S n' =>
      match s with
      | String c s' =>
          match digit_value c with
          | Some d => read_digits n' (10 * acc + d)%Z s'
          | None => None
          end
      | EmptyString => None
      end
  end.

(** Modelled from the spec: reads one given character. *)
Definition expect (c : ascii) (s : string) : option string :=
  match s with
  | String c' s' => if Ascii.eqb c' c then Some s' else None
  | EmptyString => None
  end.

(** Modelled from the spec: reads [HH:MM:SS,mmm] as milliseconds. *)
Definition read_timestamp (s : string) : option (Z * string) :=
  match read_digits 2 0 s with
  | Some (h, s1) =>
    match expect ":" s1 with
    | Some s2 =>
      match read_digits 2 0 s2 with
      | Some (m, s3) =>
        match expect ":" s3 with
        | Some s4 =>
          match read_digits 2 0 s4 with
          | Some (sec, s5) =>
            match expect "," s5 with
            | Some s6 =>
              match read_digits 3 0 s6 with
              | Some (ms, s7) =>
                  Some (h * 3600000 + m * 60000 + sec * 1000 + ms, s7)%Z
              | None => None
              end
            | None => None
            end
          | None => None
          end
        | None => None
        end
      | None => None
      end
    | None => None
    end
  | None => None
  end.

(** Modelled from the spec: reads the arrow [" --> "] between the stamps. *)
Definition read_arrow (s : string) : option string :=
  match s with
  | String " " (String "-" (String "-" (String ">" (String " " s')))) =>
      Some s'
  | _ => None
  end.

(** Modelled from the spec: reads a timing line. *)
Definition read_timing (line : string) : option (Z * Z) :=
  match read_timestamp line with
  | Some (a, s1) =>
    match read_arrow s1 with
    | Some s2 =>
      match read_timestamp s2 with
      | Some (b, EmptyString) => Some (a, b)
      | _ => None
      end
    | None => None
    end
  | None => None
  end.

(** Seconds from milliseconds. *)
Definition seconds_of_ms (ms : Z) : Q := inject_Z ms / 1000.

(** Modelled from the spec: reads the entries, [index] being the number of
    entries read so far. *)
Fixpoint read_entries (index : nat) (lines : list string)
  : option (list SubtitleSegment) :=
  match lines with
  | [EmptyString] => Some []
  | number :: timing :: primary :: secondary :: EmptyString :: rest =>
      if String.eqb number (string_of_index (index + 1)) then
        match read_timing timing with
        | Some (a, b) =>
            match read_entries (S index) rest with
            | Some segs =>
                Some (mkSegment (seconds_of_ms a) (seconds_of_ms b)
                        primary secondary :: segs)
            | None => None
            end
        | None => None
        end
      else None
  | _ => None
  end.

(** Modelled from the spec: the reader of caption files. *)
Definition parseSRT (file : string) : option (list SubtitleSegment) :=
  read_entries 0 (split_lines file).

(** Two segments agree within the rounding tolerance of the format, one
    millisecond, and in both texts. *)
Definition close_to (a b : SubtitleSegment) : Prop :=
  Qabs (startTime a - startTime b) < 1 / 1000
  /\ Qabs (endTime a - endTime b) < 1 / 1000
  /\ english a = english b /\ chinese a = chinese b.

(** Writing then reading gives the segments back, up to [close_to]. *)
Definition round_trip (subtitles : list SubtitleSegment) : Prop :=
  match downloadSRT subtitles with
  | Some file =>
      match parseSRT file with
      | Some read => Forall2 close_to subtitles read
      | None => False
      end
  | None => False
  end.

(** A text fits on one line of the file. *)
Fixpoint single_line (s : string) : bool :=
  match s with
  | EmptyString => true
  | String c s' => negb (Ascii.eqb c LF) && single_line s'
  end.

(** *** Readings used to state what the file holds *)

(** The milliseconds into the day that [formatSrtTime] writes for [s]. *)
Definition time_of_day (s : Q) : Z :=
  (setMilliseconds_from_epoch s mod 86400000)%Z.

(** [HH:MM:SS,mmm] for a number of milliseconds into the day. *)
Definition stamp (tod : Z) : string :=
  pad2 (tod / 3600000) ++ ":" ++ pad2 ((tod / 60000) mod 60) ++ ":"
  ++ pad2 ((tod / 1000) mod 60) ++ "," ++ pad3 (tod mod 1000).

(** The entries [forEach] appends, from [index] on. *)
Fixpoint entries (index : nat) (subtitles : list SubtitleSegment) : string :=
  match subtitles with
  | [] => ""
  | sub :: rest => entry index sub ++ entries (S index) rest
  end.

(** The segment the file holds for [sub]. *)
Definition written (sub : SubtitleSegment) : SubtitleSegment :=
  mkSegment (seconds_of_ms (time_of_day (startTime sub)))
    (seconds_of_ms (time_of_day (endTime sub))) (english sub) (chinese sub).

(** A segment the format can hold: both times within one day from zero,
    both texts on one line. *)
Definition exportable (sub : SubtitleSegment) : Prop :=
  (0 <= startTime sub /\ startTime sub < 86400)
  /\ (0 <= endTime sub /\ endTime sub < 86400)
  /\ single_line (english sub) = true /\ single_line (chinese sub) = true.

(** *** Concrete inputs *)

(** A segment that starts a day into the source. *)
Definition ex_day_long : list SubtitleSegment :=
  [ mkSegment 86400 86401 "A" "a" ].

Definition ex_first_second : list SubtitleSegment :=
  [ mkSegment 0 1 "A" "a" ].

(** Two segments whose texts break differently over the same three lines. *)
Definition ex_break_first : list SubtitleSegment :=
  [ mkSegment 0 1 (String "x" (String LF "y")) "z" ].

Definition ex_break_second : list SubtitleSegment :=
  [ mkSegment 0 1 "x" (String "y" (String LF "z")) ].

Definition ex_exportable : list SubtitleSegment :=
  [ mkSegment 0 1.5 "Hello there" "hello";
    mkSegment 1.5 (37234567 # 10000) "" "second" ].

End Srt.

(** ** Time labels, volume and the subtitle list (SubtitleOverlay.tsx) *)

Module Controls.

Import Normalize Locator.

Local Open Scope string_scope.




(** [formatTime] of [SubtitleList] (lines 138-144):
    [new Date(safeSeconds * 1000).toISOString().substr(14, 5)], the minutes
    and seconds of the ISO string, for a date whose year has four digits.
    The date of lines 139-140 is not used. *)
Definition SubtitleList_formatTime (seconds : Q) : string :=
  let safeSeconds := if Qltb 0 seconds then seconds else 0 in
  String.substring 3 5
    (Srt.toISOString_time (Srt.ToIntegerOrInfinity (safeSeconds * 1000))).

(** [isActive] of a row of [SubtitleList] (line 163). *)
Definition isActive (σ : Store) (currentTime : Q) (sub : loc) : bool :=
  Qleb (start_of σ sub) currentTime && Qleb currentTime (end_of σ sub).

(** The rows [SubtitleList] renders as active, in the order of the list. *)
Definition active_rows (σ : Store) (subtitles : list loc) (currentTime : Q)
  : list loc :=
  List.filter (isActive σ currentTime) subtitles.

(** The volume of [Player]: the state [volume], the ref [lastVolumeRef] and
    the [volume] attribute of the video element, [None] while no element is
    mounted. *)
Record Sound : Type := mkSound {
  volume : Q;
  lastVolumeRef : Q;
  video_volume : option Q
}.

(** [useState(1)], [useRef(1)] and the default volume of a media element. *)
Definition initial_sound : Sound := mkSound 1 1 (Some 1).

(** [video.volume = v]: the setter throws an [IndexSizeError] outside of
    the range from 0 to 1. *)
Definition set_video_volume (v : Q) (s : Sound) : option Sound :=
  match video_volume s with
  | None => Some s
  | Some _ =>
      if Qleb 0 v && Qleb v 1
      then Some (mkSound (volume s) (lastVolumeRef s) (Some v))
      else None
  end.

(** [handleVolumeChange] (lines 439-446), [vol] being the value of the
    slider; [None] when it throws. *)
Definition handleVolumeChange (vol : Q) (s : Sound) : option Sound :=
  set_video_volume vol (mkSound vol (lastVolumeRef s) (video_volume s)).

(** [toggleMute] (lines 448-463). *)
Definition toggleMute (s : Sound) : option Sound :=
  match video_volume s with
  | None => Some s
  | Some _ =>
      if Qltb 0 (volume s) then
        set_video_volume 0 (mkSound 0 (volume s) (video_volume s))
      else
        let restoreVol :=
          if Qltb 0 (lastVolumeRef s) then lastVolumeRef s else 1 in
        set_video_volume restoreVol
          (mkSound restoreVol (lastVolumeRef s) (video_volume s))
  end.

(** What the user does to the volume controls. *)
Inductive VolumeAction : Type :=
  | Slide (vol : Q)
  | Mute.

Definition volume_step (act : VolumeAction) (s : Sound) : option Sound :=
  match act with
  | Slide vol => handleVolumeChange vol s
  | Mute => toggleMute s
  end.

Fixpoint volume_run (acts : list VolumeAction) (s : Sound) : option Sound :=
  match acts with
  | [] => Some s
  | act :: rest =>
      match volume_step act s with
      | Some s' => volume_run rest s'
      | None => None
      end
  end.

(** The slider has [min="0"] and [max="1"]. *)
Definition on_slider (act : VolumeAction) : Prop :=
  match act with
  | Slide vol => 0 <= vol /\ vol <= 1
  | Mute => True
  end.

(** The element and the state agree on a volume in range, and the volume
    remembered for unmuting is audible. *)
Definition in_tune (s : Sound) : Prop :=
  video_volume s = Some (volume s)
  /\ (0 <= volume s /\ volume s <= 1)
  /\ (0 < lastVolumeRef s /\ lastVolumeRef s <= 1).

End Controls.

(** ** Double precision

    The export divides and multiplies the sides of the video, and what it
    hands to [Math.round] is the double such an operation returns, not the
    exact quotient or product.  [binary64 x] is the double nearest to [x],
    a tie going to the even significand.  The exponent is not bounded: the
    result is the one of the code for every [x] in the range of the normal
    doubles, from 2^-1022 up to 2^1024 in magnitude, which the quotients and
    products of sides below 2^32 and of the two bounds never leave. *)

Module Double.

(** The exponent of a positive number: the [k] with [2^k <= x < 2^(k+1)]. *)
Definition exponent (x : Q) : Z :=
  let k := (Z.log2 (Qnum x) - Z.log2 (Z.pos (Qden x)))%Z in
  if Qleb (2 ^ k) x then k else (k - 1)%Z.

(** The nearest integer, a half going to the even neighbour. *)
Definition round_half_even (x : Q) : Z :=
  let n := Qfloor x in
  let rest := x - inject_Z n in
  if Qltb rest 0.5 then n
  else if Qltb 0.5 rest then (n + 1)%Z
  else if Z.even n then n else (n + 1)%Z.

(** A positive number rounded to 53 significant bits: its significand,
    scaled to lie between 2^52 and 2^53, is rounded to a whole number. *)
Definition round_positive (x : Q) : Q :=
  let ulp := 2 ^ (exponent x - 52) in
  inject_Z (round_half_even (x / ulp)) * ulp.

(** Rounding is symmetric about 0, which it leaves as it is. *)
Definition binary64 (x : Q) : Q :=
  if Qltb 0 x then round_positive x
  else if Qltb x 0 then - round_positive (- x)
  else 0.

End Double.

(** ** Burned-video export ([handleExportBurned], App.tsx 429-705) *)

Module BurnedExport.

Local Open Scope string_scope.

Inductive SubtitleViewMode : Type := dual | en | cn | off.

Inductive ExportFormat : Type := mp4 | webm | mov | mkv | avi.

Record SubtitleStyle : Type := mkStyle {
  enSize : Z;
  cnSize : Z;
  enColor : string;
  cnColor : string;
  verticalPosition : Z
}.

(** *** Target dimensions (lines 490-508) *)

Definition MAX_WIDTH : Z := 1920.
Definition MAX_HEIGHT : Z := 1080.

(** [Math.round]: the nearest integer, halves upward. *)
Definition Math_round (q : Q) : Z := Qfloor (q + 0.5).

(** [if (n % 2 !== 0) n--] *)
Definition make_even (n : Z) : Z :=
  if (Z.rem n 2 =? 0)%Z then n else (n - 1)%Z.

(** [a / b] and [a * b] on numbers: the double nearest to the exact
    result. *)
Definition Number_divide (a b : Q) : Q := Double.binary64 (a / b).
Definition Number_multiply (a b : Q) : Q := Double.binary64 (a * b).

(** [videoWidth] and [videoHeight] are unsigned integers.  Inside the
    clamping branch one of them exceeds its bound, so a zero height makes
    [ratio] the quotient of a positive width by zero, [Infinity]: it is
    greater than 1 and [Math.round(MAX_WIDTH / ratio)] is 0.  Otherwise
    [ratio] is the double quotient of the sides, and the side that follows
    is rounded from the double [MAX_WIDTH / ratio] or
    [MAX_HEIGHT * ratio]. *)
Definition target_dimensions (videoWidth videoHeight : Z) : Z * Z :=
  let '(targetWidth, targetHeight) :=
    if (MAX_WIDTH <? videoWidth)%Z || (MAX_HEIGHT <? videoHeight)%Z then
      if (videoHeight =? 0)%Z then (MAX_WIDTH, 0%Z)
      else
        let ratio :=
          Number_divide (inject_Z videoWidth) (inject_Z videoHeight) in
        if Qltb 1 ratio
        then (MAX_WIDTH, Math_round (Number_divide (inject_Z MAX_WIDTH) ratio))
        else (Math_round (Number_multiply (inject_Z MAX_HEIGHT) ratio),
              MAX_HEIGHT)
    else (videoWidth, videoHeight) in
  (make_even targetWidth, make_even targetHeight).

(** *** The export key ([JSON.stringify], lines 432-438) *)

Definition quote : ascii := "034"%char.
Definition backslash : ascii := "092"%char.

Definition hex_digit (n : nat) : ascii :=
  match n with
  | 0 => "0" | 1 => "1" | 2 => "2" | 3 => "3" | 4 => "4" | 5 => "5"
  | 6 => "6" | 7 => "7" | 8 => "8" | 9 => "9" | 10 => "a" | 11 => "b"
  | 12 => "c" | 13 => "d" | 14 => "e" | _ => "f"
  end%char%nat.

(** [QuoteJSONString] on one character: the two-character escapes, the
    [\u00XX] form of the other control characters, and the character itself
    otherwise. *)
Definition quote_char (c : ascii) : string :=
  let n := nat_of_ascii c in
  if (n =? 8)%nat then String backslash "b"
  else if (n =? 9)%nat then String backslash "t"
  else if (n =? 10)%nat then String backslash "n"
  else if (n =? 12)%nat then String backslash "f"
  else if (n =? 13)%nat then String backslash "r"
  else if (n =? 34)%nat then String backslash (String quote "")
  else if (n =? 92)%nat then String backslash (String backslash "")
  else if (n <? 32)%nat then
    String backslash
      (String "u" (String "0" (String "0"
         (String (hex_digit (n / 16)) (String (hex_digit (n mod 16)) "")))))
  else String c "".

Fixpoint quote_chars (s : string) : string :=
  match s with
  | EmptyString => EmptyString
  | String c s' => quote_char c ++ quote_chars s'
  end.

Definition JSON_string (s : string) : string :=
  String quote (quote_chars s ++ String quote "").

(** An integer prints in decimal. *)
Definition JSON_integer (n : Z) : string := NilEmpty.string_of_int (Z.to_int n).

(** ["name":] *)
Definition property (name : string) : string := JSON_string name ++ ":".

Definition viewMode_string (m : SubtitleViewMode) : string :=
  match m with dual => "dual" | en => "en" | cn => "cn" | off => "off" end.

Definition format_string (f : ExportFormat) : string :=
  match f with
  | mp4 => "mp4" | webm => "webm" | mov => "mov" | mkv => "mkv" | avi => "avi"
  end.

Definition JSON_style (st : SubtitleStyle) : string :=
  "{" ++ property "enSize" ++ JSON_integer (enSize st)
  ++ "," ++ property "cnSize" ++ JSON_integer (cnSize st)
  ++ "," ++ property "enColor" ++ JSON_string (enColor st)
  ++ "," ++ property "cnColor" ++ JSON_string (cnColor st)
  ++ "," ++ property "verticalPosition" ++ JSON_integer (verticalPosition st)
  ++ "}".

(** What the user's choices and the loaded video contribute to an export. *)
Record Settings : Type := mkSettings {
  videoData_url : option string;
  (** the name of [videoData.file] without its extension, or ['video'] *)
  videoData_stem : string;
  subtitles : list SubtitleSegment;
  viewMode : SubtitleViewMode;
  subStyle : SubtitleStyle;
  exportFormat : ExportFormat
}.

Section Key.

(** How [JSON.stringify] prints a time of a segment, a number that need not
    be an integer.  The key is built from it; nothing is assumed of it. *)
Variable JSON_number : Q -> string.

Definition JSON_segment (s : SubtitleSegment) : string :=
  "{" ++ property "startTime" ++ JSON_number (startTime s)
  ++ "," ++ property "endTime" ++ JSON_number (endTime s)
  ++ "," ++ property "english" ++ JSON_string (english s)
  ++ "," ++ property "chinese" ++ JSON_string (chinese s)
  ++ "}".

Fixpoint JSON_elements (l : list SubtitleSegment) : string :=
  match l with
  | [] => ""
  | [s] => JSON_segment s
  | s :: l' => JSON_segment s ++ "," ++ JSON_elements l'
  end.

Definition JSON_subtitles (l : list SubtitleSegment) : string :=
  "[" ++ JSON_elements l ++ "]".

(** [JSON.stringify({ videoUrl: videoData.url, subtitles, viewMode,
    subStyle, exportFormat })], for a video that is loaded. *)
Definition export_key (url : string) (s : Settings) : string :=
  ("{" ++ property "videoUrl" ++ JSON_string url
   ++ "," ++ property "subtitles" ++ JSON_subtitles (subtitles s)
   ++ "," ++ property "viewMode")
  ++ (JSON_string (viewMode_string (viewMode s))
      ++ "," ++ property "subStyle" ++ JSON_style (subStyle s)
      ++ "," ++ property "exportFormat"
      ++ JSON_string (format_string (exportFormat s)) ++ "}").

End Key.

(** *** The runtime objects of a job and the state of the component *)

Inductive RecordingState : Type := inactive | recording | paused.

(** The off-screen [<video>] element. *)
Record OfflineVideo : Type := mkVideo {
  video_paused : bool;
  video_has_src : bool;
  video_in_body : bool
}.

(** The [MediaRecorder]: its [state] and whether [onstop] and [onerror]
    hold the handlers of the job ([true]) or [null] ([false]). *)
Record Recorder : Type := mkRecorder {
  state : RecordingState;
  onstop : bool;
  onerror : bool
}.

Record Blob : Type := mkBlob {
  blob_parts : list string;
  blob_type : string
}.

Record CacheEntry : Type := mkEntry {
  key : string;
  blob : Blob;
  fileName : string
}.

(** What one run of [handleExportBurned] keeps in its closure: the values
    its handlers capture and the objects it has created. *)
Record Job : Type := mkJob {
  currentExportKey : string;
  mimeType : string;
  job_fileName : string;
  canvas_size : Z * Z;
  chunks : list string;
  offlineVideo : OfflineVideo;
  audioCtx_closed : bool;
  recorder : Recorder
}.

(** Effects on the world outside the component, newest last. *)
Inductive Effect : Type :=
  | CreateVideoElement
  | CreateAudioContext
  | CaptureStream
  | NewMediaRecorder (mime : string)
  | Download (b : Blob) (name : string)
  | Alert.

(** The component.  The three refs to runtime objects either hold the
    object of [job] ([true]) or [null] ([false]). *)
Record App : Type := mkApp {
  settings : Settings;
  isExporting : bool;
  exportResult : option bool;
  cachedExportRef : option CacheEntry;
  mediaRecorderRef : bool;
  offlineVideoRef : bool;
  exportAudioCtxRef : bool;
  job : option Job;
  effects : list Effect
}.

Definition with_job (j : Job) (a : App) : App :=
  mkApp (settings a) (isExporting a) (exportResult a) (cachedExportRef a)
    (mediaRecorderRef a) (offlineVideoRef a) (exportAudioCtxRef a) (Some j)
    (effects a).

Definition with_recorder (r : Recorder) (j : Job) : Job :=
  mkJob (currentExportKey j) (mimeType j) (job_fileName j) (canvas_size j)
    (chunks j) (offlineVideo j) (audioCtx_closed j) r.

(** [v.pause(); v.removeAttribute('src'); v.load();
     if (document.body.contains(v)) document.body.removeChild(v)] *)
Definition release_video (v : OfflineVideo) : OfflineVideo :=
  mkVideo true false false.

(** The two blocks both [cleanup] and [cancelExport] run on the objects the
    refs hold ([videoRef] and [audioRef] tell whether they hold one). *)
Definition release_media (j : Job) (videoRef audioRef : bool) : Job :=
  mkJob (currentExportKey j) (mimeType j) (job_fileName j) (canvas_size j)
    (chunks j)
    (if videoRef then release_video (offlineVideo j) else offlineVideo j)
    (if audioRef then true else audioCtx_closed j)
    (recorder j).

(** [cleanup] (lines 538-552). *)
Definition cleanup (a : App) : App :=
  mkApp (settings a) false (exportResult a) (cachedExportRef a)
    (mediaRecorderRef a) (offlineVideoRef a) (exportAudioCtxRef a)
    (option_map (fun j => release_media j (offlineVideoRef a)
                            (exportAudioCtxRef a)) (job a))
    (effects a).

(** [cancelExport] (lines 107-131). *)
Definition cancelExport (a : App) : App :=
  let stop_recorder (j : Job) : Job :=
    if mediaRecorderRef a
    then with_recorder (mkRecorder inactive false false) j
    else j in
  mkApp (settings a) false (exportResult a) (cachedExportRef a)
    (mediaRecorderRef a) false false
    (option_map (fun j => release_media (stop_recorder j) (offlineVideoRef a)
                            (exportAudioCtxRef a)) (job a))
    (effects a).

(** [recorder.ondataavailable] (lines 535-537). *)
Definition recorder_ondataavailable (data : string) (a : App) : App :=
  match job a with
  | Some j =>
      if (0 <? String.length data)%nat
      then with_job (mkJob (currentExportKey j) (mimeType j) (job_fileName j)
                       (canvas_size j) (chunks j ++ [data]) (offlineVideo j)
                       (audioCtx_closed j) (recorder j)) a
      else a
  | None => a
  end.

(** [recorder.onstop] (lines 553-569). *)
Definition recorder_onstop (a : App) : App :=
  match job a with
  | Some j =>
      let blob := mkBlob (chunks j) (mimeType j) in
      cleanup
        (mkApp (settings a) (isExporting a) (Some true)
           (Some (mkEntry (currentExportKey j) blob (job_fileName j)))
           (mediaRecorderRef a) (offlineVideoRef a) (exportAudioCtxRef a)
           (job a) (effects a ++ [Download blob (job_fileName j)]))
  | None => a
  end.

(** [recorder.onerror] (lines 570-574). *)
Definition recorder_onerror (a : App) : App :=
  cleanup
    (mkApp (settings a) (isExporting a) (Some false) (cachedExportRef a)
       (mediaRecorderRef a) (offlineVideoRef a) (exportAudioCtxRef a)
       (job a) (effects a)).

(** The events the recorder of the job fires.  An event runs the handler
    the recorder holds for it, if it holds one. *)
Inductive RecorderEvent : Type :=
  | DataAvailable (data : string)
  | Stop
  | Error.

Definition dispatch (e : RecorderEvent) (a : App) : App :=
  match job a with
  | Some j =>
      match e with
      | DataAvailable data => recorder_ondataavailable data a
      | Stop => if onstop (recorder j) then recorder_onstop a else a
      | Error => if onerror (recorder j) then recorder_onerror a else a
      end
  | None => a
  end.

(** The end test of [drawFrame] (lines 641-644), once the source has played
    to its end: [if (recorder.state === 'recording') recorder.stop()]. *)
Definition drawFrame_at_end (a : App) : App :=
  match job a with
  | Some j =>
      match state (recorder j) with
      | recording =>
          with_job (with_recorder
                      (mkRecorder inactive (onstop (recorder j))
                         (onerror (recorder j))) j) a
      | _ => a
      end
  | None => a
  end.

Definition preferredMimes (f : ExportFormat) : list string :=
  match f with
  | mp4 | mov =>
      [ "video/mp4;codecs=avc1.640034,mp4a.40.2";
        "video/mp4;codecs=avc1.42E01E,mp4a.40.2";
        "video/mp4";
        "video/webm;codecs=vp9,opus";
        "video/webm" ]
  | _ =>
      [ "video/webm;codecs=vp9,opus";
        "video/webm;codecs=vp8,opus";
        "video/webm";
        "video/mp4;codecs=avc1.640034,mp4a.40.2";
        "video/mp4" ]
  end.

(** [cachedExportRef.current && cachedExportRef.current.key ===
    currentExportKey] (line 439): the entry the cache holds for a key. *)
Definition cache_get (cache : option CacheEntry) (currentExportKey : string)
  : option CacheEntry :=
  match cache with
  | Some c => if String.eqb (key c) currentExportKey then Some c else None
  | None => None
  end.

Section Request.

Variable JSON_number : Q -> string.

(** [MediaRecorder.isTypeSupported], a capability of the runtime. *)
Variable isTypeSupported : string -> bool.

(** [handleExportBurned] (lines 429-705), with the source video reporting
    [videoWidth] and [videoHeight] once its metadata has loaded.  The run is
    taken up to the start of the recorder; its awaits are taken to settle
    in order and the canvas to give a 2D context. *)
Definition handleExportBurned (videoWidth videoHeight : Z) (a : App) : App :=
  match videoData_url (settings a) with
  | None => a
  | Some url =>
      if isExporting a then a
      else
        let currentExportKey := export_key JSON_number url (settings a) in
        match cache_get (cachedExportRef a) currentExportKey with
        | Some c =>
            mkApp (settings a) (isExporting a) None (cachedExportRef a)
              (mediaRecorderRef a) (offlineVideoRef a) (exportAudioCtxRef a)
              (job a) (effects a ++ [Download (blob c) (fileName c)])
        | None =>
            match List.find isTypeSupported
                    (preferredMimes (exportFormat (settings a))) with
            | None =>
                mkApp (settings a) (isExporting a) None (cachedExportRef a)
                  (mediaRecorderRef a) (offlineVideoRef a)
                  (exportAudioCtxRef a) (job a) (effects a ++ [Alert])
            | Some mimeType =>
                let fileName :=
                  videoData_stem (settings a) ++ "_subs."
                  ++ format_string (exportFormat (settings a)) in
                mkApp (settings a) true None (cachedExportRef a)
                  true true true
                  (Some (mkJob currentExportKey mimeType fileName
                           (target_dimensions videoWidth videoHeight) []
                           (mkVideo false true true) false
                           (mkRecorder recording true true)))
                  (effects a
                   ++ [CreateVideoElement; CreateAudioContext; CaptureStream;
                       NewMediaRecorder mimeType])
            end
        end
  end.

End Request.

(** The effects that build the capture graph or the recorder. *)
Definition is_construction (e : Effect) : bool :=
  match e with
  | CreateVideoElement | CreateAudioContext | CaptureStream
  | NewMediaRecorder _ => true
  | Download _ _ | Alert => false
  end.

Definition constructions (a : App) : nat :=
  length (List.filter is_construction (effects a)).

(** The component with the chunks of its job replaced. *)
Definition with_chunks (chunks' : list string) (j : Job) (a : App) : App :=
  mkApp (settings a) (isExporting a) (exportResult a) (cachedExportRef a)
    (mediaRecorderRef a) (offlineVideoRef a) (exportAudioCtxRef a)
    (Some (mkJob (currentExportKey j) (mimeType j) (job_fileName j)
             (canvas_size j) chunks' (offlineVideo j) (audioCtx_closed j)
             (recorder j)))
    (effects a).

(** The chunks the recorder delivers while it records, in order. *)
Definition receive (datas : list string) (a : App) : App :=
  fold_left (fun a data => dispatch (DataAvailable data) a) datas a.

(** The component as it is mounted, with the given settings. *)
Definition mounted (s : Settings) : App :=
  mkApp s false None None false false false None [].

(** [recorder] events in turn. *)
Definition dispatch_all (events : list RecorderEvent) (a : App) : App :=
  fold_left (fun a e => dispatch e a) events a.

(** [e.data.size > 0] *)
Definition has_data (data : string) : bool := (0 <? String.length data)%nat.

(** [processSelectedFile] (lines 210-221): the video becomes the file
    chosen, under a fresh object URL; the subtitles, the result notice and
    the cached export are dropped.  [stem] is the name of the file without
    its extension. *)
Definition processSelectedFile (url stem : string) (a : App) : App :=
  mkApp
    (mkSettings (Some url) stem [] (viewMode (settings a))
       (subStyle (settings a)) (exportFormat (settings a)))
    (isExporting a) None None (mediaRecorderRef a) (offlineVideoRef a)
    (exportAudioCtxRef a) (job a) (effects a).

(** The cleanup of the effect on [videoData.url] (lines 321-337), which
    runs when the URL has changed: the off-screen video is taken out of the
    document and emptied, its ref is cleared, and the audio context is
    closed. *)
Definition videoUrl_cleanup (a : App) : App :=
  mkApp (settings a) (isExporting a) (exportResult a) (cachedExportRef a)
    (mediaRecorderRef a) false (exportAudioCtxRef a)
    (option_map (fun j => release_media j (offlineVideoRef a)
                            (exportAudioCtxRef a)) (job a))
    (effects a).

(** *** Drawing the captions ([drawText], lines 575-636) *)

(** [text.split(sep)] for a separator of one character. *)
Fixpoint split (sep : ascii) (text : string) : list string :=
  match text with
  | EmptyString => [EmptyString]
  | String c rest =>
      if Ascii.eqb c sep then EmptyString :: split sep rest
      else match split sep rest with
           | piece :: pieces => String c piece :: pieces
           | [] => [String c EmptyString]
           end
  end.

(** What a call of [drawText] leaves on the canvas, each string with the
    font size and the baseline it is drawn at, and the height it returns.
    The horizontal position, the colour and the outline are the same for
    every string of a call. *)
Record Drawn : Type := mkDrawn {
  strings : list (string * Q * Q);
  heightUsed : Q
}.

Section Canvas.

(** [ctx.measureText(s).width] with the font set to [size] pixels, in the
    family and weight of the call.  Nothing is assumed of it. *)
Variable measureText : Q -> string -> Q.

(** The loop of lines 591-600; [n] is its counter. *)
Fixpoint wrap_loop (fontSize maxWidth : Q) (words : list string) (n : nat)
    (line : string) (lines : list string) : string * list string :=
  match words with
  | [] => (line, lines)
  | word :: rest =>
      let testLine := line ++ word ++ " " in
      if Qltb maxWidth (measureText fontSize testLine) && (0 <? n)%nat
      then wrap_loop fontSize maxWidth rest (S n) (word ++ " ")
             (lines ++ [line])%list
      else wrap_loop fontSize maxWidth rest (S n) testLine lines
  end.

(** The lines of the wrapping branch (lines 588-601). *)
Definition wrap (fontSize maxWidth : Q) (text : string) : list string :=
  let '(line, lines) :=
    wrap_loop fontSize maxWidth (split " " text) 0 "" [] in
  (lines ++ [line])%list.

(** The font size of the branch that does not wrap (lines 618-624). *)
Definition shrink (fontSize maxWidth : Q) (text : string) : Q :=
  let width := measureText fontSize text in
  if Qltb maxWidth width
  then inject_Z (Qfloor (fontSize * (maxWidth / width)))
  else fontSize.

Definition drawText (text : string) (y maxWidth fontSize : Q)
    (shouldWrap : bool) : Drawn :=
  if shouldWrap then
    let lines := wrap fontSize maxWidth text in
    let lineHeight := (fontSize * 1.35)%Q in
    mkDrawn
      (imap (fun i line =>
               (line, fontSize,
                y - inject_Z (Z.of_nat (length lines - 1 - i)) * lineHeight)%Q)
         lines)
      (inject_Z (Z.of_nat (length lines)) * lineHeight)%Q
  else
    let currentFontSize := shrink fontSize maxWidth text in
    mkDrawn [(text, currentFontSize, y)] (currentFontSize * 1.3)%Q.

End Canvas.

(** Strings put end to end. *)
Definition put_together (lines : list string) : string :=
  foldr String.append "" lines.

(** A line of the wrapping branch that holds one word only. *)
Definition one_word (words : list string) (line : string) : Prop :=
  exists word, In word words /\ line = word ++ " ".

(** *** The captions of the preview and of the export *)

(** A caption on screen: its text, its colour and its font size in
    pixels. *)
Record Caption : Type := mkCaption {
  caption_text : string;
  caption_color : string;
  caption_size : Q
}.

(** [SubtitleOverlay] (SubtitleOverlay.tsx 10-59): the distance of the
    block from the bottom of the player, in percent of its height, and the
    captions of the block from top to bottom; [None] when the component
    renders nothing. *)
Definition SubtitleOverlay (activeSubtitle : option SubtitleSegment)
    (viewMode : SubtitleViewMode) (style : SubtitleStyle)
  : option (Z * list Caption) :=
  match activeSubtitle with
  | None => None
  | Some sub =>
      match viewMode with
      | off => None
      | _ =>
          Some (verticalPosition style,
                (match viewMode with
                 | dual | en =>
                     [mkCaption (english sub) (enColor style)
                        (inject_Z (enSize style))]
                 | _ => []
                 end
                 ++ match viewMode with
                    | dual | cn =>
                        [mkCaption (chinese sub) (cnColor style)
                           (inject_Z (cnSize style))]
                    | _ => []
                    end)%list)
      end
  end.

(** The font families of the two calls: the first has its name in double
    quotes. *)
Definition chinese_family : string :=
  String quote ("Microsoft YaHei" ++ String quote ", sans-serif").

Definition english_family : string := "Inter, sans-serif".

(** A call of [drawText] from [drawFrame]: the caption and the font family
    it is given, the baseline it is given, and what it draws. *)
Record TextCall : Type := mkTextCall {
  asked : Caption;
  fontFamily : string;
  baseline : Q;
  drawn : Drawn
}.

(** What a call of [drawText] for [text], in [size] on the baseline [y],
    has burned in.  The strings drawn, put end to end, are the text, with
    a space after it where it was wrapped.  Every string is drawn on a
    baseline at or above [y], and in the size asked unless it is the only
    string and measures more than [maxWidth] in the size asked: it is then
    drawn in a size between 0 and the size asked.  The last string is on
    [y] itself, and the height returned is not negative. *)
Definition burned_in (measure : Q -> string -> Q) (maxWidth : Q)
    (text : string) (size y : Q) (d : Drawn) : Prop :=
  (put_together (strings d).*1.*1 = text
   \/ put_together (strings d).*1.*1 = text ++ " ")
  /\ Forall (fun s =>
               (s.2 <= y)%Q
               /\ (s.1.2 = size
                   \/ strings d = [s] /\ (maxWidth < measure size text)%Q
                      /\ (0 <= s.1.2 /\ s.1.2 <= size)%Q))
       (strings d)
  /\ (exists s, last (strings d) = Some s /\ (s.2 == y)%Q)
  /\ (0 <= heightUsed d)%Q.

Section Frame.

(** [ctx.measureText(s).width] in bold, by font family and size. *)
Variable measureText : string -> Q -> string -> Q.

(** The captions of one frame of the export (lines 646-647 and 661-680),
    on a canvas of the given size: the calls of [drawText] in the order
    they are made. *)
Definition drawFrame_captions (width height : Z) (time : Q)
    (subtitles : list SubtitleSegment) (viewMode : SubtitleViewMode)
    (subStyle : SubtitleStyle) : list TextCall :=
  match List.find (fun s => Qleb (startTime s) time && Qleb time (endTime s))
          subtitles with
  | None => []
  | Some sub =>
      match viewMode with
      | off => []
      | _ =>
          let fontScale := (inject_Z width / 1280)%Q in
          let maxWidth := (inject_Z width * 0.9)%Q in
          let bottomBaseY :=
            (inject_Z height
             * (1 - inject_Z (verticalPosition subStyle) / 100))%Q in
          let chinese_call :=
            match viewMode with
            | dual | cn =>
                let size := (inject_Z (cnSize subStyle) * fontScale * 1.5)%Q in
                Some (mkTextCall
                        (mkCaption (chinese sub) (cnColor subStyle) size)
                        chinese_family bottomBaseY
                        (drawText (measureText chinese_family)
                           (chinese sub) bottomBaseY maxWidth size false))
            | _ => None
            end in
          let currentBottomY :=
            match chinese_call with
            | Some call => (bottomBaseY - heightUsed (drawn call))%Q
            | None => bottomBaseY
            end in
          let english_call :=
            match viewMode with
            | dual | en =>
                let y :=
                  match viewMode with
                  | dual => (currentBottomY - 8 * fontScale)%Q
                  | _ => currentBottomY
                  end in
                let size := (inject_Z (enSize subStyle) * fontScale * 1.5)%Q in
                Some (mkTextCall
                        (mkCaption (english sub) (enColor subStyle) size)
                        english_family y
                        (drawText (measureText english_family)
                           (english sub) y maxWidth size true))
            | _ => None
            end in
          (option_list chinese_call ++ option_list english_call)%list
      end
  end.

End Frame.

(** *** Progress and time left ([drawFrame], lines 641-660) *)






(** *** Reading a key back *)

Definition hex_value (c : ascii) : option nat :=
  let code := nat_of_ascii c in
  if (48 <=? code)%nat && (code <=? 57)%nat then Some (code - 48)%nat
  else if (97 <=? code)%nat && (code <=? 102)%nat then Some (code - 87)%nat
  else None.

(** The character a quoted string begins with, and what follows it; [None]
    at the closing quote. *)
Definition unquote_char (s : string) : option (ascii * string) :=
  match s with
  | EmptyString => None
  | String c r =>
      if Ascii.eqb c quote then None
      else if Ascii.eqb c backslash then
        match r with
        | String "b" r' => Some ("008"%char, r')
        | String "t" r' => Some ("009"%char, r')
        | String "n" r' => Some ("010"%char, r')
        | String "f" r' => Some ("012"%char, r')
        | String "r" r' => Some ("013"%char, r')
        | String "u" (String "0" (String "0" (String h (String l r')))) =>
            match hex_value h, hex_value l with
            | Some a, Some b => Some (ascii_of_nat (16 * a + b), r')
            | _, _ => None
            end
        | String e r' =>
            if Ascii.eqb e quote then Some (quote, r')
            else if Ascii.eqb e backslash then Some (backslash, r')
            else None
        | EmptyString => None
        end
      else Some (c, r)
  end.

(** The characters of a printed integer. *)
Definition numeric (c : ascii) : bool :=
  match c with
  | "0" | "1" | "2" | "3" | "4" | "5" | "6" | "7" | "8" | "9" | "-" => true
  | _ => false
  end%char.

Fixpoint all_numeric (s : string) : bool :=
  match s with
  | EmptyString => true
  | String c s' => numeric c && all_numeric s'
  end.

(** *** Concrete inputs *)

Definition ex_style : SubtitleStyle := mkStyle 15 15 "#ffffff" "#facc15" 10.

Definition ex_settings : Settings :=
  mkSettings (Some "blob:video") "clip" Normalize.ex_normalized dual ex_style
    mp4.

(** A runtime that records every type, and a printer of times. *)
Definition ex_isTypeSupported (type : string) : bool := true.

Definition ex_JSON_number (q : Q) : string :=
  JSON_integer (Qnum q) ++ "/" ++ JSON_integer (Zpos (Qden q)).

(** A runtime that records WebM and nothing else. *)
Definition ex_webm_only (type : string) : bool :=
  String.eqb type "video/webm;codecs=vp9,opus"
  || String.eqb type "video/webm;codecs=vp8,opus"
  || String.eqb type "video/webm".

(** A canvas on which every character is 0.6 font sizes wide. *)
Definition ex_measureText (size : Q) (text : string) : Q :=
  size * inject_Z (Z.of_nat (String.length text)) * 0.6.

(** A caption too long for one line in a style of large letters. *)
Definition ex_caption : SubtitleSegment :=
  mkSegment 0 5 "never gonna give you up, never gonna let you down"
    "yong yuan bu hui fang qi ni, yong yuan bu hui rang ni shi wang".

Definition ex_large_style : SubtitleStyle :=
  mkStyle 40 40 "#ffffff" "#facc15" 10.

(** An export of [ex_settings] under way: started, one chunk received. *)
Definition ex_recording : App :=
  dispatch (DataAvailable "chunk")
    (handleExportBurned ex_JSON_number ex_isTypeSupported 1280 720
       (mounted ex_settings)).

(** The export of [ex_recording] completed, and another video loaded with
    the cache it left. *)
Definition ex_finished : App := dispatch Stop (drawFrame_at_end ex_recording).

Definition ex_other_video : App :=
  mkApp
    (mkSettings (Some "blob:other") "clip" Normalize.ex_normalized dual
       ex_style mp4)
    false None (cachedExportRef ex_finished) false false false None [].

End BurnedExport.

(** ** Leaving the application (the main process script in types.ts, and
    [handleConfirmExit] with the exit dialog of App.tsx) *)

Module Shell.

(** The main process and the renderer of its window: the platform, whether
    the application still runs, whether [mainWindow] holds a window, the
    flag [isQuitting], and [showExitModal] in the renderer. *)
Record Desktop : Type := mkDesktop {
  darwin : bool;
  running : bool;
  mainWindow : bool;
  isQuitting : bool;
  showExitModal : bool
}.

(** [app.on('ready', createWindow)] *)
Definition ready (platform_is_darwin : bool) : Desktop :=
  mkDesktop platform_is_darwin true true false false.

(** The window goes: ['closed'] sets [mainWindow] to [null], and
    ['window-all-closed'] quits the application except on macOS. *)
Definition window_closed (d : Desktop) : Desktop :=
  mkDesktop (darwin d) (darwin d && running d) false (isQuitting d) false.

(** [mainWindow.on('close', ...)]: unless the application is quitting the
    event is prevented and the renderer is asked, which shows the dialog. *)
Definition on_close (d : Desktop) : Desktop :=
  if isQuitting d then window_closed d
  else mkDesktop (darwin d) (running d) (mainWindow d) (isQuitting d) true.

(** What the user may do. *)
Inductive Gesture : Type :=
  | CloseWindow   (** the close button of the window *)
  | ConfirmExit   (** the confirm button of the dialog: [handleConfirmExit] *)
  | CancelExit    (** the cancel button of the dialog *)
  | Activate.     (** the dock icon, on macOS *)

Definition gesture (g : Gesture) (d : Desktop) : Desktop :=
  match g with
  | CloseWindow => if mainWindow d then on_close d else d
  | ConfirmExit =>
      if mainWindow d && showExitModal d then
        (* ['app-close-confirm']: [isQuitting = true; mainWindow.close()] *)
        on_close
          (mkDesktop (darwin d) (running d) (mainWindow d) true false)
      else d
  | CancelExit =>
      if mainWindow d && showExitModal d then
        mkDesktop (darwin d) (running d) (mainWindow d) (isQuitting d) false
      else d
  | Activate =>
      if running d && negb (mainWindow d) then
        mkDesktop (darwin d) (running d) true (isQuitting d) false
      else d
  end.

Definition gestures (gs : list Gesture) (d : Desktop) : Desktop :=
  fold_left (fun d g => gesture g d) gs d.

Definition is_confirm (g : Gesture) : bool :=
  match g with ConfirmExit => true | _ => false end.

End Shell.

(** * Properties *)

(** ** Comparisons *)

Lemma Qleb_le x y : Qleb x y = true <-> x <= y.
Proof. unfold Qleb. apply Qle_bool_iff. Qed.

Lemma Qleb_gt x y : Qleb x y = false <-> y < x.
Proof.
  unfold Qleb. rewrite <- not_true_iff_false, Qle_bool_iff.
  split; [apply Qnot_le_lt | apply Qlt_not_le].
Qed.

Lemma Qltb_lt x y : Qltb x y = true <-> x < y.
Proof. unfold Qltb. rewrite negb_true_iff. apply Qleb_gt. Qed.

Lemma Qltb_ge x y : Qltb x y = false <-> y <= x.
Proof. unfold Qltb. rewrite negb_false_iff. apply Qleb_le. Qed.


(** ** Double precision *)

Section DoubleFacts.

Import Double.

Lemma two_power_pos k : 0 < 2 ^ k.
Proof. by apply Qpower_0_lt. Qed.

Lemma two_power_succ k : 2 ^ (k + 1) == 2 * 2 ^ k.
Proof. rewrite Qpower_plus by done. change (2 ^ 1) with 2. ring. Qed.

Lemma two_power_Z n : (0 <= n)%Z -> 2 ^ n == inject_Z (2 ^ n).
Proof. intros Hn. by rewrite Zpower_Qpower. Qed.

Lemma two_power_log2 n :
  (0 < n)%Z ->
  2 ^ Z.log2 n <= inject_Z n /\ inject_Z n < 2 * 2 ^ Z.log2 n.
Proof.
  intros Hn. destruct (Z.log2_spec n Hn) as [Hlo Hhi].
  pose proof (Z.log2_nonneg n) as H0.
  rewrite <- two_power_succ.
  replace (Z.log2 n + 1)%Z with (Z.succ (Z.log2 n)) by lia.
  rewrite !two_power_Z by lia. by rewrite <- Zle_Qle, <- Zlt_Qlt.
Qed.

Lemma exponent_spec x :
  0 < x -> 2 ^ exponent x <= x /\ x < 2 ^ (exponent x + 1).
Proof.
  intros Hx. destruct x as [n d].
  assert (Hn : (0 < n)%Z).
  { unfold Qlt in Hx. cbn in Hx. lia. }
  unfold exponent. cbn [Qnum Qden].
  destruct (two_power_log2 n Hn) as [Ha1 Ha2].
  destruct (two_power_log2 (Z.pos d)) as [Hb1 Hb2]; [done|].
  set (a := Z.log2 n) in *. set (b := Z.log2 (Z.pos d)) in *.
  pose proof (two_power_pos a) as HA. pose proof (two_power_pos b) as HB.
  assert (Hx' : n # d == inject_Z n / inject_Z (Z.pos d)) by apply Qmake_Qdiv.
  assert (HD : 0 < inject_Z (Z.pos d)) by lra.
  assert (Hk : 2 ^ (a - b) == 2 ^ a / 2 ^ b) by (by apply Qpower_minus).
  destruct (Qleb (2 ^ (a - b)) (n # d)) eqn:Hle.
  - apply Qleb_le in Hle. split; [done|].
    rewrite two_power_succ, Hk, Hx'.
    apply Qlt_shift_div_r; [done|].
    assert (E : (2 * (2 ^ a / 2 ^ b) * inject_Z (Z.pos d))
               == (2 * 2 ^ a * (inject_Z (Z.pos d) / 2 ^ b))) by (field; lra).
    rewrite E.
    assert (1 <= inject_Z (Z.pos d) / 2 ^ b)
      by (apply Qle_shift_div_l; lra).
    nra.
  - apply Qleb_gt in Hle. replace (a - b - 1 + 1)%Z with (a - b)%Z by lia.
    split; [|done].
    replace (a - b - 1)%Z with (a - (b + 1))%Z by lia.
    rewrite Qpower_minus by done. rewrite two_power_succ, Hx'.
    apply Qle_shift_div_l; [done|].
    assert (E : (2 ^ a / (2 * 2 ^ b) * inject_Z (Z.pos d))
               == (2 ^ a * (inject_Z (Z.pos d) / (2 * 2 ^ b)))) by (field; lra).
    rewrite E.
    assert (inject_Z (Z.pos d) / (2 * 2 ^ b) <= 1)
      by (apply Qle_shift_div_r; lra).
    nra.
Qed.

Lemma exponent_le x y : 0 < x -> x <= y -> (exponent x <= exponent y)%Z.
Proof.
  intros Hx Hxy.
  destruct (exponent_spec x Hx) as [H1 _].
  destruct (exponent_spec y) as [_ H2]; [lra|].
  assert (H : 2 ^ exponent x < 2 ^ (exponent y + 1)) by lra.
  apply Qpower_lt_compat_l_inv in H; [lia | done].
Qed.

Lemma round_half_even_floor x :
  (Qfloor x <= round_half_even x <= Qfloor x + 1)%Z.
Proof.
  unfold round_half_even. cbv zeta.
  destruct (Qltb _ _); [lia|]. destruct (Qltb _ _); [lia|].
  destruct (Z.even _); lia.
Qed.

Lemma round_half_even_near x :
  x - 0.5 <= inject_Z (round_half_even x)
  /\ inject_Z (round_half_even x) <= x + 0.5.
Proof.
  unfold round_half_even. cbv zeta.
  pose proof (Qfloor_le x) as Hle. pose proof (Qlt_floor x) as Hlt.
  rewrite inject_Z_plus in Hlt. change (inject_Z 1) with 1 in Hlt.
  destruct (Qltb (x - inject_Z (Qfloor x)) 0.5) eqn:H1.
  { apply Qltb_lt in H1. split; lra. }
  apply Qltb_ge in H1.
  destruct (Qltb 0.5 (x - inject_Z (Qfloor x))) eqn:H2.
  { apply Qltb_lt in H2. rewrite inject_Z_plus. change (inject_Z 1) with 1.
    split; lra. }
  apply Qltb_ge in H2.
  destruct (Z.even (Qfloor x)); [split; lra|].
  rewrite inject_Z_plus. change (inject_Z 1) with 1. split; lra.
Qed.

Lemma round_half_even_Z n : round_half_even (inject_Z n) = n.
Proof.
  unfold round_half_even. cbv zeta. rewrite Qfloor_Z.
  assert (H : Qltb (inject_Z n - inject_Z n) 0.5 = true)
    by (apply Qltb_lt; lra).
  by rewrite H.
Qed.

Lemma round_half_even_le x y :
  x <= y -> (round_half_even x <= round_half_even y)%Z.
Proof.
  intros Hxy. pose proof (Qfloor_resp_le x y Hxy) as Hfl.
  destruct (Z.eq_dec (Qfloor x) (Qfloor y)) as [Heq|Hne].
  - unfold round_half_even. cbv zeta. rewrite Heq.
    destruct (Qltb (x - _) 0.5) eqn:Hx1.
    { destruct (Qltb (y - _) 0.5); [lia|].
      destruct (Qltb 0.5 (y - _)); [lia|]. destruct (Z.even _); lia. }
    apply Qltb_ge in Hx1.
    assert (Hy1 : Qltb (y - inject_Z (Qfloor y)) 0.5 = false)
      by (apply Qltb_ge; lra).
    rewrite Hy1.
    destruct (Qltb 0.5 (x - _)) eqn:Hx2.
    { apply Qltb_lt in Hx2.
      assert (Hy2 : Qltb 0.5 (y - inject_Z (Qfloor y)) = true)
        by (apply Qltb_lt; lra).
      rewrite Hy2. lia. }
    destruct (Qltb 0.5 (y - _)); [destruct (Z.even _); lia | lia].
  - pose proof (round_half_even_floor x). pose proof (round_half_even_floor y).
    lia.
Qed.

(** The scaled significand lies between 2^52 and 2^53. *)
Lemma significand_range x :
  0 < x ->
  let ulp := 2 ^ (exponent x - 52) in
  0 < ulp /\ 2 ^ exponent x == inject_Z (2 ^ 52) * ulp
  /\ inject_Z (2 ^ 52) <= x / ulp /\ x / ulp < inject_Z (2 ^ 53).
Proof.
  intros Hx ulp. destruct (exponent_spec x Hx) as [Hlo Hhi].
  pose proof (two_power_pos (exponent x - 52)) as Hulp. fold ulp in Hulp.
  assert (Hk : 2 ^ exponent x == inject_Z (2 ^ 52) * ulp).
  { unfold ulp. rewrite <- (two_power_Z 52) by lia.
    rewrite <- Qpower_plus by done. by replace (52 + (exponent x - 52))%Z
      with (exponent x) by lia. }
  split; [done|]. split; [done|]. split.
  - apply Qle_shift_div_l; [done|]. by rewrite <- Hk.
  - apply Qlt_shift_div_r; [done|].
    rewrite two_power_succ, Hk in Hhi.
    change (inject_Z (2 ^ 53)) with (2 * inject_Z (2 ^ 52)). lra.
Qed.

Lemma round_positive_range x :
  0 < x ->
  2 ^ exponent x <= round_positive x
  /\ round_positive x <= 2 ^ (exponent x + 1).
Proof.
  intros Hx. destruct (significand_range x Hx) as (Hulp & Hk & Hlo & Hhi).
  unfold round_positive. cbv zeta. set (ulp := 2 ^ (exponent x - 52)) in *.
  pose proof (round_half_even_le _ _ Hlo) as H1.
  pose proof (round_half_even_le (x / ulp) (inject_Z (2 ^ 53))) as H2.
  rewrite round_half_even_Z in H1, H2. specialize (H2 ltac:(lra)).
  rewrite Zle_Qle in H1, H2. rewrite two_power_succ, Hk.
  change (inject_Z (2 ^ 53)) with (2 * inject_Z (2 ^ 52)) in H2.
  split; nra.
Qed.

Lemma round_positive_le x y :
  0 < x -> x <= y -> round_positive x <= round_positive y.
Proof.
  intros Hx Hxy. assert (Hy : 0 < y) by lra.
  pose proof (exponent_le x y Hx Hxy) as Hexp.
  destruct (Z.eq_dec (exponent x) (exponent y)) as [Heq|Hne].
  - unfold round_positive. cbv zeta. rewrite Heq.
    pose proof (two_power_pos (exponent y - 52)) as Hulp.
    set (ulp := 2 ^ (exponent y - 52)) in *.
    assert (Hdiv : x / ulp <= y / ulp).
    { apply Qle_shift_div_l; [done|].
      assert (E : x / ulp * ulp == x) by (field; lra). by rewrite E. }
    apply round_half_even_le in Hdiv. rewrite Zle_Qle in Hdiv. nra.
  - destruct (round_positive_range x Hx) as [_ H1].
    destruct (round_positive_range y Hy) as [H2 _].
    assert (H : 2 ^ (exponent x + 1) <= 2 ^ exponent y).
    { apply Qpower_le_compat_l; [lia | done]. }
    lra.
Qed.

Lemma round_positive_pos x : 0 < x -> 0 < round_positive x.
Proof.
  intros Hx. destruct (round_positive_range x Hx) as [H _].
  pose proof (two_power_pos (exponent x)). lra.
Qed.

(** Rounding keeps the order of numbers that are not negative. *)
Lemma binary64_le x y : 0 <= x -> x <= y -> binary64 x <= binary64 y.
Proof.
  intros Hx Hxy. unfold binary64.
  destruct (Qltb 0 x) eqn:H0x.
  - apply Qltb_lt in H0x.
    assert (H0y : Qltb 0 y = true) by (apply Qltb_lt; lra).
    rewrite H0y. by apply round_positive_le.
  - assert (Hx0 : Qltb x 0 = false) by (apply Qltb_ge; lra). rewrite Hx0.
    destruct (Qltb 0 y) eqn:H0y.
    + apply Qltb_lt in H0y. apply Qlt_le_weak. by apply round_positive_pos.
    + assert (Hy0 : Qltb y 0 = false) by (apply Qltb_ge; lra).
      rewrite Hy0. lra.
Qed.

Lemma binary64_nonneg x : 0 <= x -> 0 <= binary64 x.
Proof. intros Hx. by apply (binary64_le 0 x). Qed.

(** Rounding moves a number by at most one part in 2^53. *)
Lemma round_positive_near x :
  0 < x -> Qabs (round_positive x - x) <= x * (1 # 2 ^ 53).
Proof.
  intros Hx. destruct (significand_range x Hx) as (Hulp & Hk & Hlo & Hhi).
  destruct (exponent_spec x Hx) as [Hx1 _].
  unfold round_positive. cbv zeta. set (ulp := 2 ^ (exponent x - 52)) in *.
  destruct (round_half_even_near (x / ulp)) as [Hn1 Hn2].
  set (m := inject_Z (round_half_even (x / ulp))) in *.
  assert (Hxu : x == x / ulp * ulp) by (field; lra).
  set (v := x / ulp) in *.
  change (inject_Z (2 ^ 52)) with 4503599627370496 in *.
  change (1 # 2 ^ 53) with (1 # 9007199254740992).
  apply Qabs_Qle_condition. split; nra.
Qed.

Lemma binary64_near x : Qabs (binary64 x - x) <= Qabs x * (1 # 2 ^ 53).
Proof.
  unfold binary64. destruct (Qltb 0 x) eqn:H0x.
  - apply Qltb_lt in H0x. rewrite (Qabs_pos x) by lra.
    by apply round_positive_near.
  - apply Qltb_ge in H0x. destruct (Qltb x 0) eqn:Hx0.
    + apply Qltb_lt in Hx0. rewrite (Qabs_neg x) by lra.
      pose proof (round_positive_near (- x)) as H. specialize (H ltac:(lra)).
      apply Qabs_Qle_condition in H as [H1 H2].
      apply Qabs_Qle_condition. split; lra.
    + apply Qltb_ge in Hx0.
      assert (Hx : x == 0) by lra. rewrite Hx. vm_compute. discriminate.
Qed.

Lemma nonneg_factor x a : 0 < a -> 0 <= x * a -> 0 <= x.
Proof. intros Ha H. destruct (Qlt_le_dec x 0) as [Hx|Hx]; [nra | done]. Qed.

Lemma binary64_relative x :
  0 <= x ->
  x * (1 - (1 # 2 ^ 53)) <= binary64 x /\ binary64 x <= x * (1 + (1 # 2 ^ 53)).
Proof.
  intros Hx. pose proof (binary64_near x) as H.
  rewrite (Qabs_pos x) in H by done.
  apply Qabs_Qle_condition in H as [H1 H2].
  change (1 # 2 ^ 53) with (1 # 9007199254740992) in *. split; lra.
Qed.

(** Two roundings in a row move a quotient or a product by at most three
    parts in 2^53. *)
Lemma quotient_rounded_twice (c x : Q) :
  0 <= c -> 0 < x ->
  let q := binary64 (c / binary64 x) in
  c / x * (1 - (3 # 2 ^ 53)) <= q /\ q <= c / x * (1 + (3 # 2 ^ 53)).
Proof.
  intros Hc Hx q.
  destruct (binary64_relative x) as [Hr1 Hr2]; [lra|].
  set (r := binary64 x) in *.
  change (1 # 2 ^ 53) with (1 # 9007199254740992) in *.
  assert (Hr : 0 < r) by nra.
  assert (Hy : 0 <= c / r) by (apply Qle_shift_div_l; lra).
  destruct (binary64_relative (c / r) Hy) as [Hq1 Hq2]. fold q in Hq1, Hq2.
  change (1 # 2 ^ 53) with (1 # 9007199254740992) in *.
  change (3 # 2 ^ 53) with (3 # 9007199254740992).
  assert (HE : 0 <= c / x) by (apply Qle_shift_div_l; lra).
  assert (Hyr : c / r * r == c) by (field; lra).
  assert (HEx : c / x * x == c) by (field; lra).
  set (y := c / r) in *. set (E := c / x) in *. clearbody y E q r.
  assert (H1 : y * (1 - (1 # 9007199254740992)) <= E).
  { assert (H : 0 <= (E - y * (1 - (1 # 9007199254740992))) * x) by nra.
    apply nonneg_factor in H; lra. }
  assert (H2 : E <= y * (1 + (1 # 9007199254740992))).
  { assert (H : 0 <= (y * (1 + (1 # 9007199254740992)) - E) * x) by nra.
    apply nonneg_factor in H; lra. }
  split; lra.
Qed.

Lemma product_rounded_twice (c x : Q) :
  0 <= c -> 0 <= x ->
  let q := binary64 (c * binary64 x) in
  c * x * (1 - (3 # 2 ^ 53)) <= q /\ q <= c * x * (1 + (3 # 2 ^ 53)).
Proof.
  intros Hc Hx q.
  destruct (binary64_relative x Hx) as [Hr1 Hr2].
  set (r := binary64 x) in *.
  change (1 # 2 ^ 53) with (1 # 9007199254740992) in *.
  assert (Hr : 0 <= r) by nra.
  assert (Hy : 0 <= c * r) by nra.
  destruct (binary64_relative (c * r) Hy) as [Hq1 Hq2]. fold q in Hq1, Hq2.
  change (1 # 2 ^ 53) with (1 # 9007199254740992) in *.
  change (3 # 2 ^ 53) with (3 # 9007199254740992).
  clearbody q r. split; nra.
Qed.

(** Below 2^53 in magnitude a number and its double sum with 1.5 are
    apart: the sum is above the number, as the exact one is. *)
Lemma binary64_sum_above x : Qabs x < 2 ^ 53 -> x < binary64 (x + 1.5).
Proof.
  intros Hx. change (2 ^ 53) with 9007199254740992 in Hx.
  pose proof (binary64_near (x + 1.5)) as H.
  pose proof (Qabs_triangle x 1.5) as Htri.
  change (Qabs 1.5) with 1.5 in Htri.
  change (1 # 2 ^ 53) with (1 # 9007199254740992) in H.
  apply Qabs_Qle_condition in H as [H _].
  set (m := Qabs (x + 1.5)) in *. clearbody m. lra.
Qed.

End DoubleFacts.


(** ** Normalization *)

Section NormalizeFacts.

Import Normalize.

Implicit Types (σ : Store) (l x y : loc) (a : list loc).

Lemma start_of_set_endTime σ l v x :
  start_of (set_endTime σ l v) x = start_of σ x.
Proof.
  unfold start_of, set_endTime. destruct (decide (l = x)) as [->|Hne].
  - by rewrite lookup_total_insert_eq.
  - by rewrite lookup_total_insert_ne.
Qed.

Lemma end_of_set_endTime_eq σ l v : end_of (set_endTime σ l v) l = v.
Proof. unfold end_of, set_endTime. by rewrite lookup_total_insert_eq. Qed.

Lemma end_of_set_endTime_ne σ l v x :
  l <> x -> end_of (set_endTime σ l v) x = end_of σ x.
Proof.
  intros Hne. unfold end_of, set_endTime. by rewrite lookup_total_insert_ne.
Qed.

Lemma texts_set_endTime σ l v x :
  english (set_endTime σ l v !!! x) = english (σ !!! x)
  /\ chinese (set_endTime σ l v !!! x) = chinese (σ !!! x).
Proof.
  unfold set_endTime. destruct (decide (l = x)) as [->|Hne].
  - by rewrite lookup_total_insert_eq.
  - by rewrite lookup_total_insert_ne.
Qed.

(** The sort rearranges the references and nothing else. *)
Lemma sort_insert_perm σ x a : Permutation (sort_insert σ x a) (x :: a).
Proof.
  induction a as [|y a IH]; simpl; [reflexivity|].
  destruct (Qltb _ _); [|reflexivity].
  rewrite IH. apply perm_swap.
Qed.

Lemma sort_perm σ a : Permutation (sort_by_startTime σ a) a.
Proof.
  induction a as [|x a IH]; simpl; [reflexivity|].
  rewrite sort_insert_perm. by constructor.
Qed.

Lemma sort_insert_sorted σ x a :
  sorted_by_start σ a -> sorted_by_start σ (sort_insert σ x a).
Proof.
  unfold sorted_by_start. induction a as [|y a IH]; simpl; [done|].
  intros Hs. destruct (Qltb (start_of σ y) (start_of σ x)) eqn:Hlt.
  - apply Qltb_lt in Hlt.
    assert (Ha : adjacent (fun x y => start_of σ x <= start_of σ y) a)
      by (destruct a; [done | apply Hs]).
    specialize (IH Ha).
    destruct a as [|z a]; simpl in *.
    + split; [lra | done].
    + destruct (Qltb (start_of σ z) (start_of σ x)).
      * split; [apply Hs | apply IH].
      * split; [lra | apply IH].
  - apply Qltb_ge in Hlt. simpl. split; [done | exact Hs].
Qed.

Lemma sort_sorted σ a : sorted_by_start σ (sort_by_startTime σ a).
Proof.
  induction a as [|x a IH]; simpl; [done|]. by apply sort_insert_sorted.
Qed.

(** A sorted array is its own stable arrangement. *)
Lemma sort_sorted_id σ a : sorted_by_start σ a -> sort_by_startTime σ a = a.
Proof.
  unfold sorted_by_start. induction a as [|x a IH]; simpl; [done|].
  intros Hs. rewrite IH by (destruct a; [done | apply Hs]).
  destruct a as [|y a]; simpl; [done|].
  destruct Hs as [Hxy _]. apply Qltb_ge in Hxy. by rewrite Hxy.
Qed.

Lemma clamp_loop_processed σ a p : (clamp_loop σ a p).2 = p ++ a.
Proof.
  revert σ p. induction a as [|x a IH]; intros σ p; simpl.
  - by rewrite app_nil_r.
  - rewrite IH. by rewrite <- app_assoc.
Qed.

Lemma clamp_loop_id σ a p :
  positive_durations σ a -> clamp_loop σ a p = (σ, p ++ a).
Proof.
  revert p. induction a as [|x a IH]; intros p Hpos; simpl.
  - by rewrite app_nil_r.
  - inversion Hpos as [|? ? Hx Ha]; subst.
    apply Qleb_gt in Hx. rewrite Hx, IH by done. by rewrite <- app_assoc.
Qed.

Lemma trim_loop_id σ a : non_overlapping σ a -> trim_loop σ a = σ.
Proof.
  unfold non_overlapping. induction a as [|x a IH]; simpl; [done|].
  destruct a as [|y a]; [done|]. intros [Hxy Ha].
  apply Qltb_ge in Hxy. rewrite Hxy. by apply IH.
Qed.

Lemma trim_loop_cons σ x y a :
  trim_loop σ (x :: y :: a) = trim_loop (trim_step σ x y) (y :: a).
Proof.
  unfold trim_step. simpl.
  destruct (Qltb (start_of σ y) (end_of σ x)); [|done].
  by destruct (Qltb _ 1).
Qed.

(** The loops write [endTime] and no other field. *)
Lemma same_but_endTime_refl σ : same_but_endTime σ σ.
Proof. by intros x. Qed.

Lemma same_but_endTime_trans σ1 σ2 σ3 :
  same_but_endTime σ1 σ2 -> same_but_endTime σ2 σ3 ->
  same_but_endTime σ1 σ3.
Proof.
  intros H12 H23 x. destruct (H12 x) as (? & ? & ?).
  destruct (H23 x) as (? & ? & ?). repeat split; congruence.
Qed.

Lemma set_endTime_frame σ l v : same_but_endTime σ (set_endTime σ l v).
Proof.
  intros x. unfold set_endTime. destruct (decide (l = x)) as [->|Hne].
  - by rewrite lookup_total_insert_eq.
  - by rewrite lookup_total_insert_ne.
Qed.

Lemma clamp_loop_frame σ a p : same_but_endTime σ (clamp_loop σ a p).1.
Proof.
  revert σ p. induction a as [|y a IH]; intros σ p; simpl.
  - apply same_but_endTime_refl.
  - eapply same_but_endTime_trans; [|apply IH].
    destruct (Qleb _ _);
      [apply set_endTime_frame | apply same_but_endTime_refl].
Qed.

Lemma trim_loop_frame σ a : same_but_endTime σ (trim_loop σ a).
Proof.
  revert σ. induction a as [|y a IH]; intros σ;
    [apply same_but_endTime_refl|].
  destruct a as [|z a]; [apply same_but_endTime_refl|].
  rewrite trim_loop_cons. eapply same_but_endTime_trans; [|apply IH].
  unfold trim_step.
  destruct (Qltb _ _); [apply set_endTime_frame | apply same_but_endTime_refl].
Qed.

Lemma postProcessSubtitles_frame σ a :
  same_but_endTime σ (postProcessSubtitles σ a).1.
Proof.
  unfold postProcessSubtitles.
  destruct (length a =? 0)%nat; [apply same_but_endTime_refl|].
  pose proof (clamp_loop_frame σ (sort_by_startTime σ a) []) as H.
  destruct (clamp_loop σ (sort_by_startTime σ a) []) as [σ1 p].
  eapply same_but_endTime_trans; [exact H | apply trim_loop_frame].
Qed.

(** Neither loop writes a [startTime]. *)
Lemma clamp_loop_start σ a p x :
  start_of (clamp_loop σ a p).1 x = start_of σ x.
Proof.
  revert σ p. induction a as [|y a IH]; intros σ p; simpl; [done|].
  rewrite IH. destruct (Qleb _ _); [apply start_of_set_endTime | done].
Qed.

Lemma trim_loop_start σ a x : start_of (trim_loop σ a) x = start_of σ x.
Proof.
  revert σ. induction a as [|y a IH]; intros σ; simpl; [done|].
  destruct a as [|z a]; [done|]. rewrite IH.
  destruct (Qltb (start_of σ z) (end_of σ y)); [|done].
  destruct (Qltb _ 1); apply start_of_set_endTime.
Qed.

Lemma adjacent_start_ext σ σ' a :
  (forall x, start_of σ' x = start_of σ x) ->
  sorted_by_start σ a -> sorted_by_start σ' a.
Proof.
  intros Heq. unfold sorted_by_start.
  induction a as [|x a IH]; simpl; [done|]. destruct a as [|y a]; [done|].
  intros [Hxy Ha]. split; [by rewrite !Heq | by apply IH].
Qed.

Lemma trim_step_start σ x y z : start_of (trim_step σ x y) z = start_of σ z.
Proof.
  unfold trim_step. destruct (Qltb _ _); [apply start_of_set_endTime | done].
Qed.

Lemma trim_step_end_le σ x y z : end_of (trim_step σ x y) z <= end_of σ z.
Proof.
  unfold trim_step. destruct (Qltb _ _) eqn:Hlt; [|lra].
  apply Qltb_lt in Hlt. destruct (decide (x = z)) as [->|Hne].
  - rewrite end_of_set_endTime_eq. lra.
  - rewrite end_of_set_endTime_ne by done. lra.
Qed.

Lemma trim_step_end_current σ x y :
  end_of (trim_step σ x y) x <= start_of σ y.
Proof.
  unfold trim_step. destruct (Qltb _ _) eqn:Hlt.
  - rewrite end_of_set_endTime_eq. lra.
  - by apply Qltb_ge in Hlt.
Qed.

(** The trim loop only ever lowers an [endTime]. *)
Lemma trim_loop_end_le σ a x : end_of (trim_loop σ a) x <= end_of σ x.
Proof.
  revert σ. induction a as [|y a IH]; intros σ; [simpl; lra|].
  destruct a as [|z a]; [simpl; lra|].
  rewrite trim_loop_cons. specialize (IH (trim_step σ y z)).
  pose proof (trim_step_end_le σ y z x). lra.
Qed.

Lemma trim_loop_end_notin σ a x :
  x ∉ a -> end_of (trim_loop σ a) x = end_of σ x.
Proof.
  revert σ. induction a as [|y a IH]; intros σ Hx; [done|].
  destruct a as [|z a]; [done|].
  apply not_elem_of_cons in Hx as [Hxy Hx].
  rewrite trim_loop_cons, IH by done.
  unfold trim_step. destruct (Qltb _ _); [|done].
  by apply end_of_set_endTime_ne.
Qed.

(** After the trim loop no segment runs into its successor, whatever the
    store and the array were. *)
Lemma trim_loop_non_overlapping σ a : non_overlapping (trim_loop σ a) a.
Proof.
  unfold non_overlapping. revert σ.
  induction a as [|x a IH]; intros σ; [done|].
  destruct a as [|y a]; [done|].
  rewrite trim_loop_cons. split; [|apply IH].
  rewrite trim_loop_start, trim_step_start.
  pose proof (trim_loop_end_le (trim_step σ x y) (y :: a) x).
  pose proof (trim_step_end_current σ x y). lra.
Qed.

Lemma clamp_loop_positive σ a p :
  positive_durations σ p ->
  positive_durations (clamp_loop σ a p).1 (p ++ a).
Proof.
  unfold positive_durations. revert σ p.
  induction a as [|x a IH]; intros σ p Hp; simpl.
  - by rewrite app_nil_r.
  - replace (p ++ x :: a) with ((p ++ [x]) ++ a) by by rewrite <- app_assoc.
    apply IH. destruct (Qleb (end_of σ x) (start_of σ x)) eqn:Hle.
    + apply Forall_app. split.
      * eapply Forall_impl; [exact Hp|]. intros y Hy. simpl in Hy.
        rewrite start_of_set_endTime. destruct (decide (x = y)) as [->|Hne].
        -- rewrite end_of_set_endTime_eq. lra.
        -- by rewrite end_of_set_endTime_ne.
      * constructor; [|constructor].
        rewrite start_of_set_endTime, end_of_set_endTime_eq. lra.
    + apply Qleb_gt in Hle. apply Forall_app. split; [done|].
      by constructor.
Qed.

Lemma trim_loop_nonnegative σ a :
  sorted_by_start σ a -> nonnegative_durations σ a ->
  nonnegative_durations (trim_loop σ a) a.
Proof.
  unfold nonnegative_durations. revert σ.
  induction a as [|x a IH]; intros σ Hs Hn; [constructor|].
  destruct a as [|y a]; [done|].
  rewrite trim_loop_cons. destruct Hs as [Hxy Hs].
  assert (Hn' : Forall (fun z => start_of (trim_step σ x y) z
                                 <= end_of (trim_step σ x y) z)
                  (x :: y :: a)).
  { eapply Forall_impl; [exact Hn|]. intros z Hz. simpl in Hz.
    rewrite trim_step_start. unfold trim_step.
    destruct (Qltb _ _) eqn:Hlt; [|done].
    destruct (decide (x = z)) as [->|Hne].
    - rewrite end_of_set_endTime_eq. done.
    - by rewrite end_of_set_endTime_ne. }
  inversion Hn' as [|? ? Hx' Hrest]; subst.
  assert (Htail : Forall (fun z => start_of (trim_loop (trim_step σ x y)
                                               (y :: a)) z
                            <= end_of (trim_loop (trim_step σ x y) (y :: a)) z)
                    (y :: a)).
  { apply IH; [|done].
    eapply adjacent_start_ext; [|exact Hs]. apply trim_step_start. }
  constructor; [|done].
  destruct (decide (x ∈ y :: a)) as [Hin|Hnotin].
  - rewrite Forall_forall in Htail. by apply Htail.
  - rewrite trim_loop_start, trim_loop_end_notin by done. done.
Qed.

(** What normalization guarantees of every array in every store: the result
    holds the references of the input, sorted, no segment running into the
    next, and no segment ending before it starts. *)
Theorem postProcessSubtitles_invariants σ a :
  let '(σ', r) := postProcessSubtitles σ a in
  Permutation r a /\ sorted_by_start σ' r /\ non_overlapping σ' r
  /\ nonnegative_durations σ' r.
Proof.
  unfold postProcessSubtitles.
  destruct a as [|x a]; [repeat split; constructor|].
  change (length (x :: a) =? 0)%nat with false. cbv iota.
  generalize (sort_sorted σ (x :: a)) (sort_perm σ (x :: a)).
  generalize (sort_by_startTime σ (x :: a)). intros s Hsorted Hperm.
  pose proof (clamp_loop_processed σ s []) as Hp.
  pose proof (clamp_loop_positive σ s [] (Forall_nil_2 _)) as Hpos.
  pose proof (clamp_loop_start σ s []) as Hst.
  destruct (clamp_loop σ s []) as [σ1 p]. cbn [fst snd app] in *. subst p.
  assert (Hs1 : sorted_by_start σ1 s).
  { eapply adjacent_start_ext; [exact Hst | exact Hsorted]. }
  split; [exact Hperm|]. split; [|split].
  - eapply adjacent_start_ext; [|exact Hs1]. apply trim_loop_start.
  - apply trim_loop_non_overlapping.
  - apply trim_loop_nonnegative; [done|].
    eapply Forall_impl; [exact Hpos|]. intros z Hz. simpl in Hz. lra.
Qed.

(** *** Examples of the specification *)

Example scenario_overlap :
  normalize_fresh ex_overlap
  = [ mkSegment 0 1.5 "A" "a"; mkSegment 1.5 3 "B" "b" ].
Proof. vm_compute. reflexivity. Qed.

Example scenario_zero_duration :
  normalize_fresh ex_zero = [ mkSegment 5 6.5 "X" "X" ].
Proof. vm_compute. reflexivity. Qed.

(** *** C1 *)

(** C1.  The claim is that every normalized output is sorted, free of
    overlap and has [endTime > startTime] throughout.  The first two hold of
    every input ([postProcessSubtitles_invariants]).  The third does not: on
    two segments that start together the trim pass cuts the first down to
    its own start, after the clamp has run, and nothing checks the duration
    again.  This is the evaluation at that input. *)
Theorem postProcessSubtitles_zero_duration :
  let '(σ, a) := alloc ex_same_start in
  let '(σ', r) := postProcessSubtitles σ a in
  contents σ' r = [ mkSegment 0 0 "A" "a"; mkSegment 0 3 "B" "b" ]
  /\ sorted_by_start σ' r /\ non_overlapping σ' r
  /\ ~ positive_durations σ' r.
Proof.
  vm_compute. repeat split; try discriminate.
  intros H. inversion H as [|? ? Hx _]. vm_compute in Hx. discriminate.
Qed.

(** The boolean check decides the invariant. *)
Lemma adjacentb_spec (r : loc -> loc -> bool) (R : loc -> loc -> Prop) a :
  (forall x y, r x y = true <-> R x y) ->
  adjacentb r a = true <-> adjacent R a.
Proof.
  intros Hr. induction a as [|x a IH]; [done|].
  destruct a as [|y a]; [done|].
  cbn [adjacentb adjacent]. by rewrite andb_true_iff, Hr, IH.
Qed.

Lemma normalizedb_spec σ a : normalizedb σ a = true <-> normalized σ a.
Proof.
  unfold normalizedb, normalized, sorted_by_start, non_overlapping,
    positive_durations.
  rewrite !andb_true_iff.
  rewrite (adjacentb_spec _ (fun x y => start_of σ x <= start_of σ y))
    by (intros; apply Qleb_le).
  rewrite (adjacentb_spec _ (fun x y => end_of σ x <= start_of σ y))
    by (intros; apply Qleb_le).
  rewrite forallb_forall, List.Forall_forall.
  split.
  - intros [[Hs Ho] Hp]. split; [done|]. split; [done|].
    intros x Hx. apply Qltb_lt. by apply Hp.
  - intros (Hs & Ho & Hp). split; [done|].
    intros x Hx. apply Qltb_lt. by apply Hp.
Qed.

(** *** C5 *)

Lemma postProcessSubtitles_fixed σ a :
  sorted_by_start σ a -> non_overlapping σ a -> positive_durations σ a ->
  postProcessSubtitles σ a = (σ, a).
Proof.
  intros Hs Ho Hp. unfold postProcessSubtitles.
  destruct a as [|x a]; [done|].
  change (length (x :: a) =? 0)%nat with false. cbv iota.
  rewrite sort_sorted_id, clamp_loop_id by done.
  cbn [app]. by rewrite trim_loop_id.
Qed.

(** C5.  Normalization is idempotent: on an array that is already sorted,
    free of overlap and of positive durations, [postProcessSubtitles]
    returns the same references in the same order and leaves the store as
    it found it. *)
Theorem postProcessSubtitles_idempotent σ a :
  normalized σ a -> postProcessSubtitles σ a = (σ, a).
Proof. intros (Hs & Ho & Hp). by apply postProcessSubtitles_fixed. Qed.

(** The three segments of [ex_normalized], freshly allocated, are
    normalized and come back as they are. *)
Lemma postProcessSubtitles_idempotent_witness :
  normalized (alloc ex_normalized).1 (alloc ex_normalized).2
  /\ postProcessSubtitles (alloc ex_normalized).1 (alloc ex_normalized).2
     = ((alloc ex_normalized).1, (alloc ex_normalized).2).
Proof.
  assert (H : normalized (alloc ex_normalized).1 (alloc ex_normalized).2)
    by (apply normalizedb_spec; vm_compute; reflexivity).
  split; [exact H | exact (postProcessSubtitles_idempotent _ _ H)].
Defined.

(** The output of normalization is a fixed point of it whenever it has
    positive durations. *)
Corollary postProcessSubtitles_twice σ a :
  let '(σ', r) := postProcessSubtitles σ a in
  positive_durations σ' r -> postProcessSubtitles σ' r = (σ', r).
Proof.
  pose proof (postProcessSubtitles_invariants σ a) as H.
  destruct (postProcessSubtitles σ a) as [σ' r].
  destruct H as (_ & Hs & Ho & _). intros Hp.
  by apply postProcessSubtitles_fixed.
Qed.

(** *** C9 *)

(** C9.  [postProcessSubtitles] can change its caller's data.  The array it
    returns holds the references of the input array, so both name the same
    objects; the loops write [endTime] through them (and no other field);
    and there are inputs, one for the clamp and one for the trim, whose
    segments read differently through the caller's own array afterwards. *)
Theorem postProcessSubtitles_mutates_input :
  (forall σ a, Permutation (postProcessSubtitles σ a).2 a)
  /\ (forall σ a x,
        let σ' := (postProcessSubtitles σ a).1 in
        startTime (σ' !!! x) = startTime (σ !!! x)
        /\ english (σ' !!! x) = english (σ !!! x)
        /\ chinese (σ' !!! x) = chinese (σ !!! x))
  /\ (let '(σ, a) := alloc ex_zero in
      let σ' := (postProcessSubtitles σ a).1 in
      contents σ a = ex_zero
      /\ contents σ' a = [ mkSegment 5 6.5 "X" "X" ])
  /\ (let '(σ, a) := alloc ex_overlap in
      let σ' := (postProcessSubtitles σ a).1 in
      contents σ a = ex_overlap
      /\ contents σ' a
         = [ mkSegment 0 1.5 "A" "a"; mkSegment 1.5 3 "B" "b" ]).
Proof.
  split; [|split; [|split]].
  - intros σ a. pose proof (postProcessSubtitles_invariants σ a) as H.
    destruct (postProcessSubtitles σ a). apply H.
  - intros σ a x. apply postProcessSubtitles_frame.
  - vm_compute. split; reflexivity.
  - vm_compute. split; reflexivity.
Qed.

End NormalizeFacts.

(** ** Normalization: what it writes and when it normalizes *)

Section NormalizeReach.

Import Normalize.

Implicit Types (σ : Store) (l x y : loc) (a : list loc).

Lemma set_endTime_lookup_ne σ l v x :
  l <> x -> set_endTime σ l v !! x = σ !! x.
Proof. intros Hne. unfold set_endTime. by rewrite lookup_insert_ne. Qed.

Lemma clamp_loop_lookup_notin σ a p x :
  x ∉ a -> (clamp_loop σ a p).1 !! x = σ !! x.
Proof.
  revert σ p. induction a as [|y a IH]; intros σ p Hx; [done|].
  apply not_elem_of_cons in Hx as [Hxy Hx]. cbn [clamp_loop].
  rewrite IH by done. destruct (Qleb _ _); [|done].
  by apply set_endTime_lookup_ne.
Qed.

Lemma trim_loop_lookup_notin σ a x : x ∉ a -> trim_loop σ a !! x = σ !! x.
Proof.
  revert σ. induction a as [|y a IH]; intros σ Hx; [done|].
  destruct a as [|z a]; [done|].
  apply not_elem_of_cons in Hx as [Hxy Hx].
  rewrite trim_loop_cons, IH by done.
  unfold trim_step. destruct (Qltb _ _); [|done].
  by apply set_endTime_lookup_ne.
Qed.


(** X1.  Whatever the store and the array, with or without repeated
    references: the array [postProcessSubtitles] returns is a rearrangement
    of the references it was given, in non-decreasing order of [startTime];
    no segment of it runs past the start of the one that follows; and no
    segment ends before it starts. *)
Theorem normalization_guarantees σ a :
  let '(σ', r) := postProcessSubtitles σ a in
  Permutation r a /\ sorted_by_start σ' r /\ non_overlapping σ' r
  /\ nonnegative_durations σ' r.
Proof. apply postProcessSubtitles_invariants. Qed.


(** X3.  On an array whose start times are already in non-decreasing order
    [postProcessSubtitles] returns the references in the order given: the
    sort is stable, and segments that start together are not swapped. *)
Theorem normalization_keeps_order σ a :
  sorted_by_start σ a -> (postProcessSubtitles σ a).2 = a.
Proof.
  intros Hs. unfold postProcessSubtitles.
  destruct a as [|y a]; cbn [length Nat.eqb snd]; [done|].
  rewrite sort_sorted_id by done.
  pose proof (clamp_loop_processed σ (y :: a) []) as Hp.
  by destruct (clamp_loop _ _ _).
Qed.

Lemma normalization_keeps_order_witness :
  sorted_by_start (alloc ex_same_start).1 (alloc ex_same_start).2
  /\ (postProcessSubtitles (alloc ex_same_start).1 (alloc ex_same_start).2).2
     = (alloc ex_same_start).2.
Proof.
  assert (H : sorted_by_start (alloc ex_same_start).1 (alloc ex_same_start).2).
  { vm_compute. split; [discriminate | exact I]. }
  split; [exact H | exact (normalization_keeps_order _ _ H)].
Defined.

(** *** Distinct start times *)

Lemma distinct_starts_perm σ a b :
  Permutation a b -> distinct_starts σ a -> distinct_starts σ b.
Proof.
  induction 1 as [|x a b Hp IH|x y a|a b c Hab IHab Hbc IHbc]; cbn.
  - done.
  - intros [Hx Ha]. split; [by rewrite <- Hp | by apply IH].
  - intros [Hy [Hx Ha]].
    apply Forall_cons in Hy as [Hyx Hy].
    split; [|done]. constructor; [|done].
    intros Heq. apply Hyx. by symmetry.
  - auto.
Qed.

(** In an ordered array without shared start times the start times
    increase strictly. *)
Lemma sorted_distinct_strict σ a :
  sorted_by_start σ a -> distinct_starts σ a ->
  adjacent (fun x y => start_of σ x < start_of σ y) a.
Proof.
  induction a as [|x a IH]; [done|].
  destruct a as [|y a]; [done|].
  intros [Hxy Hs] [Hx Hd]. split; [|by apply IH].
  apply Forall_cons in Hx as [Hne _].
  apply Qle_lteq in Hxy as [Hlt|Heq]; [done | by destruct Hne].
Qed.

Lemma strict_start_ext σ σ' a :
  (forall x, start_of σ' x = start_of σ x) ->
  adjacent (fun x y => start_of σ x < start_of σ y) a ->
  adjacent (fun x y => start_of σ' x < start_of σ' y) a.
Proof.
  intros Heq. induction a as [|x a IH]; [done|].
  destruct a as [|y a]; [done|].
  intros [Hxy Hs]. split; [by rewrite !Heq | by apply IH].
Qed.

(** Where the start times increase strictly the trim loop leaves every
    duration positive. *)
Lemma trim_loop_positive σ a :
  adjacent (fun x y => start_of σ x < start_of σ y) a ->
  positive_durations σ a -> positive_durations (trim_loop σ a) a.
Proof.
  unfold positive_durations. revert σ.
  induction a as [|x a IH]; intros σ Hs Hn; [constructor|].
  destruct a as [|y a]; [done|].
  rewrite trim_loop_cons. destruct Hs as [Hxy Hs].
  assert (Hn' : Forall (fun z => start_of (trim_step σ x y) z
                                 < end_of (trim_step σ x y) z)
                  (x :: y :: a)).
  { eapply Forall_impl; [exact Hn|]. intros z Hz. simpl in Hz.
    rewrite trim_step_start. unfold trim_step.
    destruct (Qltb _ _) eqn:Hlt; [|done].
    destruct (decide (x = z)) as [->|Hne].
    - rewrite end_of_set_endTime_eq. done.
    - by rewrite end_of_set_endTime_ne. }
  inversion Hn' as [|? ? Hx' Hrest]; subst.
  assert (Htail : Forall (fun z => start_of (trim_loop (trim_step σ x y)
                                               (y :: a)) z
                            < end_of (trim_loop (trim_step σ x y) (y :: a)) z)
                    (y :: a)).
  { apply IH; [|done].
    eapply strict_start_ext; [|exact Hs]. apply trim_step_start. }
  constructor; [|done].
  destruct (decide (x ∈ y :: a)) as [Hin|Hnotin].
  - rewrite Forall_forall in Htail. by apply Htail.
  - rewrite trim_loop_start, trim_loop_end_notin by done. done.
Qed.

(** With distinct start times the output is normalized in full. *)
Lemma distinct_starts_normalized σ a :
  distinct_starts σ a ->
  let '(σ', r) := postProcessSubtitles σ a in normalized σ' r.
Proof.
  intros Hd. pose proof (postProcessSubtitles_invariants σ a) as Hinv.
  unfold postProcessSubtitles in *.
  destruct a as [|x a]; [repeat split; constructor|].
  change (length (x :: a) =? 0)%nat with false in *. cbv iota in *.
  pose proof (sort_sorted σ (x :: a)) as Hsorted.
  pose proof (sort_perm σ (x :: a)) as Hperm.
  assert (Hstrict :
            adjacent (fun x y => start_of σ x < start_of σ y)
              (sort_by_startTime σ (x :: a))).
  { apply sorted_distinct_strict; [done|].
    eapply distinct_starts_perm; [symmetry; exact Hperm | exact Hd]. }
  revert Hinv Hstrict. generalize (sort_by_startTime σ (x :: a)). intros s.
  pose proof (clamp_loop_processed σ s []) as Hp.
  pose proof (clamp_loop_positive σ s [] (Forall_nil_2 _)) as Hpos.
  pose proof (clamp_loop_start σ s []) as Hst.
  destruct (clamp_loop σ s []) as [σ1 p]. cbn [fst snd app] in *. subst p.
  intros (_ & Hs & Ho & _) Hstrict. split; [done|]. split; [done|].
  apply trim_loop_positive; [|done].
  eapply strict_start_ext; [exact Hst | exact Hstrict].
Qed.

(** X4.  When no two segments of the input start at the same time, and
    the start times are below 2^53 in magnitude, the output of
    [postProcessSubtitles] is normalized in full: sorted, free of overlap,
    and every segment ends strictly after it starts.  Within that bound
    the sum [startTime + 1.5] of line 36, which the code computes in
    double precision, is above [startTime] as the exact sum written here
    is; from 2^54 on the double sum is [startTime] itself and the clamp of
    the code leaves a segment of no duration. *)
Theorem normalization_complete σ a :
  distinct_starts σ a ->
  Forall (fun x => Qabs (start_of σ x) < 2 ^ 53) a ->
  let '(σ', r) := postProcessSubtitles σ a in
  normalized σ' r
  /\ Forall (fun x => start_of σ x < Double.binary64 (start_of σ x + 1.5)) a.
Proof.
  intros Hd Hsmall. pose proof (distinct_starts_normalized σ a Hd) as Hn.
  destruct (postProcessSubtitles σ a) as [σ' r]. split; [done|].
  eapply Forall_impl; [exact Hsmall|]. intros x Hx.
  by apply binary64_sum_above.
Qed.

Lemma normalization_complete_witness :
  (distinct_starts (alloc ex_overlap).1 (alloc ex_overlap).2
   /\ Forall (fun x => Qabs (start_of (alloc ex_overlap).1 x) < 2 ^ 53)
        (alloc ex_overlap).2)
  /\ normalized (postProcessSubtitles (alloc ex_overlap).1 (alloc ex_overlap).2).1
       (postProcessSubtitles (alloc ex_overlap).1 (alloc ex_overlap).2).2.
Proof.
  assert (H : distinct_starts (alloc ex_overlap).1 (alloc ex_overlap).2).
  { vm_compute. repeat constructor. discriminate. }
  assert (Hsmall : Forall (fun x => Qabs (start_of (alloc ex_overlap).1 x)
                                    < 2 ^ 53) (alloc ex_overlap).2).
  { repeat constructor. }
  split; [by split|].
  pose proof (normalization_complete _ _ H Hsmall) as Hn.
  destruct (postProcessSubtitles _ _). exact (proj1 Hn).
Defined.

End NormalizeReach.

(** ** The text of the response *)

Section ResponseFacts.

Import Response.

Implicit Types (s p body : Text).

Lemma strip_prefix_app p s : strip_prefix p (p ++ s) = Some s.
Proof.
  induction p as [|c p IH]; [done|]. cbn [app strip_prefix].
  by rewrite N.eqb_refl.
Qed.

Lemma skip_white_app ws s :
  all_white ws -> skip_white (ws ++ s) = skip_white s.
Proof.
  induction 1 as [|c ws Hc Hws IH]; [done|].
  cbn [app skip_white]. by rewrite Hc.
Qed.

Lemma skip_white_bare c s : is_white c = false -> skip_white (c :: s) = c :: s.
Proof. intros H. cbn [skip_white]. by rewrite H. Qed.

Lemma strip_prefix_other c d p s :
  c <> d -> strip_prefix (c :: p) (d :: s) = None.
Proof.
  intros H. cbn [strip_prefix]. apply N.eqb_neq in H. by rewrite H.
Qed.

(** The end of a bare text is where the scan for white space from its end
    stops. *)
Lemma skip_white_rev ws body :
  all_white ws -> bare body ->
  rev (skip_white (rev ws ++ rev body)) = body.
Proof.
  intros Hws (first & last & Hshape & _ & _ & _ & Hlast).
  rewrite skip_white_app; cycle 1.
  { unfold all_white in *. rewrite Forall_forall in *.
    intros c Hc. apply Hws. apply list_elem_of_In.
    apply in_rev. by apply list_elem_of_In. }
  destruct Hshape as [[-> ->]|[middle ->]].
  - cbn [rev app]. by rewrite skip_white_bare.
  - rewrite <- (rev_involutive (first :: middle ++ [last])) at 2. f_equal.
    change (first :: middle ++ [last]) with ((first :: middle) ++ [last]).
    rewrite rev_app_distr. cbn [rev app]. by apply skip_white_bare.
Qed.

(** X5.  Taking a response out of its fence.  A text made of an opening
    fence — three backquotes, with or without the word json — white
    space, a body, white space and three closing backquotes is reduced by
    lines 246-248 to the body and nothing else, whenever the body neither
    starts nor ends with white space and starts with neither a backquote
    nor the letter j; and a text that does not start with three backquotes
    is left as it is. *)
Theorem strip_fence_unwraps ws1 ws2 body :
  all_white ws1 -> all_white ws2 -> bare body ->
  strip_fence (fence_json ++ ws1 ++ body ++ ws2 ++ fence) = body
  /\ strip_fence (fence ++ ws1 ++ body ++ ws2 ++ fence) = body
  /\ strip_fence body = body.
Proof.
  intros H1 H2 Hbare.
  pose proof (skip_white_rev ws2 body H2 Hbare) as Hclose.
  destruct Hbare as (first & last & Hshape & Hfirst & Htick & Hj & Hlast).
  assert (Hhead : exists rest, body = first :: rest).
  { destruct Hshape as [[-> _]|[middle ->]]; by eexists. }
  destruct Hhead as [rest Hbody].
  assert (Hskip : skip_white (ws1 ++ body ++ ws2 ++ fence)
                  = body ++ ws2 ++ fence).
  { rewrite skip_white_app by done. rewrite Hbody. cbn [app].
    by apply skip_white_bare. }
  assert (Hopen : replace_open_fence (body ++ ws2 ++ fence)
                  = body ++ ws2 ++ fence).
  { unfold replace_open_fence, fence. rewrite Hbody. cbn [app].
    by rewrite strip_prefix_other. }
  assert (Hend : replace_close_fence (body ++ ws2 ++ fence) = body).
  { unfold replace_close_fence. rewrite !rev_app_distr, <- !app_assoc.
    by rewrite strip_prefix_app. }
  split; [|split].
  - unfold strip_fence.
    assert (Hstarts : strip_prefix fence
                        (fence_json ++ ws1 ++ body ++ ws2 ++ fence)
                      = Some ([106; 115; 111; 110]%N
                              ++ ws1 ++ body ++ ws2 ++ fence)).
    { unfold fence_json. rewrite <- app_assoc. apply strip_prefix_app. }
    rewrite Hstarts. unfold replace_json_fence.
    by rewrite strip_prefix_app, Hskip, Hopen.
  - unfold strip_fence. rewrite strip_prefix_app.
    assert (Hjson : replace_json_fence (fence ++ ws1 ++ body ++ ws2 ++ fence)
                    = fence ++ ws1 ++ body ++ ws2 ++ fence).
    { unfold replace_json_fence, fence_json, fence. cbn [app strip_prefix].
      rewrite !N.eqb_refl.
      destruct H1 as [|w ws1 Hw Hws1]; cbn [app].
      - rewrite Hbody. cbn [app]. apply N.eqb_neq in Hj.
        rewrite N.eqb_sym. by rewrite Hj.
      - assert (Hw' : (106 =? w)%N = false).
        { apply N.eqb_neq. intros <-. discriminate Hw. }
        by rewrite Hw'. }
    rewrite Hjson. unfold replace_open_fence at 1.
    by rewrite strip_prefix_app, Hskip.
  - unfold strip_fence, fence. rewrite Hbody.
    by rewrite strip_prefix_other.
Qed.

Lemma strip_fence_unwraps_witness :
  (all_white [10%N] /\ bare [91; 49; 93]%N)
  /\ strip_fence ex_fenced = [91; 49; 93]%N.
Proof.
  assert (Hws : all_white [10%N]) by (by repeat constructor).
  assert (Hbare : bare [91; 49; 93]%N).
  { exists 91%N, 93%N. split; [right; by exists [49%N]|]. by repeat split. }
  split; [by split|].
  exact (proj1 (strip_fence_unwraps [10%N] [10%N] [91; 49; 93]%N
                  Hws Hws Hbare)).
Defined.

End ResponseFacts.

(** ** Asking the service *)

Section ServiceFacts.

Import Response Service.

Implicit Types (o : Outside) (calls : list Call).

Lemma count_app which calls1 calls2 :
  count which (calls1 ++ calls2)
  = (count which calls1 + count which calls2)%nat.
Proof. unfold count. by rewrite List.filter_app, length_app. Qed.

(** X6.  The upload is tried three times at most.  The loop of lines
    177-194 calls [ai.files.upload] at least once and at most three times.
    It stops at the first call that resolves, after as many calls as it
    took, and hands on the file of that call; when the first three calls
    are rejected it throws the error of the third; and it never ends
    without either. *)
Theorem upload_tried_three_times o :
  let '(calls, r) := upload_loop o 3 0 in
  (1 <= count is_upload calls <= 3)%nat
  /\ match r with
     | inl e =>
         e = UploadRejected 2 /\ count is_upload calls = 3%nat
         /\ upload o 0 = None /\ upload o 1 = None /\ upload o 2 = None
     | inr (Some st) =>
         exists k,
           (k < 3)%nat /\ upload o k = Some st
           /\ (forall i, (i < k)%nat -> upload o i = None)
           /\ count is_upload calls = S k
     | inr None => False
     end.
Proof.
  cbn [upload_loop Nat.eqb].
  destruct (upload o 0) as [st0|] eqn:H0.
  { cbn. split; [lia|]. exists 0%nat. repeat split; [lia | done | lia]. }
  destruct (upload o 1) as [st1|] eqn:H1.
  { cbn. split; [lia|]. exists 1%nat. split; [lia|]. split; [done|].
    split; [|done]. intros i Hi. by replace i with 0%nat by lia. }
  destruct (upload o 2) as [st2|] eqn:H2.
  { cbn. split; [lia|]. exists 2%nat. split; [lia|]. split; [done|].
    split; [|done]. intros i Hi.
    destruct i as [|[|i]]; [done | done | lia]. }
  cbn. split; [lia | done].
Qed.

(** The polling loop, from poll number [n], over [k] answers that the file
    is being processed and one that it is not. *)
Lemma poll_loop_ends o k : forall n fuel last,
  (forall i, (i < k)%nat -> get o (n + i) = Some PROCESSING) ->
  get o (n + k) = last ->
  last <> Some PROCESSING ->
  (k < fuel)%nat ->
  exists calls r,
    poll_loop o fuel n PROCESSING = Some (calls, r)
    /\ count is_get calls = S k
    /\ count is_delete calls = 0%nat /\ count is_upload calls = 0%nat
    /\ r = match last with Some st => inr st | None => inl (GetRejected (n + k)) end.
Proof.
  induction k as [|k IH]; intros n fuel last Hbusy Hlast Hdone Hfuel.
  - destruct fuel as [|fuel]; [lia|]. cbn [poll_loop].
    rewrite Nat.add_0_r in *. rewrite Hlast.
    destruct last as [st|]; [|by eexists _, _].
    destruct st; try done;
      destruct fuel; cbn; by eexists _, _.
  - destruct fuel as [|fuel]; [lia|]. cbn [poll_loop].
    assert (H0 : get o n = Some PROCESSING).
    { rewrite <- (Nat.add_0_r n). apply Hbusy. lia. }
    rewrite H0.
    destruct (IH (S n) fuel last) as (calls & r & Hrun & Hg & Hd & Hu & Hr).
    + intros i Hi. replace (S n + i)%nat with (n + S i)%nat by lia.
      apply Hbusy. lia.
    + by replace (S n + k)%nat with (n + S k)%nat by lia.
    + done.
    + lia.
    + rewrite Hrun. eexists _, _. split; [reflexivity|].
      rewrite !count_app, Hg, Hd, Hu.
      replace (S n + k)%nat with (n + S k)%nat in Hr by lia. by cbn.
Qed.

Lemma upload_loop_calls o :
  count is_delete (upload_loop o 3 0).1 = 0%nat
  /\ count is_get (upload_loop o 3 0).1 = 0%nat
  /\ (count is_upload (upload_loop o 3 0).1 <= 3)%nat.
Proof.
  cbn [upload_loop Nat.eqb].
  destruct (upload o 0); [cbn; lia|].
  destruct (upload o 1); [cbn; lia|].
  destruct (upload o 2); cbn; lia.
Qed.

Lemma poll_loop_calls o fuel : forall n st calls r,
  poll_loop o fuel n st = Some (calls, r) ->
  count is_delete calls = 0%nat /\ count is_upload calls = 0%nat.
Proof.
  induction fuel as [|fuel IH]; intros n st calls r Hrun.
  - destruct st; cbn in Hrun; by simplify_eq.
  - destruct st; cbn [poll_loop] in Hrun; try by simplify_eq.
    destruct (get o n) as [st'|]; [|by simplify_eq].
    destruct (poll_loop o fuel (S n) st') as [[calls' r']|] eqn:Hrest;
      [|done].
    simplify_eq. destruct (IH _ _ _ _ Hrest) as [Hd Hu].
    rewrite !count_app, Hd, Hu. by cbn.
Qed.

(** X7.  The run returns once the file is processed.  If the answers to
    the first [k] polls are that the file is being processed and the next
    poll says otherwise or is rejected, a run with room for more than [k]
    polls ends, whatever the size of the file and the other answers: with
    the text of the response or a failure thrown, after at most [k + 1]
    polls. *)
Theorem respond_returns o size k fuel :
  (forall i, (i < k)%nat -> get o i = Some PROCESSING) ->
  get o k <> Some PROCESSING ->
  (k < fuel)%nat ->
  exists calls r,
    respond o size fuel = Some (calls, r)
    /\ (count is_get calls <= S k)%nat.
Proof.
  intros Hbusy Hdone Hfuel. unfold respond.
  destruct (size <? INLINE_LIMIT_BYTES)%N.
  { destruct (readAsDataURL o); [destruct (generateContent o)|];
      eexists _, _; (split; [reflexivity | cbn; lia]). }
  destruct (upload_loop_calls o) as (_ & Hg1 & _).
  destruct (upload_loop o 3 0) as [calls1 [e|[st|]]]; cbn [fst] in Hg1;
    [eexists _, _; split; [reflexivity | lia] | |
     eexists _, _; split; [reflexivity | lia]].
  assert (Hpoll : exists calls2 r2,
             poll_loop o fuel 0 st = Some (calls2, r2)
             /\ (count is_get calls2 <= S k)%nat).
  { destruct fuel as [|fuel]; [lia|]. destruct st.
    1, 3, 4: eexists _, _; (split; [reflexivity | cbn; lia]).
    destruct (poll_loop_ends o k 0 (S fuel) (get o k))
      as (calls2 & r2 & Hrun & Hg & _); [done..|].
    exists calls2, r2. split; [done | lia]. }
  destruct Hpoll as (calls2 & r2 & Hrun & Hg2). rewrite Hrun.
  destruct r2 as [e|st2].
  { eexists _, _. split; [reflexivity|]. rewrite count_app. lia. }
  destruct st2, (generateContent o); eexists _, _;
    (split; [reflexivity|]); rewrite ?count_app; cbn; lia.
Qed.

Lemma respond_returns_witness :
  exists calls r,
    respond ex_outside (30 * 1024 * 1024) 5 = Some (calls, r)
    /\ (count is_get calls <= 3)%nat.
Proof.
  assert (Hbusy : forall i, (i < 2)%nat -> get ex_outside i = Some PROCESSING).
  { intros i Hi. destruct i as [|[|i]]; [done | done | lia]. }
  assert (Hdone : get ex_outside 2 <> Some PROCESSING) by discriminate.
  assert (Hfuel : (2 < 5)%nat) by lia.
  exact (respond_returns ex_outside (30 * 1024 * 1024) 2 5 Hbusy Hdone Hfuel).
Defined.

(** X8.  The uploaded file is deleted when, and only when, the service
    has answered.  In every run that ends, [ai.files.delete] is called at
    most once; it is called exactly when the file was too large to be sent
    inline and [generateContent] resolved.  So when the run throws after
    the upload — the processing failed, a poll or the generation was
    rejected — the uploaded file is left on the service.  The upload
    itself is called three times at most. *)
Theorem file_deleted_iff_answered o size fuel calls r :
  respond o size fuel = Some (calls, r) ->
  (count is_delete calls <= 1)%nat
  /\ (count is_delete calls = 1%nat
      <-> (INLINE_LIMIT_BYTES <= size)%N /\ exists text, r = inr text)
  /\ (count is_upload calls <= 3)%nat.
Proof.
  unfold respond. destruct (N.ltb_spec size INLINE_LIMIT_BYTES) as [Hs|Hs].
  { destruct (readAsDataURL o); [destruct (generateContent o)|];
      intros [= <- <-]; cbn; (split; [lia|]); (split; [|lia]);
      (split; [lia | intros [? _]; lia]). }
  destruct (upload_loop_calls o) as (Hd1 & _ & Hu1).
  destruct (upload_loop o 3 0) as [calls1 [e|[st|]]]; cbn [fst] in Hd1, Hu1.
  - intros [= <- <-]. split; [lia|]. split; [|lia].
    split; [lia | by intros [_ [? ?]]].
  - destruct (poll_loop o fuel 0 st) as [[calls2 r2]|] eqn:Hpoll; [|done].
    destruct (poll_loop_calls o fuel 0 st calls2 r2 Hpoll) as [Hd2 Hu2].
    destruct r2 as [e|st2].
    { intros [= <- <-]. rewrite !count_app. split; [lia|]. split; [|lia].
      split; [lia | by intros [_ [? ?]]]. }
    destruct st2, (generateContent o); intros [= <- <-];
      rewrite !count_app; cbn; (split; [lia|]); (split; [|lia]);
      (split; [try lia; by eauto | try (by intros [_ [? ?]]); intros; lia]).
  - intros [= <- <-]. split; [lia|]. split; [|lia].
    split; [lia | by intros [_ [? ?]]].
Qed.

Lemma file_deleted_iff_answered_witness :
  exists calls text,
    respond ex_outside (30 * 1024 * 1024) 5 = Some (calls, inr text)
    /\ count is_delete calls = 1%nat
    /\ (count is_upload calls <= 3)%nat.
Proof.
  eexists _, _. split; [reflexivity|].
  destruct (file_deleted_iff_answered ex_outside (30 * 1024 * 1024) 5 _ _
              eq_refl) as (_ & Hiff & Hup).
  split; [|exact Hup]. apply Hiff. split; [done | by eexists].
Defined.

End ServiceFacts.

(** ** Active-segment lookup *)

Section LocatorFacts.

Import Normalize Locator.

Implicit Types (σ : Store) (subs l pre suf : list loc) (s c : loc) (t : Q).

Lemma bind_Some {A B} (m : Lookup A) (f : A -> Lookup B) a tr b tr' :
  m = Some (a, tr) -> f a = Some (b, tr') -> bind m f = Some (b, tr ++ tr').
Proof. intros -> Hf. simpl. by rewrite Hf. Qed.

Lemma in_bounds_app subs tr tr' :
  in_bounds subs tr -> in_bounds subs tr' -> in_bounds subs (tr ++ tr').
Proof. intros. by apply Forall_app. Qed.

Lemma in_bounds_nil subs : in_bounds subs [].
Proof. constructor. Qed.

(** An element read at an index inside the array. *)
Lemma array_get_middle pre s suf :
  array_get (pre ++ s :: suf) (Z.of_nat (length pre))
  = Some (s, [Z.of_nat (length pre)]).
Proof.
  unfold array_get.
  destruct (Z.ltb_spec (Z.of_nat (length pre)) 0) as [Hneg|_]; [lia|].
  by rewrite Nat2Z.id, list_lookup_middle.
Qed.

(** The forward loop over the run [l] that follows [pre] is the early-exit
    scan of [l], and reads inside the array only. *)
Lemma forward_scan_spec σ t pre l rest :
  exists tr,
    forward_scan σ (pre ++ l ++ rest) t (length l) (Z.of_nat (length pre))
    = Some (scan_list true σ t l (Z.of_nat (length pre)), tr)
    /\ in_bounds (pre ++ l ++ rest) tr.
Proof.
  revert pre. induction l as [|s l IH]; intros pre.
  - exists []. split; [done | constructor].
  - destruct (IH (pre ++ [s])) as (tr & Hrun & Hb).
    rewrite <- !app_assoc in Hrun, Hb. cbn [app] in Hrun, Hb.
    rewrite length_app, Nat2Z.inj_add in Hrun. cbn [length] in Hrun.
    change (Z.of_nat 1) with 1%Z in Hrun.
    cbn [forward_scan scan_list app length].
    assert (Hguard : (Z.of_nat (length pre)
                      <? Z.of_nat (length (pre ++ s :: l ++ rest)))%Z = true)
      by (apply Z.ltb_lt; rewrite length_app; cbn [length]; lia).
    rewrite Hguard. unfold bind at 1.
    rewrite (array_get_middle pre s (l ++ rest)).
    assert (Hhere : in_bounds (pre ++ s :: l ++ rest) [Z.of_nat (length pre)]).
    { constructor; [|constructor]. rewrite length_app. cbn [length]. lia. }
    destruct (contains σ s t); [by eexists|].
    cbn [andb]. destruct (Qltb t (start_of σ s)); [by eexists|].
    rewrite Hrun. eexists. split; [reflexivity|]. by apply in_bounds_app.
Qed.

Lemma backward_scan_spec σ t pre l rest :
  exists tr,
    backward_scan σ (pre ++ l ++ rest) t (Z.of_nat (length (pre ++ l)))
      (length l) (Z.of_nat (length pre))
    = Some (scan_list false σ t l (Z.of_nat (length pre)), tr)
    /\ in_bounds (pre ++ l ++ rest) tr.
Proof.
  revert pre. induction l as [|s l IH]; intros pre.
  - exists []. split; [done | constructor].
  - destruct (IH (pre ++ [s])) as (tr & Hrun & Hb).
    replace ((pre ++ [s]) ++ l ++ rest) with (pre ++ s :: l ++ rest)
      in Hrun, Hb by (by rewrite <- app_assoc).
    replace ((pre ++ [s]) ++ l) with (pre ++ s :: l)
      in Hrun by (by rewrite <- app_assoc).
    rewrite (length_app pre [s]), Nat2Z.inj_add in Hrun.
    cbn [length] in Hrun. change (Z.of_nat 1) with 1%Z in Hrun.
    cbn [backward_scan scan_list app length].
    assert (Hguard : (Z.of_nat (length pre)
                      <? Z.of_nat (length (pre ++ s :: l)))%Z = true)
      by (apply Z.ltb_lt; rewrite length_app; cbn [length]; lia).
    rewrite Hguard. unfold bind at 1.
    rewrite (array_get_middle pre s (l ++ rest)).
    assert (Hhere : in_bounds (pre ++ s :: l ++ rest) [Z.of_nat (length pre)]).
    { constructor; [|constructor]. rewrite length_app. cbn [length]. lia. }
    destruct (contains σ s t); [by eexists|].
    cbn [andb]. rewrite Hrun. eexists. split; [reflexivity|].
    by apply in_bounds_app.
Qed.

(** [scan], from any index below the length of the array, returns, reads
    inside the array only, and finds what [scan_lists] finds. *)
Lemma scan_spec σ subs t index :
  (index < Z.of_nat (length subs))%Z ->
  exists tr,
    scan σ subs t index
    = Some (scan_lists σ subs t (Z.to_nat (Z.max 0 index)), tr)
    /\ in_bounds subs tr.
Proof.
  intros Hlt. unfold scan, scan_lists.
  set (k := Z.to_nat (Z.max 0 index)).
  assert (Hk : Z.max 0 index = Z.of_nat k) by (unfold k; lia).
  assert (Hkn : (k <= length subs)%nat) by lia.
  rewrite Hk.
  destruct (forward_scan_spec σ t (take k subs) (drop k subs) [])
    as (tr1 & Hf & Hb1).
  rewrite app_nil_r, take_drop in Hf, Hb1.
  rewrite length_take, length_drop, Nat.min_l in Hf by done.
  replace (Z.to_nat (Z.of_nat (length subs) - Z.of_nat k))
    with (length subs - k)%nat by lia.
  destruct (scan_list true σ t (drop k subs) (Z.of_nat k)) as [[s i]|].
  { eexists. split; [eapply bind_Some; [exact Hf | reflexivity]|].
    by apply in_bounds_app; [|constructor]. }
  destruct (0 <? Z.of_nat k)%Z.
  - destruct (backward_scan_spec σ t [] (take k subs) (drop k subs))
      as (tr2 & Hbk & Hb2).
    cbn [app length] in Hbk, Hb2. rewrite take_drop in Hbk, Hb2.
    rewrite length_take, Nat.min_l in Hbk by done.
    replace (Z.min (Z.of_nat k) (Z.of_nat (length subs)))
      with (Z.of_nat k) by lia.
    rewrite Nat2Z.id.
    change (Z.of_nat 0) with 0%Z in Hbk.
    destruct (scan_list false σ t (take k subs) 0) as [[s i]|].
    + eexists. split.
      * eapply bind_Some; [exact Hf|].
        eapply bind_Some; [exact Hbk | reflexivity].
      * apply in_bounds_app; [done|]. by apply in_bounds_app; [|constructor].
    + eexists. split.
      * eapply bind_Some; [exact Hf|].
        eapply bind_Some; [exact Hbk | reflexivity].
      * apply in_bounds_app; [done|]. by apply in_bounds_app; [|constructor].
  - eexists. split; [eapply bind_Some; [exact Hf | reflexivity]|].
    by apply in_bounds_app; [|constructor].
Qed.

(** [locate] on an array that has elements. *)
Lemma locate_spec σ subs t index cached :
  subs <> [] ->
  let index' := guarded_index subs index in
  exists tr,
    in_bounds subs tr
    /\ locate σ subs t index cached
       = Some (if cache_valid σ cached t then (cached, index', index')
               else let found :=
                      scan_lists σ subs t (Z.to_nat (Z.max 0 index')) in
                    (found.1, found.2, index'),
               if cache_valid σ cached t then [] else tr).
Proof.
  intros Hne index'. unfold locate.
  assert (Hn : (0 < Z.of_nat (length subs))%Z)
    by (destruct subs; simpl; [done | lia]).
  apply Z.ltb_lt in Hn. rewrite Hn.
  fold (guarded_index subs index). fold index'.
  destruct (scan_spec σ subs t index') as (tr & Hscan & Hb).
  { unfold index', guarded_index.
    destruct (Z.leb_spec (Z.of_nat (length subs)) index); lia. }
  exists tr. split; [done|].
  destruct (cache_valid σ cached t); [done|].
  rewrite Hscan. simpl. by rewrite app_nil_r.
Qed.

(** *** Scans of lists *)

Lemma scan_list_false_Some σ t l i s j :
  scan_list false σ t l i = Some (s, j) ->
  exists pre suf,
    l = pre ++ s :: suf /\ j = (i + Z.of_nat (length pre))%Z
    /\ contains σ s t = true
    /\ Forall (fun x => contains σ x t = false) pre.
Proof.
  revert i. induction l as [|x l IH]; intros i; simpl; [done|].
  destruct (contains σ x t) eqn:Hx.
  - intros [= -> <-]. exists [], l.
    repeat split; [simpl; lia | done | constructor].
  - intros H. destruct (IH _ H) as (pre & suf & -> & -> & Hs & Hpre).
    exists (x :: pre), suf. repeat split; [simpl; lia | done | by constructor].
Qed.

Lemma scan_list_false_None σ t l i :
  scan_list false σ t l i = None
  <-> Forall (fun x => contains σ x t = false) l.
Proof.
  revert i. induction l as [|x l IH]; intros i; simpl.
  - split; [constructor | done].
  - destruct (contains σ x t) eqn:Hx.
    + split; [done|]. intros H. inversion H; congruence.
    + rewrite IH. split; [by constructor | by inversion 1].
Qed.

Lemma linear_scan_found σ t pre s suf :
  Forall (fun x => contains σ x t = false) pre -> contains σ s t = true ->
  linear_scan σ (pre ++ s :: suf) t = Some s.
Proof.
  unfold linear_scan. induction pre as [|x pre IH]; simpl; intros Hpre Hs.
  - by rewrite Hs.
  - inversion Hpre as [|? ? Hx Hpre']; subst. rewrite Hx. by apply IH.
Qed.

Lemma linear_scan_none σ t l :
  Forall (fun x => contains σ x t = false) l -> linear_scan σ l t = None.
Proof.
  unfold linear_scan. induction 1 as [|x l Hx _ IH]; simpl; [done|].
  by rewrite Hx.
Qed.

Lemma sorted_head_le σ x l :
  sorted_by_start σ (x :: l) ->
  Forall (fun y => start_of σ x <= start_of σ y) l.
Proof.
  unfold sorted_by_start. revert x.
  induction l as [|y l IH]; intros x; [constructor|].
  intros [Hxy Hl]. constructor; [done|].
  eapply Forall_impl; [apply IH, Hl|]. intros z Hz. simpl in Hz. lra.
Qed.

Lemma sorted_tail σ x l : sorted_by_start σ (x :: l) -> sorted_by_start σ l.
Proof. destruct l; [done | by intros [_ ?]]. Qed.

(** On a sorted run the early exit loses nothing. *)
Lemma scan_list_early_sorted σ t l i :
  sorted_by_start σ l -> scan_list true σ t l i = scan_list false σ t l i.
Proof.
  revert i. induction l as [|x l IH]; intros i Hs; simpl; [done|].
  destruct (contains σ x t); [done|].
  destruct (Qltb t (start_of σ x)) eqn:Hlt.
  - symmetry. apply scan_list_false_None.
    apply Qltb_lt in Hlt.
    eapply Forall_impl; [apply sorted_head_le, Hs|].
    intros y Hy. simpl in Hy. unfold contains.
    apply andb_false_iff. left. apply Qleb_gt. lra.
  - apply IH. by eapply sorted_tail.
Qed.

(** In a sorted array free of overlap, whatever precedes a segment has
    ended by the time it starts, and the array is sorted from it on. *)
Lemma normalized_split σ pre c suf :
  sorted_by_start σ (pre ++ c :: suf) ->
  non_overlapping σ (pre ++ c :: suf) ->
  Forall (fun s => end_of σ s <= start_of σ c) pre
  /\ sorted_by_start σ (c :: suf).
Proof.
  induction pre as [|x pre IH]; intros Hs Ho; [by split|].
  pose proof (sorted_head_le _ _ _ Hs) as Hle.
  destruct (IH (sorted_tail _ _ _ Hs)) as [Hpre Hsuf].
  { unfold non_overlapping in *. cbn [app] in Ho.
    destruct (pre ++ c :: suf); [done | apply Ho]. }
  split; [|done]. constructor; [|done].
  unfold non_overlapping, sorted_by_start in *. cbn [app] in *.
  destruct pre as [|y pre]; cbn [app] in *.
  - apply Ho.
  - destruct Ho as [Hxy _]. apply sorted_tail in Hs.
    pose proof (sorted_head_le _ _ _ Hs) as Hyc.
    rewrite Forall_app in Hyc. destruct Hyc as [_ Hyc].
    inversion Hyc; subst. lra.
Qed.

Lemma contains_spec σ s t :
  contains σ s t = true <-> start_of σ s <= t /\ t <= end_of σ s.
Proof. unfold contains. by rewrite andb_true_iff, !Qleb_le. Qed.

Lemma contains_false σ s t :
  contains σ s t = false <-> t < start_of σ s \/ end_of σ s < t.
Proof. unfold contains. by rewrite andb_false_iff, !Qleb_gt. Qed.

(** *** One frame of playback *)

Lemma same_ref_eq (a b : option loc) : same_ref a b = true <-> a = b.
Proof.
  destruct a as [x|], b as [y|]; simpl; try (split; congruence).
  rewrite Nat.eqb_eq. split; congruence.
Qed.

(** What a frame shows is what its lookup found: [updateUI] leaves
    [foundSub] cached, and shown if the cached segment was the one shown. *)
Lemma updateUI_shows_found σ subs t p found tr :
  locate σ subs t (activeSubIndexRef p) (activeSubRef p) = Some (found, tr) ->
  exists p',
    updateUI σ subs (set_currentTime t p) = Some (p', tr)
    /\ activeSubRef p' = found.1.1
    /\ (activeSubtitle p = activeSubRef p -> activeSubtitle p' = found.1.1).
Proof.
  intros Hloc. unfold updateUI, set_currentTime.
  cbn [video activeSubIndexRef activeSubRef activeSubtitle isPlaying].
  unfold bind. rewrite Hloc. destruct found as [[foundSub foundIndex] index].
  cbn [fst snd].
  destruct (same_ref foundSub (activeSubRef p)) eqn:Hsame; unfold ret;
    rewrite app_nil_r; eexists; (split; [reflexivity|]);
    cbn [activeSubRef activeSubtitle].
  - apply same_ref_eq in Hsame. split; [done | congruence].
  - by split.
Qed.

Lemma guarded_index_lt subs index :
  (index < Z.of_nat (length subs))%Z -> guarded_index subs index = index.
Proof.
  intros H. unfold guarded_index.
  destruct (Z.leb_spec (Z.of_nat (length subs)) index); [lia | done].
Qed.

Lemma updateUI_tracks σ subs t t' p :
  normalized σ subs -> tracking σ subs t' p -> t' <= t ->
  exists p' tr,
    updateUI σ subs (set_currentTime t p) = Some (p', tr)
    /\ in_bounds subs tr
    /\ activeSubtitle p' = linear_scan σ subs t
    /\ tracking σ subs t p'.
Proof.
  intros (Hs & Ho & Hp) [Hshown Htr] Htt.
  destruct p as [v index cached shown playing]. simpl in Hshown, Htr.
  subst shown.
  unfold updateUI, set_currentTime. cbn [video activeSubIndexRef activeSubRef
    activeSubtitle isPlaying].
  destruct (decide (subs = [])) as [->|Hne].
  { destruct Htr as [[-> ->]|(pre & c & suf & Hsubs & _)];
      [|by destruct pre].
    eexists _, _. split; [reflexivity|]. repeat split; try done.
    - constructor.
    - by left. }
  destruct (locate_spec σ subs t index cached Hne) as (tr & Hb & Hloc).
  cbv zeta in Hloc. unfold bind. rewrite Hloc. clear Hloc.
  destruct Htr as [[-> ->]|(pre & c & suf & Hsubs & -> & -> & Hstart & Hpre)].
  - (* nothing cached: a scan of the whole array *)
    rewrite guarded_index_lt by lia. cbn [cache_valid].
    change (Z.to_nat (Z.max 0 (-1))) with 0%nat.
    unfold scan_lists. rewrite drop_0. change (Z.of_nat 0) with 0%Z.
    change (0 <? 0)%Z with false.
    rewrite scan_list_early_sorted by done.
    destruct (scan_list false σ t subs 0) as [[s i]|] eqn:Hscan.
    + apply scan_list_false_Some in Hscan
        as (pre & suf & -> & -> & Hc & Hpre).
      cbn [fst snd same_ref]. eexists _, _. split; [reflexivity|].
      cbn [activeSubtitle]. split; [by rewrite app_nil_r|].
      split; [by rewrite linear_scan_found|].
      split; [done|]. right. exists pre, s, suf.
      split; [done|]. split; [simpl; lia|]. split; [done|].
      split; [by apply contains_spec in Hc as [? _] | done].
    + apply scan_list_false_None in Hscan.
      cbn [fst snd same_ref]. eexists _, _. split; [reflexivity|].
      cbn [activeSubtitle]. split; [by rewrite app_nil_r|].
      split; [by rewrite linear_scan_none|].
      split; [done|]. by left.
  - (* a segment is cached *)
    subst subs. destruct (normalized_split _ _ _ _ Hs Ho) as [Hends Hsuf].
    rewrite guarded_index_lt by (rewrite length_app; simpl; lia).
    assert (Hc_pos : start_of σ c < end_of σ c).
    { unfold positive_durations in Hp. rewrite Forall_app in Hp.
      destruct Hp as [_ Hp]. by inversion Hp. }
    cbn [cache_valid]. destruct (contains σ c t) eqn:Hc.
    + (* the cached segment still holds the time *)
      assert (Hpre_t : Forall (fun x => contains σ x t = false) pre).
      { rewrite Forall_forall in Hpre, Hends. apply Forall_forall.
        intros x Hx. specialize (Hpre x Hx). specialize (Hends x Hx).
        destruct (contains σ x t) eqn:Hxt; [|done].
        apply contains_spec in Hxt. apply contains_false in Hpre. lra. }
      cbn [same_ref]. rewrite Nat.eqb_refl.
      eexists _, _. split; [reflexivity|]. cbn [activeSubtitle].
      split; [constructor|]. split; [by rewrite linear_scan_found|].
      split; [done|]. right. exists pre, c, suf.
      split; [done|]. split; [done|]. split; [done|].
      split; [by apply contains_spec in Hc as [? _] | done].
    + (* the time has left the cached segment *)
      assert (Hpre_t : Forall (fun x => contains σ x t = false) pre).
      { rewrite Forall_forall in Hends. apply Forall_forall.
        intros x Hx. specialize (Hends x Hx).
        apply contains_false. apply contains_false in Hc. lra. }
      replace (Z.to_nat (Z.max 0 (Z.of_nat (length pre)))) with (length pre)
        by lia.
      unfold scan_lists. rewrite drop_app_length, take_app_length.
      rewrite scan_list_early_sorted by done.
      destruct (scan_list false σ t (c :: suf) (Z.of_nat (length pre)))
        as [[s i]|] eqn:Hscan.
      * apply scan_list_false_Some in Hscan
          as (pre2 & suf2 & Heq & -> & Hst & Hpre2).
        cbn [fst snd same_ref].
        assert (Hsc : (s =? c)%nat = false).
        { apply Nat.eqb_neq. intros ->. congruence. }
        rewrite Hsc. eexists _, _. split; [reflexivity|].
        cbn [activeSubtitle]. split; [by rewrite app_nil_r|].
        rewrite Heq, app_assoc.
        split;
          [rewrite linear_scan_found; [done | by apply Forall_app | done]|].
        split; [done|]. right. exists (pre ++ pre2), s, suf2.
        split; [done|].
        split; [cbn [activeSubIndexRef]; rewrite length_app; lia|].
        split; [done|].
        split; [by apply contains_spec in Hst as [? _] | by apply Forall_app].
      * apply scan_list_false_None in Hscan.
        assert (Hback : scan_list false σ t pre 0 = None)
          by by apply scan_list_false_None.
        rewrite Hback.
        assert (Hfound : (if (0 <? Z.of_nat (length pre))%Z
                          then (None, (-1)%Z) else (None, (-1)%Z))
                         = (@None loc, (-1)%Z)) by by destruct (0 <? _)%Z.
        rewrite Hfound. cbn [fst snd same_ref].
        eexists _, _. split; [reflexivity|]. cbn [activeSubtitle].
        split; [by rewrite app_nil_r|].
        split; [rewrite linear_scan_none; [done | by apply Forall_app]|].
        split; [done|]. by left.
Qed.

(** *** What the reference scan returns *)

Lemma linear_scan_Some σ subs t s :
  linear_scan σ subs t = Some s ->
  exists pre suf,
    subs = pre ++ s :: suf /\ contains σ s t = true
    /\ Forall (fun x => contains σ x t = false) pre.
Proof.
  unfold linear_scan. induction subs as [|x subs IH]; simpl; [done|].
  destruct (contains σ x t) eqn:Hx.
  - intros [= ->]. exists [], subs. repeat split; [done | constructor].
  - intros H. destruct (IH H) as (pre & suf & -> & Hs & Hpre).
    exists (x :: pre), suf. repeat split; [done | by constructor].
Qed.

Lemma linear_scan_None σ subs t :
  linear_scan σ subs t = None ->
  Forall (fun x => contains σ x t = false) subs.
Proof.
  unfold linear_scan. induction subs as [|x subs IH]; simpl; [constructor|].
  destruct (contains σ x t) eqn:Hx; [done|]. intros H. constructor; auto.
Qed.

Lemma after_head σ c suf :
  sorted_by_start σ (c :: suf) -> non_overlapping σ (c :: suf) ->
  Forall (fun y => end_of σ c <= start_of σ y) suf.
Proof.
  intros Hs Ho. destruct suf as [|y suf]; [constructor|].
  destruct Ho as [Hcy _]. apply sorted_tail in Hs.
  constructor; [done|].
  eapply Forall_impl; [apply sorted_head_le, Hs|].
  intros z Hz. simpl in Hz. lra.
Qed.

(** The segment the reference scan returns is a segment of the array that
    holds the time, and the only one, but for a successor that begins at
    the very instant the time reads; when it returns none, none holds the
    time. *)
Lemma linear_scan_unique σ subs t :
  normalized σ subs ->
  match linear_scan σ subs t with
  | Some s =>
      s ∈ subs /\ contains σ s t = true
      /\ forall s', s' ∈ subs -> contains σ s' t = true ->
                    s' = s \/ t == start_of σ s'
  | None => forall s, s ∈ subs -> contains σ s t = false
  end.
Proof.
  intros (Hs & Ho & Hp).
  destruct (linear_scan σ subs t) as [s|] eqn:Hscan.
  - apply linear_scan_Some in Hscan as (pre & suf & -> & Hc & Hpre).
    split; [set_solver|]. split; [done|]. intros s' Hin Hc'.
    apply elem_of_app in Hin as [Hin|Hin].
    { rewrite Forall_forall in Hpre. specialize (Hpre s' Hin). congruence. }
    apply elem_of_cons in Hin as [->|Hin]; [by left|]. right.
    destruct (normalized_split _ _ _ _ Hs Ho) as [_ Hsuf].
    assert (Ho' : non_overlapping σ (s :: suf)).
    { clear -Ho. induction pre as [|x pre IH]; [done|]. apply IH.
      unfold non_overlapping in *. cbn [app] in Ho.
      destruct (pre ++ s :: suf); [done | apply Ho]. }
    pose proof (after_head _ _ _ Hsuf Ho') as Hafter.
    rewrite Forall_forall in Hafter. specialize (Hafter s' Hin).
    apply contains_spec in Hc, Hc'. apply Qle_antisym; lra.
  - apply linear_scan_None in Hscan. rewrite Forall_forall in Hscan.
    intros s Hin. by apply Hscan.
Qed.

(** *** C4 *)

Lemma tracking_initial σ subs t' v : tracking σ subs t' (initial v).
Proof. split; [done | by left]. Qed.

Lemma play_tracks σ subs times :
  normalized σ subs ->
  forall t' p,
    tracking σ subs t' p -> Sorted Qle (t' :: times) ->
    exists tr,
      play σ subs p times = Some (map (linear_scan σ subs) times, tr)
      /\ in_bounds subs tr.
Proof.
  intros Hn. induction times as [|t times IH]; intros t' p Htr Hsorted.
  - exists []. split; [done | constructor].
  - apply Sorted_inv in Hsorted as [Hsorted Hhd].
    apply HdRel_inv in Hhd.
    destruct (updateUI_tracks σ subs t t' p Hn Htr Hhd)
      as (p' & tr1 & Hstep & Hb1 & Hshown & Htr').
    destruct (IH t p' Htr' Hsorted) as (tr2 & Hrest & Hb2).
    exists (tr1 ++ tr2 ++ []). split.
    + cbn [play map]. eapply bind_Some; [exact Hstep|].
      eapply bind_Some; [exact Hrest|]. by rewrite Hshown.
    + apply Forall_app. split; [done|]. by rewrite app_nil_r.
Qed.

Lemma ex_normalized_is_normalized : normalized ex_store ex_subtitles.
Proof. apply normalizedb_spec. vm_compute. reflexivity. Qed.

(** C4, as claimed: the segment the lookup returns would be the unique
    segment that holds the time.  It need not be the only one: a segment
    holds its [startTime] and its [endTime] alike, so the time at which one
    segment of a normalized array ends and the next begins is held by
    both.  At 1.5 in [ex_normalized] the first and the second segment both
    hold the time; the scan and the lookup return the first. *)
Lemma shared_boundary_in_two_segments :
  normalized ex_store ex_subtitles
  /\ ex_subtitles = [0; 1; 2]%nat
  /\ contains ex_store 0%nat 1.5 = true
  /\ contains ex_store 1%nat 1.5 = true
  /\ linear_scan ex_store ex_subtitles 1.5 = Some 0%nat
  /\ exists tr,
       play ex_store ex_subtitles (initial (Some 0)) [1.5]
       = Some ([Some 0%nat], tr).
Proof.
  split; [apply ex_normalized_is_normalized|].
  split; [reflexivity|]. split; [vm_compute; reflexivity|].
  split; [vm_compute; reflexivity|]. split; [vm_compute; reflexivity|].
  eexists. vm_compute. reflexivity.
Qed.

(** C4, amended.  Over a normalized array, playback from the state the
    component starts in, with the clock reading a non-decreasing sequence
    of times, shows after each frame exactly the segment a linear scan of
    the array returns at that time, the first that holds it, and every
    read stays inside the array.  That segment holds the time and is the
    only one to do so, unless the time is the very instant at which a later
    segment begins. *)
Theorem playback_matches_linear_scan σ subs times v :
  normalized σ subs -> Sorted Qle times ->
  (exists tr,
     play σ subs (initial v) times
     = Some (map (linear_scan σ subs) times, tr)
     /\ in_bounds subs tr)
  /\ (forall t,
        match linear_scan σ subs t with
        | Some s =>
            s ∈ subs /\ contains σ s t = true
            /\ forall s', s' ∈ subs -> contains σ s' t = true ->
                          s' = s \/ t == start_of σ s'
        | None => forall s, s ∈ subs -> contains σ s t = false
        end).
Proof.
  intros Hn Hsorted. split; [|intros t; by apply linear_scan_unique].
  destruct times as [|t times].
  - exists []. split; [done | constructor].
  - apply (play_tracks σ subs (t :: times) Hn t (initial v)).
    + apply tracking_initial.
    + constructor; [done|]. constructor. apply Qle_refl.
Qed.

(** The same holds of playback that resumes after a change of source. *)
Lemma playback_after_source_change σ subs times p :
  normalized σ subs -> Sorted Qle times ->
  exists tr,
    play σ subs (videoUrl_effect p) times
    = Some (map (linear_scan σ subs) times, tr)
    /\ in_bounds subs tr.
Proof.
  intros Hn Hsorted. destruct times as [|t times].
  - exists []. split; [done | constructor].
  - apply (play_tracks σ subs (t :: times) Hn t (videoUrl_effect p)).
    + split; [done | by left].
    + constructor; [done|]. constructor. apply Qle_refl.
Qed.

(** Playback of [ex_normalized] over [ex_times]: the first segment up to
    its end at 1.5, which the second shares, then the second, the gap, the
    third, and nothing after its end. *)
Lemma playback_matches_linear_scan_witness :
  exists tr,
    play ex_store ex_subtitles (initial (Some 0)) ex_times
    = Some ([Some 0; Some 0; Some 0; Some 1; None; Some 2; None]%nat, tr).
Proof.
  assert (Hs : Sorted Qle ex_times).
  { repeat constructor; vm_compute; discriminate. }
  destruct (playback_matches_linear_scan ex_store ex_subtitles ex_times
              (Some 0) ex_normalized_is_normalized Hs) as [(tr & H & _) _].
  exists tr. exact H.
Defined.

(** *** C10 *)

Lemma locate_total σ subs t index cached :
  exists r tr,
    locate σ subs t index cached = Some (r, tr) /\ in_bounds subs tr.
Proof.
  destruct (decide (subs = [])) as [->|Hne].
  - eexists _, _. split; [reflexivity | constructor].
  - destruct (locate_spec σ subs t index cached Hne) as (tr & Hb & Hloc).
    cbv zeta in Hloc. eexists _, _. split; [exact Hloc|].
    destruct (cache_valid σ cached t); [constructor | done].
Qed.

(** C10.  Every array read of the lookup is inside the array: [updateUI]
    and the lookup in it return (an element read out of range would make
    them throw) with a trace of indices between 0 and the length, for every
    store, array, state and time; on the empty array the lookup returns
    none after no read at all; and an index at or beyond the length of a
    non-empty array is treated exactly as -1. *)
Theorem lookup_in_bounds :
  (forall σ subs p,
     exists p' tr, updateUI σ subs p = Some (p', tr) /\ in_bounds subs tr)
  /\ (forall σ subs t index cached,
        exists r tr,
          locate σ subs t index cached = Some (r, tr) /\ in_bounds subs tr)
  /\ (forall σ t index cached,
        locate σ [] t index cached = Some ((None, (-1)%Z, index), []))
  /\ (forall σ s subs t cached (beyond : nat),
        locate σ (s :: subs) t (Z.of_nat (length (s :: subs) + beyond)) cached
        = locate σ (s :: subs) t (-1) cached).
Proof.
  split; [|split; [|split]].
  - intros σ subs p. unfold updateUI. destruct (video p) as [t|].
    + destruct (locate_total σ subs t (activeSubIndexRef p) (activeSubRef p))
        as ([[foundSub foundIndex] index] & tr & Hloc & Hb).
      unfold bind. rewrite Hloc.
      destruct (same_ref foundSub (activeSubRef p));
        eexists _, _; (split; [reflexivity | by rewrite app_nil_r]).
    + eexists _, _. split; [reflexivity | constructor].
  - apply locate_total.
  - reflexivity.
  - intros σ s subs t cached beyond. unfold locate.
    assert (Hn : (0 <? Z.of_nat (length (s :: subs)))%Z = true)
      by (apply Z.ltb_lt; simpl; lia).
    rewrite Hn.
    destruct (Z.leb_spec (Z.of_nat (length (s :: subs)))
                (Z.of_nat (length (s :: subs) + beyond))) as [_|Hlt]; [|lia].
    destruct (Z.leb_spec (Z.of_nat (length (s :: subs))) (-1)) as [Hle|_];
      [lia | done].
Qed.

(** *** C3 *)

(** C3, as claimed: after [handleSeek] the cached segment would be none and
    the lookup would scan.  It is not so: a seek inside the cached segment
    keeps the reference and the lookup that follows reads no element of the
    array. *)
Lemma handleSeek_keeps_cached_segment :
  activeSubRef (seek_assign 2.5 ex_player) = Some 1%nat
  /\ handleSeek ex_store ex_subtitles 2.5 ex_player
     = Some (mkPlayer (Some 2.5) (-1) (Some 1%nat) (Some 1%nat) true, []).
Proof. split; [reflexivity | vm_compute; reflexivity]. Qed.

Lemma scan_list_Some_contains early σ t l i s j :
  scan_list early σ t l i = Some (s, j) -> contains σ s t = true.
Proof.
  revert i. induction l as [|x l IH]; intros i; simpl; [done|].
  destruct (contains σ x t) eqn:Hx; [by intros [= <- _]|].
  destruct (early && Qltb t (start_of σ x)); [done | apply IH].
Qed.

(** C3, amended.  A change of source resets both the index and the cached
    segment.  A seek resets the index alone and keeps the cached reference;
    the lookup it then runs on a non-empty array returns the cached segment
    without reading the array if that segment holds the new time, and
    otherwise leaves cached what a scan from index 0 finds. *)
Theorem seek_resets_index_only :
  (forall p,
     activeSubIndexRef (videoUrl_effect p) = (-1)%Z
     /\ activeSubRef (videoUrl_effect p) = None)
  /\ (forall t p,
        activeSubIndexRef (seek_assign t p) = (-1)%Z
        /\ activeSubRef (seek_assign t p) = activeSubRef p)
  /\ (forall σ s subs t v index cached shown playing,
        exists p' tr,
          handleSeek σ (s :: subs) t
            (mkPlayer (Some v) index cached shown playing)
          = Some (p', tr)
          /\ in_bounds (s :: subs) tr
          /\ if cache_valid σ cached t
             then tr = [] /\ activeSubRef p' = cached
                  /\ activeSubIndexRef p' = (-1)%Z
             else activeSubRef p'
                  = option_map fst (scan_list true σ t (s :: subs) 0)).
Proof.
  split; [done|]. split; [done|].
  intros σ s subs t v index cached shown playing.
  unfold handleSeek, seek_assign, updateUI.
  cbn [video activeSubIndexRef activeSubRef activeSubtitle isPlaying].
  destruct (locate_spec σ (s :: subs) t (-1) cached) as (tr & Hb & Hloc);
    [done|].
  cbv zeta in Hloc. unfold bind. rewrite Hloc. clear Hloc.
  rewrite guarded_index_lt by (simpl; lia).
  destruct (cache_valid σ cached t) eqn:Hvalid.
  - assert (Hsame : same_ref cached cached = true).
    { destruct cached; simpl; [apply Nat.eqb_refl | done]. }
    rewrite Hsame. eexists _, _. split; [reflexivity|].
    split; [constructor | done].
  - change (Z.to_nat (Z.max 0 (-1))) with 0%nat.
    unfold scan_lists. rewrite drop_0. change (Z.of_nat 0) with 0%Z.
    change (0 <? 0)%Z with false.
    destruct (scan_list true σ t (s :: subs) 0) as [[f i]|] eqn:Hscan.
    + cbn [fst snd option_map].
      assert (Hnot : same_ref (Some f) cached = false).
      { destruct cached as [c|]; [|done]. cbn [same_ref cache_valid] in *.
        apply Nat.eqb_neq. intros ->.
        apply scan_list_Some_contains in Hscan. congruence. }
      rewrite Hnot. eexists _, _. split; [reflexivity|].
      split; [by rewrite app_nil_r | done].
    + cbn [fst snd option_map]. destruct cached as [c|]; simpl;
        (eexists _, _; split; [reflexivity|];
         split; [by rewrite app_nil_r | done]).
Qed.

End LocatorFacts.

(** ** Seeking and changing the source *)

Section SeekFacts.

Import Normalize Locator.

Implicit Types (σ : Store) (subs l pre suf : list loc) (s c : loc) (t : Q).

Lemma covering_linear_scan σ subs t : covering σ subs t (linear_scan σ subs t).
Proof.
  unfold covering. destruct (linear_scan σ subs t) as [s|] eqn:H; [|done].
  by apply linear_scan_Some in H as (? & ? & _ & ? & _).
Qed.

(** One lookup with the index reset to -1 and [cached] both cached and
    shown, over a sorted array. *)
Lemma updateUI_unhinted σ subs t cached playing :
  sorted_by_start σ subs ->
  exists p' tr,
    updateUI σ subs (mkPlayer (Some t) (-1) cached cached playing)
    = Some (p', tr)
    /\ in_bounds subs tr
    /\ video p' = Some t
    /\ covering σ subs t (activeSubtitle p')
    /\ (seeked σ t p' \/ tracking σ subs t p').
Proof.
  intros Hs. unfold updateUI.
  cbn [video activeSubIndexRef activeSubRef activeSubtitle isPlaying].
  destruct (decide (subs = [])) as [->|Hne].
  { cbn. destruct cached as [c|]; cbn; eexists _, _;
      (split; [reflexivity|]); (split; [constructor|]); (split; [done|]);
      (split; [done|]); right; (split; [done | by left]). }
  destruct (locate_spec σ subs t (-1) cached Hne) as (tr & Hb & Hloc).
  cbv zeta in Hloc. unfold bind. rewrite Hloc. clear Hloc.
  rewrite guarded_index_lt by lia.
  destruct (cache_valid σ cached t) eqn:Hvalid.
  - (* the cached segment holds the new time *)
    destruct cached as [c|]; [|done]. cbn [cache_valid] in Hvalid.
    cbn [same_ref]. rewrite Nat.eqb_refl.
    eexists _, _. split; [reflexivity|]. cbn [activeSubtitle video].
    split; [constructor|]. split; [done|]. split; [done|]. left.
    split; [done|]. split; [done|]. exists c. split; [done|].
    by apply contains_spec in Hvalid as [? _].
  - (* a scan of the whole array *)
    change (Z.to_nat (Z.max 0 (-1))) with 0%nat.
    unfold scan_lists. rewrite drop_0. change (Z.of_nat 0) with 0%Z.
    change (0 <? 0)%Z with false.
    rewrite scan_list_early_sorted by done.
    destruct (scan_list false σ t subs 0) as [[s i]|] eqn:Hscan.
    + apply scan_list_false_Some in Hscan
        as (pre & suf & -> & -> & Hc & Hpre).
      cbn [fst snd].
      assert (Hdiff : same_ref (Some s) cached = false).
      { destruct cached as [c|]; [|done]. cbn [same_ref cache_valid] in *.
        apply Nat.eqb_neq. intros ->. congruence. }
      rewrite Hdiff. eexists _, _. split; [reflexivity|].
      cbn [activeSubtitle video]. split; [by rewrite app_nil_r|].
      split; [done|]. split; [done|]. right.
      split; [done|]. right. exists pre, s, suf.
      split; [done|]. split; [simpl; lia|]. split; [done|].
      split; [by apply contains_spec in Hc as [? _] | done].
    + apply scan_list_false_None in Hscan. cbn [fst snd].
      destruct cached as [c|]; cbn [same_ref]; eexists _, _;
        (split; [reflexivity|]); cbn [activeSubtitle video];
        (split; [by rewrite app_nil_r|]); (split; [done|]);
        (split; [by apply linear_scan_none|]); right;
        (split; [done | by left]).
Qed.

(** [handleSeek] on a mounted player is that lookup. *)
Lemma handleSeek_unhinted σ subs t v index cached shown playing :
  handleSeek σ subs t (mkPlayer (Some v) index cached shown playing)
  = updateUI σ subs (mkPlayer (Some t) (-1) cached shown playing).
Proof. reflexivity. Qed.

(** X9.  A change of source resets the lookup for good.  From whatever
    state the player was in, once the effect of the [videoUrl] change has
    run, playback over a normalized array with a non-decreasing clock shows
    after every frame exactly the segment a linear scan finds at that time,
    and reads the array inside its bounds only. *)
Theorem source_change_restarts_lookup σ subs times p :
  normalized σ subs -> Sorted Qle times ->
  exists tr,
    play σ subs (videoUrl_effect p) times
    = Some (map (linear_scan σ subs) times, tr)
    /\ in_bounds subs tr.
Proof.
  intros Hn Hsorted. destruct times as [|t times].
  - exists []. split; [done | constructor].
  - apply (play_tracks σ subs (t :: times) Hn t (videoUrl_effect p)).
    + split; [done | by left].
    + constructor; [done|]. constructor. apply Qle_refl.
Qed.

Lemma source_change_restarts_lookup_witness :
  exists tr,
    play ex_store ex_subtitles (videoUrl_effect ex_player) ex_times
    = Some ([Some 0; Some 0; Some 0; Some 1; None; Some 2; None]%nat, tr).
Proof.
  assert (Hs : Sorted Qle ex_times).
  { repeat constructor; vm_compute; discriminate. }
  destruct (source_change_restarts_lookup ex_store ex_subtitles ex_times
              ex_player ex_normalized_is_normalized Hs) as (tr & H & _).
  exists tr. exact H.
Defined.

(** X10.  A seek shows a caption that fits the new time.  On an array
    sorted by start time, with a video element mounted and the caption on
    screen being the cached one, [handleSeek] moves the clock to the time
    sought, reads the array inside its bounds, and leaves on screen a
    segment that holds the new time, or nothing when no segment of the
    array holds it. *)
Theorem seek_shows_covering_segment σ subs t v index cached playing :
  sorted_by_start σ subs ->
  exists p' tr,
    handleSeek σ subs t (mkPlayer (Some v) index cached cached playing)
    = Some (p', tr)
    /\ in_bounds subs tr
    /\ video p' = Some t
    /\ activeSubtitle p' = activeSubRef p'
    /\ covering σ subs t (activeSubtitle p').
Proof.
  intros Hs. rewrite handleSeek_unhinted.
  destruct (updateUI_unhinted σ subs t cached playing Hs)
    as (p' & tr & Hstep & Hb & Hv & Hcov & Hinv).
  exists p', tr. split; [done|]. split; [done|]. split; [done|].
  split; [|done]. by destruct Hinv as [[? _]|[? _]].
Qed.

Lemma seek_shows_covering_segment_witness :
  exists p' tr,
    handleSeek ex_store ex_subtitles 5 ex_player = Some (p', tr)
    /\ in_bounds ex_subtitles tr
    /\ video p' = Some 5
    /\ activeSubtitle p' = activeSubRef p'
    /\ covering ex_store ex_subtitles 5 (activeSubtitle p').
Proof.
  destruct ex_normalized_is_normalized as [Hs _].
  exact (seek_shows_covering_segment ex_store ex_subtitles 5 2 1
           (Some 1%nat) true Hs).
Defined.

(** *** Jumps of the clock *)

Lemma sorted_drop σ l k : sorted_by_start σ l -> sorted_by_start σ (drop k l).
Proof.
  revert l. induction k as [|k IH]; intros l Hs; [by rewrite drop_0|].
  destruct l as [|x l]; [done|]. cbn [drop]. apply IH.
  by eapply sorted_tail.
Qed.

Lemma scan_list_Some_in early σ t l i s j :
  scan_list early σ t l i = Some (s, j) -> s ∈ l.
Proof.
  revert i. induction l as [|x l IH]; intros i; simpl; [done|].
  destruct (contains σ x t); [intros [= <- _]; by left|].
  destruct (early && Qltb t (start_of σ x)); [done|].
  intros H. right. by eapply IH.
Qed.

(** What the scan started at [k] finds in a sorted array: a segment of the
    array that holds the time, or nothing when none does. *)
Lemma scan_lists_covering σ subs t k :
  sorted_by_start σ subs ->
  covering σ subs t (scan_lists σ subs t k).1
  /\ (forall s, (scan_lists σ subs t k).1 = Some s -> s ∈ subs).
Proof.
  intros Hs. unfold scan_lists.
  destruct (scan_list true σ t (drop k subs) (Z.of_nat k)) as [[s i]|]
    eqn:Hfwd.
  { cbn [fst covering]. split; [by eapply scan_list_Some_contains|].
    intros ? [= <-]. apply scan_list_Some_in in Hfwd.
    rewrite <- (take_drop k subs). apply elem_of_app. by right. }
  rewrite scan_list_early_sorted in Hfwd by by apply sorted_drop.
  apply scan_list_false_None in Hfwd.
  destruct (0 <? Z.of_nat k)%Z eqn:Hk.
  - destruct (scan_list false σ t (take k subs) 0) as [[s i]|] eqn:Hbwd.
    + cbn [fst covering]. split; [by eapply scan_list_Some_contains|].
      intros ? [= <-]. apply scan_list_Some_in in Hbwd.
      rewrite <- (take_drop k subs). apply elem_of_app. by left.
    + apply scan_list_false_None in Hbwd. cbn [fst covering].
      split; [|done]. apply linear_scan_none.
      rewrite <- (take_drop k subs). by apply Forall_app.
  - cbn [fst covering]. split; [|done]. apply linear_scan_none.
    assert (k = 0%nat) as -> by (apply Z.ltb_ge in Hk; lia).
    by rewrite drop_0 in Hfwd.
Qed.

(** One lookup at any time, from any state that shows what it caches. *)
Lemma updateUI_covering σ subs t p :
  sorted_by_start σ subs -> activeSubtitle p = activeSubRef p ->
  exists p' tr,
    updateUI σ subs (set_currentTime t p) = Some (p', tr)
    /\ in_bounds subs tr
    /\ activeSubtitle p' = activeSubRef p'
    /\ covering σ subs t (activeSubtitle p')
    /\ (forall s, activeSubRef p' = Some s ->
                  s ∈ subs \/ activeSubRef p = Some s).
Proof.
  intros Hs Hshown.
  assert (Hloc : exists found tr,
             locate σ subs t (activeSubIndexRef p) (activeSubRef p)
             = Some (found, tr)
             /\ in_bounds subs tr
             /\ covering σ subs t found.1.1
             /\ (forall s, found.1.1 = Some s ->
                           s ∈ subs \/ activeSubRef p = Some s)).
  { destruct (decide (subs = [])) as [->|Hne].
    - eexists _, _. split; [reflexivity|]. split; [constructor|]. by split.
    - destruct (locate_spec σ subs t (activeSubIndexRef p) (activeSubRef p)
                  Hne) as (tr & Hb & Hloc).
      cbv zeta in Hloc. eexists _, _. split; [exact Hloc|].
      destruct (cache_valid σ (activeSubRef p) t) eqn:Hvalid.
      + split; [constructor|]. cbn [fst]. split; [|by right].
        destruct (activeSubRef p) as [c|]; [done | discriminate Hvalid].
      + split; [done|]. cbn [fst].
        destruct (scan_lists_covering σ subs t
                    (Z.to_nat (Z.max 0 (guarded_index subs
                                          (activeSubIndexRef p)))) Hs)
          as [Hcov Hin].
        split; [done|]. intros s Hfound. left. by apply Hin. }
  destruct Hloc as (found & tr & Hloc & Hb & Hcov & Hin).
  destruct (updateUI_shows_found σ subs t p found tr Hloc)
    as (p' & Hstep & Href & Hsub).
  exists p', tr. rewrite Href, (Hsub Hshown). done.
Qed.

(** X11.  The lookup survives any jump of the clock.  On an array sorted by
    start time, from any state of the player in which the caption on screen
    is the cached one, with the clock reading any sequence of times at all,
    forward or backward, as after a click in the subtitle list, which moves
    the clock without telling the player, every frame shows a segment that
    holds the time of the frame, or nothing when no segment of the array
    holds it.  The segments shown are segments of the array, or the one
    that was cached at the start; all reads stay inside the array. *)
Theorem lookup_survives_jumps σ subs times p :
  sorted_by_start σ subs -> activeSubtitle p = activeSubRef p ->
  exists shown tr,
    play σ subs p times = Some (shown, tr)
    /\ in_bounds subs tr
    /\ Forall2 (covering σ subs) times shown
    /\ Forall (fun frame =>
                 forall s, frame = Some s ->
                           s ∈ subs \/ activeSubRef p = Some s) shown.
Proof.
  intros Hs. revert p.
  induction times as [|t times IH]; intros p Hshown.
  - exists [], []. split; [done|]. split; [constructor|]. by split.
  - destruct (updateUI_covering σ subs t p Hs Hshown)
      as (p' & tr1 & Hstep & Hb1 & Hshown' & Hcov & Hin).
    destruct (IH p' Hshown') as (shown & tr2 & Hrest & Hb2 & Hall & Hmem).
    exists (activeSubtitle p' :: shown), (tr1 ++ tr2 ++ []).
    split; [|split; [|split]].
    + cbn [play]. eapply bind_Some; [exact Hstep|].
      eapply bind_Some; [exact Hrest | done].
    + apply Forall_app. split; [done|]. by rewrite app_nil_r.
    + by constructor.
    + constructor.
      * rewrite Hshown'. exact Hin.
      * eapply Forall_impl; [exact Hmem|]. intros frame Hframe s Hfs.
        cbn in Hframe. destruct (Hframe s Hfs) as [?|Hc]; [by left|].
        by apply Hin.
Qed.

Lemma lookup_survives_jumps_witness :
  exists shown tr,
    play ex_store ex_subtitles ex_player [5; 0.5; 3.5; 1.5; 7]
    = Some (shown, tr)
    /\ in_bounds ex_subtitles tr
    /\ Forall2 (covering ex_store ex_subtitles) [5; 0.5; 3.5; 1.5; 7] shown.
Proof.
  destruct ex_normalized_is_normalized as [Hs _].
  destruct (lookup_survives_jumps ex_store ex_subtitles
              [5; 0.5; 3.5; 1.5; 7] ex_player Hs eq_refl)
    as (shown & tr & H1 & H2 & H3 & _).
  by exists shown, tr.
Defined.

End SeekFacts.

(** ** Normalization: a second pass *)

Section SecondPass.

Import Normalize.

Implicit Types (σ : Store) (l x y : loc) (a : list loc).

(** The trim loop leaves alone a segment that ends before every segment of
    the array starts. *)
Lemma trim_loop_end_keep σ a x :
  Forall (fun y => end_of σ x <= start_of σ y) a ->
  end_of (trim_loop σ a) x = end_of σ x.
Proof.
  revert σ. induction a as [|y a IH]; intros σ Hall; [done|].
  destruct a as [|z a]; [done|].
  rewrite trim_loop_cons. apply Forall_cons in Hall as [Hy Hall].
  assert (Hsame : end_of (trim_step σ y z) x = end_of σ x).
  { unfold trim_step. destruct (Qltb _ _) eqn:Hlt; [|done].
    destruct (decide (y = x)) as [->|Hne].
    - apply Qltb_lt in Hlt. apply Forall_cons in Hall as [Hz _]. lra.
    - by apply end_of_set_endTime_ne. }
  rewrite IH; [done|]. rewrite Hsame.
  eapply Forall_impl; [exact Hall|]. intros w Hw. simpl in Hw.
  by rewrite trim_step_start.
Qed.

(** A segment whose only place in the array is the last is not trimmed. *)
Lemma trim_loop_end_last σ pre x :
  x ∉ pre -> end_of (trim_loop σ (pre ++ [x])) x = end_of σ x.
Proof.
  revert σ. induction pre as [|y pre IH]; intros σ Hx; [done|].
  apply not_elem_of_cons in Hx as [Hxy Hx].
  assert (Hstep : forall z, end_of (trim_step σ y z) x = end_of σ x).
  { intros z. unfold trim_step. destruct (Qltb _ _); [|done].
    by apply end_of_set_endTime_ne. }
  destruct pre as [|z pre]; cbn [app].
  - rewrite trim_loop_cons. cbn [trim_loop]. apply Hstep.
  - rewrite trim_loop_cons. change (z :: pre ++ [x]) with ((z :: pre) ++ [x]).
    by rewrite IH.
Qed.

(** Where a segment first stands before another, the trim loop leaves it
    the earlier of its end and the start of that other. *)
Lemma trim_loop_end_first σ pre x y suf :
  sorted_by_start σ (pre ++ x :: y :: suf) -> x ∉ pre ->
  end_of (trim_loop σ (pre ++ x :: y :: suf)) x
  = if Qltb (start_of σ y) (end_of σ x) then start_of σ y else end_of σ x.
Proof.
  revert σ. induction pre as [|z pre IH]; intros σ Hs Hx.
  - cbn [app]. rewrite trim_loop_cons.
    assert (He : end_of (trim_step σ x y) x
                 = if Qltb (start_of σ y) (end_of σ x)
                   then start_of σ y else end_of σ x).
    { unfold trim_step. destruct (Qltb _ _); [|done].
      apply end_of_set_endTime_eq. }
    rewrite trim_loop_end_keep; [done|]. rewrite He.
    assert (Hle : (if Qltb (start_of σ y) (end_of σ x)
                   then start_of σ y else end_of σ x) <= start_of σ y).
    { destruct (Qltb _ _) eqn:Hlt; [lra|]. by apply Qltb_ge in Hlt. }
    destruct Hs as [_ Hs]. pose proof (sorted_head_le σ y suf Hs) as Hsuf.
    constructor; [by rewrite trim_step_start|].
    eapply Forall_impl; [exact Hsuf|]. intros w Hw. simpl in Hw.
    rewrite trim_step_start. lra.
  - apply not_elem_of_cons in Hx as [Hxz Hx].
    assert (Hstep : forall w, end_of (trim_step σ z w) x = end_of σ x).
    { intros w. unfold trim_step. destruct (Qltb _ _); [|done].
      by apply end_of_set_endTime_ne. }
    assert (Hnext : forall w rest,
               sorted_by_start σ (z :: w :: rest) ->
               pre ++ x :: y :: suf = w :: rest ->
               end_of (trim_loop σ (z :: w :: rest)) x
               = if Qltb (start_of σ y) (end_of σ x)
                 then start_of σ y else end_of σ x).
    { intros w rest Hs' Heq. rewrite trim_loop_cons, <- Heq.
      rewrite IH; [|rewrite Heq|done].
      - by rewrite !trim_step_start, Hstep.
      - eapply adjacent_start_ext; [apply trim_step_start|].
        by apply sorted_tail in Hs'. }
    cbn [app] in *. destruct pre as [|w pre]; cbn [app] in *.
    + by apply Hnext.
    + by apply Hnext.
Qed.

(** The [endTime] the clamp loop leaves. *)
Lemma clamp_loop_end σ a p x :
  end_of (clamp_loop σ a p).1 x
  = if decide (x ∈ a) then clamped_end σ x else end_of σ x.
Proof.
  revert σ p. induction a as [|y a IH]; intros σ p; [done|].
  cbn [clamp_loop]. rewrite IH. clear IH.
  destruct (decide (y = x)) as [->|Hne].
  - rewrite (decide_True (P := x ∈ x :: a)) by by left.
    unfold clamped_end at 2.
    destruct (Qleb (end_of σ x) (start_of σ x)) eqn:Hdeg.
    + assert (Hc : clamped_end (set_endTime σ x (start_of σ x + 1.5)) x
                   = start_of σ x + 1.5).
      { unfold clamped_end.
        rewrite start_of_set_endTime, end_of_set_endTime_eq.
        assert (H : Qleb (start_of σ x + 1.5) (start_of σ x) = false)
          by (apply Qleb_gt; lra).
        by rewrite H. }
      rewrite Hc, end_of_set_endTime_eq. by destruct (decide (x ∈ a)).
    + unfold clamped_end. rewrite Hdeg. by destruct (decide (x ∈ a)).
  - assert (Hend : end_of (if Qleb (end_of σ y) (start_of σ y)
                           then set_endTime σ y (start_of σ y + 1.5)
                           else σ) x = end_of σ x).
    { destruct (Qleb _ _); [|done]. by apply end_of_set_endTime_ne. }
    assert (Hstart : start_of (if Qleb (end_of σ y) (start_of σ y)
                               then set_endTime σ y (start_of σ y + 1.5)
                               else σ) x = start_of σ x).
    { destruct (Qleb _ _); [|done]. apply start_of_set_endTime. }
    unfold clamped_end. rewrite Hend, Hstart.
    destruct (decide (x ∈ a)) as [Hin|Hnotin].
    + by rewrite (decide_True (P := x ∈ y :: a)) by by right.
    + rewrite (decide_False (P := x ∈ y :: a)); [done|].
      intros Hin. apply elem_of_cons in Hin as [->|?]; done.
Qed.

(** The loops never take an object out of the store, and the clamp loop
    puts into it every object it visits. *)
Lemma set_endTime_is_Some σ l v x :
  is_Some (σ !! x) -> is_Some (set_endTime σ l v !! x).
Proof.
  intros H. unfold set_endTime. destruct (decide (l = x)) as [->|Hne].
  - rewrite lookup_insert_eq. by eexists.
  - by rewrite lookup_insert_ne.
Qed.

Lemma clamp_loop_is_Some σ a p x :
  is_Some (σ !! x) -> is_Some ((clamp_loop σ a p).1 !! x).
Proof.
  revert σ p. induction a as [|y a IH]; intros σ p H; [done|].
  cbn [clamp_loop]. apply IH. destruct (Qleb _ _); [|done].
  by apply set_endTime_is_Some.
Qed.

Lemma trim_loop_is_Some σ a x :
  is_Some (σ !! x) -> is_Some (trim_loop σ a !! x).
Proof.
  revert σ. induction a as [|y a IH]; intros σ H; [done|].
  destruct a as [|z a]; [done|]. rewrite trim_loop_cons. apply IH.
  unfold trim_step. destruct (Qltb _ _); [|done].
  by apply set_endTime_is_Some.
Qed.

Lemma clamp_loop_visited σ a p x :
  x ∈ a -> is_Some ((clamp_loop σ a p).1 !! x).
Proof.
  revert σ p. induction a as [|y a IH]; intros σ p Hx; [by inversion Hx|].
  cbn [clamp_loop].
  destruct (decide (x ∈ a)) as [Hin|Hnotin]; [by apply IH|].
  apply elem_of_cons in Hx as [->|?]; [|done].
  apply clamp_loop_is_Some.
  destruct (σ !! y) as [seg|] eqn:Hy.
  - destruct (Qleb _ _); [|by rewrite Hy].
    apply set_endTime_is_Some. by rewrite Hy.
  - assert (Hdeg : Qleb (end_of σ y) (start_of σ y) = true).
    { unfold end_of, start_of. by rewrite lookup_total_alt, Hy. }
    rewrite Hdeg. unfold set_endTime. rewrite lookup_insert_eq. by eexists.
Qed.

(** Two objects of the store with the same fields are the same. *)
Lemma lookup_fields σ σ' x :
  is_Some (σ !! x) -> is_Some (σ' !! x) ->
  startTime (σ' !!! x) = startTime (σ !!! x) ->
  endTime (σ' !!! x) = endTime (σ !!! x) ->
  english (σ' !!! x) = english (σ !!! x) ->
  chinese (σ' !!! x) = chinese (σ !!! x) ->
  σ' !! x = σ !! x.
Proof.
  intros [s Hs] [s' Hs'] H1 H2 H3 H4.
  rewrite !lookup_total_alt, Hs, Hs' in H1, H2, H3, H4. cbn in *.
  rewrite Hs, Hs'. f_equal. destruct s, s'. cbn in *. by subst.
Qed.

(** After the trim loop, a new clamp followed by a new trim changes
    nothing. *)
Lemma second_pass_store σc s :
  sorted_by_start σc s -> positive_durations σc s ->
  (forall x, x ∈ s -> is_Some (σc !! x)) ->
  trim_loop (clamp_loop (trim_loop σc s) s []).1 s = trim_loop σc s.
Proof.
  intros Hs Hpos Hdom.
  pose proof (clamp_loop_start (trim_loop σc s) s []) as HstB.
  pose proof (clamp_loop_end (trim_loop σc s) s []) as HendB.
  pose proof (clamp_loop_frame (trim_loop σc s) s []) as HfrB.
  pose proof (fun x => clamp_loop_lookup_notin (trim_loop σc s) s [] x)
    as HnotB.
  pose proof (fun x => clamp_loop_is_Some (trim_loop σc s) s [] x) as HdomB.
  set (σ1 := trim_loop σc s) in *.
  set (σB := (clamp_loop σ1 s []).1) in *.
  assert (Hst1 : forall x, start_of σ1 x = start_of σc x)
    by apply trim_loop_start.
  assert (HsB : sorted_by_start σB s).
  { eapply adjacent_start_ext; [|exact Hs].
    intros x. by rewrite HstB, Hst1. }
  apply map_eq. intros x.
  destruct (decide (x ∈ s)) as [Hin|Hnotin]; cycle 1.
  { rewrite trim_loop_lookup_notin by done. by apply HnotB. }
  assert (Hx1 : is_Some (σ1 !! x)) by (apply trim_loop_is_Some; auto).
  destruct (same_but_endTime_trans _ _ _ HfrB (trim_loop_frame σB s) x)
    as (Hf1 & Hf2 & Hf3).
  apply lookup_fields; [done | by apply trim_loop_is_Some, HdomB | done | |
                        done | done].
  change (end_of (trim_loop σB s) x = end_of σ1 x).
  assert (HB : end_of σB x = clamped_end σ1 x).
  { rewrite HendB. by rewrite decide_True. }
  assert (Hposx : start_of σc x < end_of σc x).
  { unfold positive_durations in Hpos. rewrite Forall_forall in Hpos.
    by apply Hpos. }
  apply list_elem_of_split_l in Hin as (pre & post & Heq & Hpre).
  destruct post as [|y suf].
  - (* the last place only: never trimmed *)
    rewrite Heq, trim_loop_end_last by done.
    assert (H1 : end_of σ1 x = end_of σc x).
    { unfold σ1. by rewrite Heq, trim_loop_end_last. }
    rewrite HB. unfold clamped_end. rewrite H1, Hst1.
    assert (H : Qleb (end_of σc x) (start_of σc x) = false)
      by by apply Qleb_gt.
    by rewrite H.
  - (* before [y] *)
    assert (Hxy : start_of σc x <= start_of σc y).
    { rewrite Heq in Hs. clear -Hs.
      induction pre as [|z pre IH]; [apply Hs|].
      apply IH. by apply sorted_tail in Hs. }
    assert (H1 : end_of σ1 x
                 = if Qltb (start_of σc y) (end_of σc x)
                   then start_of σc y else end_of σc x).
    { unfold σ1. rewrite Heq. apply trim_loop_end_first; [|done].
      by rewrite <- Heq. }
    rewrite Heq, trim_loop_end_first; [|by rewrite <- Heq|done].
    rewrite HB, !HstB, !Hst1. unfold clamped_end. rewrite H1, Hst1.
    destruct (Qltb (start_of σc y) (end_of σc x)) eqn:Hcut.
    + destruct (Qleb (start_of σc y) (start_of σc x)) eqn:Hzero.
      * apply Qleb_le in Hzero.
        assert (H : Qltb (start_of σc y) (start_of σc x + 1.5) = true)
          by (apply Qltb_lt; lra).
        by rewrite H.
      * assert (H : Qltb (start_of σc y) (start_of σc y) = false)
          by (apply Qltb_ge; lra).
        by rewrite H.
    + assert (H : Qleb (end_of σc x) (start_of σc x) = false)
        by by apply Qleb_gt.
      rewrite H. by rewrite Hcut.
Qed.

(** X12.  Normalization is idempotent on every input.  Whatever the store
    and the array, normalized or not, with or without repeated references:
    [postProcessSubtitles] applied to its own output returns the same
    references in the same order and leaves every object as the first pass
    left it, a segment the first pass cut down to zero length included. *)
Theorem postProcessSubtitles_second_pass σ a :
  let '(σ1, r) := postProcessSubtitles σ a in
  postProcessSubtitles σ1 r = (σ1, r).
Proof.
  unfold postProcessSubtitles at 1. destruct a as [|x0 a]; [done|].
  change (length (x0 :: a) =? 0)%nat with false. cbv iota.
  pose proof (sort_sorted σ (x0 :: a)) as Hsorted.
  pose proof (sort_perm σ (x0 :: a)) as Hperm.
  assert (Hne : sort_by_startTime σ (x0 :: a) <> []).
  { intros H. rewrite H in Hperm. by apply Permutation_nil_cons in Hperm. }
  revert Hsorted Hne. clear Hperm.
  generalize (sort_by_startTime σ (x0 :: a)). intros s Hsorted Hne.
  pose proof (clamp_loop_processed σ s []) as Hp.
  pose proof (clamp_loop_positive σ s [] (Forall_nil_2 _)) as Hpos.
  pose proof (clamp_loop_start σ s []) as Hst.
  pose proof (fun x => clamp_loop_visited σ s [] x) as Hdom.
  destruct (clamp_loop σ s []) as [σc p]. cbn [fst snd app] in *. subst p.
  assert (Hsc : sorted_by_start σc s)
    by (eapply adjacent_start_ext; [exact Hst | exact Hsorted]).
  assert (Hs1 : sorted_by_start (trim_loop σc s) s)
    by (eapply adjacent_start_ext; [apply trim_loop_start | exact Hsc]).
  unfold postProcessSubtitles.
  destruct s as [|y0 s]; [done|].
  change (length (y0 :: s) =? 0)%nat with false. cbv iota.
  rewrite sort_sorted_id by done.
  pose proof (clamp_loop_processed (trim_loop σc (y0 :: s)) (y0 :: s) [])
    as Hp2.
  pose proof (second_pass_store σc (y0 :: s) Hsc Hpos Hdom) as Hstore.
  destruct (clamp_loop (trim_loop σc (y0 :: s)) (y0 :: s) []) as [σB p].
  cbn [fst snd app] in *. subst p. by rewrite Hstore.
Qed.

End SecondPass.

(** ** Strings *)

Section StringFacts.

Local Open Scope string_scope.

Implicit Types (s rest : string).

Lemma append_String c s rest : String c s ++ rest = String c (s ++ rest).
Proof. reflexivity. Qed.

Lemma append_Empty rest : "" ++ rest = rest.
Proof. reflexivity. Qed.

Lemma append_assoc s1 s2 s3 : (s1 ++ s2) ++ s3 = s1 ++ (s2 ++ s3).
Proof.
  induction s1 as [|c s1 IH]; [done|]. by rewrite !append_String, IH.
Qed.

Lemma append_Empty_r s : s ++ "" = s.
Proof. induction s as [|c s IH]; [done|]. by rewrite append_String, IH. Qed.

End StringFacts.

Ltac string_norm :=
  repeat (rewrite append_assoc || rewrite append_String
          || rewrite append_Empty).

(** ** Caption file export *)

Section SrtFacts.

Import Srt.

Local Open Scope string_scope.

Implicit Types (s rest : string) (n : Z).

(** *** Digits *)

Lemma digit_value_digit n :
  (0 <= n <= 9)%Z -> digit_value (digit n) = Some n.
Proof.
  intros H. replace n with (Z.of_nat (Z.to_nat n)) by lia.
  assert (Hk : (Z.to_nat n <= 9)%nat) by lia. revert Hk.
  generalize (Z.to_nat n) as k. intros k Hk.
  do 10 (destruct k as [|k]; [reflexivity|]). lia.
Qed.

(** A digit is none of the separators of the format. *)
Lemma digit_plain n :
  Ascii.eqb (digit n) "." = false /\ Ascii.eqb (digit n) LF = false.
Proof.
  unfold digit. generalize (Z.to_nat n) as k. intros k.
  do 10 (destruct k as [|k]; [split; reflexivity|]). split; reflexivity.
Qed.

Lemma read_digits_pad2 n rest :
  (0 <= n < 100)%Z -> read_digits 2 0 (pad2 n ++ rest) = Some (n, rest).
Proof.
  intros H. unfold pad2. rewrite !append_String, append_Empty.
  cbn [read_digits].
  rewrite !digit_value_digit by (Z.div_mod_to_equations; lia).
  do 2 f_equal. Z.div_mod_to_equations; lia.
Qed.

Lemma read_digits_pad3 n rest :
  (0 <= n < 1000)%Z -> read_digits 3 0 (pad3 n ++ rest) = Some (n, rest).
Proof.
  intros H. unfold pad3, pad2. rewrite !append_String, append_Empty.
  cbn [read_digits].
  rewrite !digit_value_digit by (Z.div_mod_to_equations; lia).
  do 2 f_equal. Z.div_mod_to_equations; lia.
Qed.

(** *** The stamp [formatSrtTime] writes *)

Lemma replace_first_digit n s :
  replace_first "." "," (String (digit n) s)
  = String (digit n) (replace_first "." "," s).
Proof. cbn [replace_first]. by rewrite (proj1 (digit_plain n)). Qed.

Lemma replace_first_colon s :
  replace_first "." "," (String ":" s) = String ":" (replace_first "." "," s).
Proof. reflexivity. Qed.

Lemma replace_first_dot s : replace_first "." "," (String "." s) = String "," s.
Proof. reflexivity. Qed.

Lemma formatSrtTime_stamp (q : Q) : formatSrtTime q = stamp (time_of_day q).
Proof.
  unfold formatSrtTime, toISOString_time, stamp, time_of_day, pad3, pad2.
  rewrite !append_String, !append_Empty.
  repeat (rewrite replace_first_digit || rewrite replace_first_colon).
  by rewrite replace_first_dot.
Qed.

Lemma read_timestamp_stamp tod rest :
  (0 <= tod < 86400000)%Z ->
  read_timestamp (stamp tod ++ rest) = Some (tod, rest).
Proof.
  intros H. unfold stamp, read_timestamp.
  rewrite !append_assoc, !append_String, !append_Empty.
  rewrite read_digits_pad2 by (Z.div_mod_to_equations; lia). cbn [expect].
  change (Ascii.eqb ":" ":") with true. cbv iota.
  rewrite read_digits_pad2 by (Z.div_mod_to_equations; lia). cbn [expect].
  change (Ascii.eqb ":" ":") with true. cbv iota.
  rewrite read_digits_pad2 by (Z.div_mod_to_equations; lia). cbn [expect].
  change (Ascii.eqb "," ",") with true. cbv iota.
  rewrite read_digits_pad3 by (Z.div_mod_to_equations; lia).
  do 2 f_equal. Z.div_mod_to_equations; lia.
Qed.

Lemma time_of_day_range (q : Q) : (0 <= time_of_day q < 86400000)%Z.
Proof. unfold time_of_day. Z.div_mod_to_equations; lia. Qed.

Lemma read_timing_written (a b : Q) :
  read_timing (formatSrtTime a ++ " --> " ++ formatSrtTime b)
  = Some (time_of_day a, time_of_day b).
Proof.
  unfold read_timing. rewrite !formatSrtTime_stamp.
  rewrite read_timestamp_stamp by apply time_of_day_range.
  rewrite !append_String, !append_Empty. cbn [read_arrow].
  rewrite <- (append_Empty_r (stamp (time_of_day b))).
  by rewrite read_timestamp_stamp by apply time_of_day_range.
Qed.

(** *** Lines *)

Lemma single_line_app s1 s2 :
  single_line (s1 ++ s2) = single_line s1 && single_line s2.
Proof.
  induction s1 as [|c s1 IH]; [done|].
  rewrite append_String. cbn [single_line]. rewrite IH. by rewrite andb_assoc.
Qed.

Lemma split_lines_line l rest :
  single_line l = true ->
  split_lines (l ++ String LF rest) = l :: split_lines rest.
Proof.
  induction l as [|c l IH]; intros Hl.
  - rewrite append_Empty. cbn [split_lines].
    by change (Ascii.eqb LF LF) with true.
  - cbn [single_line] in Hl. apply andb_true_iff in Hl as [Hc Hl].
    apply negb_true_iff in Hc.
    rewrite append_String. cbn [split_lines]. by rewrite Hc, IH.
Qed.

Lemma single_line_uint d : single_line (NilEmpty.string_of_uint d) = true.
Proof. induction d; simpl; auto. Qed.

Lemma single_line_stamp tod : single_line (stamp tod) = true.
Proof.
  unfold stamp, pad3, pad2. rewrite !append_String, !append_Empty.
  cbn [single_line]. rewrite !(proj2 (digit_plain _)). reflexivity.
Qed.

Lemma single_line_timing (a b : Q) :
  single_line (formatSrtTime a ++ " --> " ++ formatSrtTime b) = true.
Proof.
  rewrite !formatSrtTime_stamp, !single_line_app, !single_line_stamp.
  reflexivity.
Qed.

(** An entry, line by line. *)
Lemma entry_shape index sub rest :
  entry index sub ++ rest
  = string_of_index (index + 1)
    ++ String LF
         ((formatSrtTime (startTime sub) ++ " --> "
           ++ formatSrtTime (endTime sub))
          ++ String LF
               (english sub
                ++ String LF
                     (chinese sub ++ String LF ("" ++ String LF rest)))).
Proof. unfold entry. by string_norm. Qed.

(** The five lines of an entry. *)
Lemma split_lines_entry index sub rest :
  single_line (english sub) = true -> single_line (chinese sub) = true ->
  split_lines (entry index sub ++ rest)
  = string_of_index (index + 1)
    :: (formatSrtTime (startTime sub) ++ " --> " ++ formatSrtTime (endTime sub))
    :: english sub :: chinese sub :: "" :: split_lines rest.
Proof.
  intros He Hc. rewrite entry_shape.
  rewrite split_lines_line by apply single_line_uint.
  rewrite split_lines_line by apply single_line_timing.
  by rewrite !split_lines_line.
Qed.

Lemma forEach_append_entries index subs acc :
  forEach_append index subs acc = acc ++ entries index subs.
Proof.
  revert index acc. induction subs as [|sub subs IH]; intros index acc.
  - by rewrite append_Empty_r.
  - cbn [forEach_append entries]. by rewrite IH, append_assoc.
Qed.

(** What the reader makes of the entries written. *)
Lemma read_entries_written index subs :
  Forall (fun sub => single_line (english sub) = true
                     /\ single_line (chinese sub) = true) subs ->
  read_entries index (split_lines (entries index subs))
  = Some (map written subs).
Proof.
  intros H. revert index. induction H as [|sub subs [He Hc] _ IH]; intros index.
  - reflexivity.
  - cbn [entries map]. rewrite split_lines_entry by done.
    cbn [read_entries]. rewrite String.eqb_refl, read_timing_written, IH.
    by destruct (string_of_index (index + 1)).
Qed.

(** *** Times *)

Local Open Scope Q_scope.

Lemma ToIntegerOrInfinity_floor (q : Q) :
  0 <= q -> ToIntegerOrInfinity q = Qfloor q.
Proof.
  intros H. destruct q as [n d]. unfold ToIntegerOrInfinity, Qfloor.
  cbn [Qnum Qden]. apply Z.quot_div_nonneg; [|lia].
  unfold Qle in H. simpl in H. lia.
Qed.

Lemma Qfloor_bounds (q : Q) :
  inject_Z (Qfloor q) <= q /\ q < inject_Z (Qfloor q) + 1.
Proof.
  split; [apply Qfloor_le|].
  pose proof (Qlt_floor q) as H. by rewrite inject_Z_plus in H.
Qed.

Lemma time_of_day_floor (q : Q) :
  0 <= q -> q < 86400 -> time_of_day q = Qfloor (q * 1000).
Proof.
  intros H0 H1. unfold time_of_day, setMilliseconds_from_epoch.
  rewrite ToIntegerOrInfinity_floor by lra.
  destruct (Qfloor_bounds (q * 1000)) as [Hlo Hhi].
  assert (Hz : (0 <= Qfloor (q * 1000) < 86400000)%Z).
  { split.
    - assert (H : inject_Z 0 < inject_Z (Qfloor (q * 1000) + 1)).
      { rewrite inject_Z_plus. change (inject_Z 0) with 0.
        change (inject_Z 1) with 1. lra. }
      rewrite <- Zlt_Qlt in H. lia.
    - assert (H : inject_Z (Qfloor (q * 1000)) < inject_Z 86400000).
      { change (inject_Z 86400000) with 86400000. lra. }
      by rewrite <- Zlt_Qlt in H. }
  rewrite Z.add_0_l. by apply Z.mod_small.
Qed.

(** The time the file holds is less than a millisecond from the time
    written. *)
Lemma written_time_close (q : Q) :
  0 <= q -> q < 86400 ->
  Qabs (q - seconds_of_ms (time_of_day q)) < 1 / 1000.
Proof.
  intros H0 H1. rewrite time_of_day_floor by done.
  destruct (Qfloor_bounds (q * 1000)) as [Hlo Hhi].
  unfold seconds_of_ms. apply Qabs_Qlt_condition.
  set (r := inject_Z (Qfloor (q * 1000))) in *.
  unfold Qdiv. change (/ 1000) with (1 # 1000). split; lra.
Qed.

Lemma written_close sub : exportable sub -> close_to sub (written sub).
Proof.
  intros ([Hs0 Hs1] & [He0 He1] & _ & _). unfold close_to, written.
  cbn [startTime endTime english chinese].
  repeat split; by apply written_time_close.
Qed.

(** *** C7 *)

(** The file of a non-empty list, read back. *)
Lemma parseSRT_downloadSRT sub subs :
  Forall (fun sub => single_line (english sub) = true
                     /\ single_line (chinese sub) = true) (sub :: subs) ->
  exists file,
    downloadSRT (sub :: subs) = Some file
    /\ parseSRT file = Some (map written (sub :: subs)).
Proof.
  intros H. eexists. split; [reflexivity|].
  unfold parseSRT. rewrite forEach_append_entries, append_Empty.
  by apply read_entries_written.
Qed.

(** C7, as claimed, fails: a segment that starts one day into the source is
    written with the stamp of time zero, and reads back a day early. *)
Lemma srt_round_trip_fails_after_a_day : ~ round_trip ex_day_long.
Proof.
  unfold round_trip.
  destruct (parseSRT_downloadSRT (mkSegment 86400 86401 "A" "a") [])
    as (file & Hfile & Hread).
  { repeat constructor. }
  unfold ex_day_long. rewrite Hfile, Hread. intros H.
  inversion H as [|? ? ? ? Hclose _]; subst.
  destruct Hclose as [Hstart _]. vm_compute in Hstart. discriminate.
Qed.

(** The writer alone decides it: lists that differ by a day, or in where
    their texts break, give the same file, so that no reader can return
    both. *)
Lemma downloadSRT_forgets_days :
  downloadSRT ex_day_long = downloadSRT ex_first_second.
Proof. vm_compute. reflexivity. Qed.

Lemma downloadSRT_forgets_line_breaks :
  downloadSRT ex_break_first = downloadSRT ex_break_second.
Proof. vm_compute. reflexivity. Qed.

(** C7, amended.  For every non-empty list whose times lie within one day
    from zero and whose texts hold no line feed, the file written by
    [downloadSRT], read by a reader of the five-line format, gives the same
    number of segments, each with both times less than a millisecond from
    the original and both texts identical. *)
Theorem srt_round_trip subs :
  subs <> [] -> Forall exportable subs -> round_trip subs.
Proof.
  intros Hne Hex. destruct subs as [|sub subs]; [done|].
  destruct (parseSRT_downloadSRT sub subs) as (file & Hfile & Hread).
  { eapply Forall_impl; [exact Hex|]. by intros x (_ & _ & ? & ?). }
  unfold round_trip. rewrite Hfile, Hread.
  clear -Hex. induction Hex as [|x l Hx _ IH]; cbn [map]; constructor;
    [by apply written_close | done].
Qed.

(** The two segments of [ex_exportable], one with an empty text and one
    with a time between two milliseconds, are exportable and come back. *)
Lemma srt_round_trip_witness :
  (ex_exportable <> [] /\ Forall exportable ex_exportable)
  /\ round_trip ex_exportable.
Proof.
  assert (H : ex_exportable <> [] /\ Forall exportable ex_exportable).
  { split; [discriminate|].
    repeat constructor; vm_compute; (reflexivity || discriminate). }
  split; [exact H | exact (srt_round_trip _ (proj1 H) (proj2 H))].
Defined.

End SrtFacts.

(** ** Time labels, volume and the subtitle list *)

Section ControlsFacts.

Import Normalize Locator Srt Controls.

Local Open Scope string_scope.

Lemma Qfloor_unique (q : Q) (z : Z) :
  inject_Z z <= q -> q < inject_Z z + 1 -> Qfloor q = z.
Proof.
  intros Hlo Hhi.
  pose proof (Qfloor_le q) as Hfl. pose proof (Qlt_floor q) as Hfh.
  rewrite inject_Z_plus in Hfh. change (inject_Z 1) with 1%Q in Hfh.
  assert (H1 : (inject_Z z < inject_Z (Qfloor q + 1))%Q).
  { rewrite inject_Z_plus. change (inject_Z 1) with 1%Q. lra. }
  assert (H2 : (inject_Z (Qfloor q) < inject_Z (z + 1))%Q).
  { rewrite inject_Z_plus. change (inject_Z 1) with 1%Q. lra. }
  rewrite <- Zlt_Qlt in H1, H2. lia.
Qed.

Lemma Qfloor_sub_Z (q : Q) (k : Z) :
  Qfloor (q - inject_Z k) = (Qfloor q - k)%Z.
Proof.
  pose proof (Qfloor_le q) as Hfl. pose proof (Qlt_floor q) as Hfh.
  rewrite inject_Z_plus in Hfh. change (inject_Z 1) with 1%Q in Hfh.
  apply Qfloor_unique; unfold Z.sub;
    rewrite inject_Z_plus, inject_Z_opp; lra.
Qed.






(** *** The labels of the subtitle list *)

Lemma Qfloor_div_pos (q : Q) (k : positive) :
  Qfloor (q / inject_Z (Zpos k)) = (Qfloor q / Zpos k)%Z.
Proof.
  destruct q as [n d]. unfold Qdiv, Qinv, Qmult, inject_Z, Qfloor.
  cbn [Qnum Qden]. rewrite Z.mul_1_r, Pos2Z.inj_mul.
  rewrite Z.div_div; [done | lia | lia].
Qed.

Lemma Qfloor_thousand (q : Q) : (Qfloor (q * 1000) / 1000)%Z = Qfloor q.
Proof.
  rewrite <- (Qfloor_div_pos (q * 1000) 1000). apply Qfloor_comp.
  change (inject_Z 1000) with 1000%Q. field.
Qed.

Lemma substring_minutes_seconds (h m sec ms : Z) :
  String.substring 3 5
    (pad2 h ++ ":" ++ pad2 m ++ ":" ++ pad2 sec ++ "." ++ pad3 ms)
  = pad2 m ++ ":" ++ pad2 sec.
Proof. unfold pad2. by string_norm. Qed.

Lemma SubtitleList_formatTime_fields (seconds : Q) :
  (0 <= seconds)%Q ->
  SubtitleList_formatTime seconds
  = pad2 ((Qfloor seconds / 60) mod 60) ++ ":" ++ pad2 (Qfloor seconds mod 60).
Proof.
  intros Hs. unfold SubtitleList_formatTime. cbv zeta.
  assert (Hsafe : ((if Qltb 0 seconds then seconds else 0) == seconds)%Q).
  { destruct (Qltb 0 seconds) eqn:H; [done|]. apply Qltb_ge in H. lra. }
  assert (Htv : ToIntegerOrInfinity
                  ((if Qltb 0 seconds then seconds else 0) * 1000)
                = Qfloor (seconds * 1000)).
  { rewrite ToIntegerOrInfinity_floor
      by (destruct (Qltb 0 seconds); lra).
    apply Qfloor_comp. by rewrite Hsafe. }
  rewrite Htv. unfold toISOString_time. cbv zeta.
  rewrite substring_minutes_seconds.
  pose proof (Qfloor_thousand seconds) as Hk.
  assert (H0 : (0 <= Qfloor (seconds * 1000))%Z).
  { change 0%Z with (Qfloor 0). apply Qfloor_resp_le. lra. }
  revert Hk H0. generalize (Qfloor (seconds * 1000)) as ms.
  generalize (Qfloor seconds) as k. intros k ms Hk H0. subst k.
  f_equal; [|f_equal]; f_equal; Z.div_mod_to_equations; lia.
Qed.

(** X15.  The labels of the subtitle list show the minutes and seconds
    within the hour.  For a time that is not negative the label is the
    whole minutes modulo 60 and the whole seconds modulo 60, two digits
    each; a time one hour later gets the same label; and a time that is not
    positive is labelled 00:00.  (Times up to the end of the year 9999 of
    the date the label is read off.) *)
Theorem list_label_wraps_each_hour (seconds : Q) :
  (0 <= seconds)%Q -> (seconds + 3600 < 253402300800)%Q ->
  SubtitleList_formatTime seconds
  = pad2 ((Qfloor seconds / 60) mod 60) ++ ":" ++ pad2 (Qfloor seconds mod 60)
  /\ SubtitleList_formatTime (seconds + 3600) = SubtitleList_formatTime seconds
  /\ (forall early : Q,
        (early <= 0)%Q -> SubtitleList_formatTime early = "00:00").
Proof.
  intros Hs _. split; [by apply SubtitleList_formatTime_fields|]. split.
  - rewrite !SubtitleList_formatTime_fields by lra.
    assert (Hf : Qfloor (seconds + 3600) = (Qfloor seconds + 3600)%Z).
    { replace (Qfloor seconds + 3600)%Z with (Qfloor seconds - -3600)%Z
        by lia.
      rewrite <- Qfloor_sub_Z. apply Qfloor_comp.
      change (inject_Z (-3600)) with (-3600)%Q. lra. }
    rewrite Hf. generalize (Qfloor seconds) as k. intros k.
    f_equal; [|f_equal]; f_equal; Z.div_mod_to_equations; lia.
  - intros early He. unfold SubtitleList_formatTime.
    assert (H : Qltb 0 early = false) by by apply Qltb_ge.
    by rewrite H.
Qed.

Lemma list_label_wraps_each_hour_witness :
  ((0 <= 125.75)%Q /\ (125.75 + 3600 < 253402300800)%Q)
  /\ SubtitleList_formatTime 125.75 = "02:05"
  /\ SubtitleList_formatTime (125.75 + 3600) = SubtitleList_formatTime 125.75.
Proof.
  assert (H0 : (0 <= 125.75)%Q) by (vm_compute; discriminate).
  assert (H1 : (125.75 + 3600 < 253402300800)%Q) by (vm_compute; reflexivity).
  split; [by split|].
  destruct (list_label_wraps_each_hour 125.75 H0 H1) as (Ha & Hb & _).
  split; [exact Ha | exact Hb].
Defined.

(** *** The rows of the subtitle list *)

Lemma isActive_contains σ t s : isActive σ t s = contains σ s t.
Proof. reflexivity. Qed.

(** No segment that starts after [t] holds [t]. *)
Lemma active_rows_later σ (l : list loc) (t : Q) :
  Forall (fun y => (t < start_of σ y)%Q) l -> active_rows σ l t = [].
Proof.
  induction 1 as [|y l Hy Hl IH]; [done|].
  unfold active_rows in *. cbn [List.filter].
  assert (Hf : isActive σ t y = false).
  { rewrite isActive_contains. apply contains_false. by left. }
  by rewrite Hf.
Qed.

(** Among segments that all start at [t] or later, in a normalized array,
    at most one holds [t]. *)
Lemma active_rows_ahead σ (l : list loc) (t : Q) :
  sorted_by_start σ l -> non_overlapping σ l -> positive_durations σ l ->
  Forall (fun y => (t <= start_of σ y)%Q) l ->
  (length (active_rows σ l t) <= 1)%nat.
Proof.
  induction l as [|x l IH]; intros Hs Ho Hp Hall; [simpl; lia|].
  apply Forall_cons in Hall as [Hx Hall].
  apply Forall_cons in Hp as [Hpx Hp].
  pose proof (after_head σ x l Hs Ho) as Hafter.
  assert (Hs' : sorted_by_start σ l) by by apply sorted_tail in Hs.
  assert (Ho' : non_overlapping σ l) by (destruct l; [done | apply Ho]).
  unfold active_rows in *. cbn [List.filter].
  destruct (isActive σ t x) eqn:Hact; [|by apply IH].
  fold (active_rows σ l t). rewrite active_rows_later; [simpl; lia|].
  eapply Forall_impl; [exact Hafter|]. intros y Hy. simpl in Hy. lra.
Qed.

(** X16.  The rows the subtitle list marks as active.  Over a normalized
    array, at any time, at most two rows are active; the first active row
    is the segment a linear scan finds, the one the player and the export
    show; and when there are two, they meet at that very time, the first
    ending and the second starting there. *)
Theorem active_rows_of_normalized σ (subs : list loc) (t : Q) :
  normalized σ subs ->
  (length (active_rows σ subs t) <= 2)%nat
  /\ head (active_rows σ subs t) = linear_scan σ subs t
  /\ (forall s s',
        active_rows σ subs t = [s; s'] ->
        (end_of σ s == t)%Q /\ (start_of σ s' == t)%Q).
Proof.
  intros (Hs & Ho & Hp). split; [|split].
  - induction subs as [|x l IH]; [simpl; lia|].
    pose proof (after_head σ x l Hs Ho) as Hafter.
    assert (Hs' : sorted_by_start σ l) by by apply sorted_tail in Hs.
    assert (Ho' : non_overlapping σ l) by (destruct l; [done | apply Ho]).
    apply Forall_cons in Hp as [Hpx Hp].
    unfold active_rows in *. cbn [List.filter].
    destruct (isActive σ t x) eqn:Hact; [|apply IH; done].
    fold (active_rows σ l t). cbn [length].
    enough (length (active_rows σ l t) <= 1)%nat by lia.
    apply active_rows_ahead; [done..|].
    rewrite isActive_contains in Hact. apply contains_spec in Hact.
    eapply Forall_impl; [exact Hafter|]. intros y Hy. simpl in Hy. lra.
  - clear. unfold active_rows, linear_scan.
    induction subs as [|x l IH]; [done|]. cbn [List.filter find].
    rewrite isActive_contains. by destruct (contains σ x t).
  - induction subs as [|x l IH]; [done|].
    pose proof (after_head σ x l Hs Ho) as Hafter.
    assert (Hs' : sorted_by_start σ l) by by apply sorted_tail in Hs.
    assert (Ho' : non_overlapping σ l) by (destruct l; [done | apply Ho]).
    apply Forall_cons in Hp as [Hpx Hp].
    intros s s'. unfold active_rows in *. cbn [List.filter].
    destruct (isActive σ t x) eqn:Hact; [|by apply IH].
    intros Heq. injection Heq as -> Hrest.
    rewrite isActive_contains in Hact. apply contains_spec in Hact.
    assert (Hin : In s' (List.filter (isActive σ t) l))
      by (rewrite Hrest; by left).
    apply filter_In in Hin as [Hin Hact'].
    rewrite isActive_contains in Hact'. apply contains_spec in Hact'.
    rewrite Forall_forall in Hafter.
    assert (Hs'' : (end_of σ s <= start_of σ s')%Q).
    { apply Hafter. by apply list_elem_of_In. }
    split; lra.
Qed.

Lemma active_rows_of_normalized_witness :
  (length (active_rows ex_store ex_subtitles 1.5) <= 2)%nat
  /\ active_rows ex_store ex_subtitles 1.5 = [0; 1]%nat
  /\ linear_scan ex_store ex_subtitles 1.5 = Some 0%nat.
Proof.
  destruct (active_rows_of_normalized ex_store ex_subtitles 1.5
              ex_normalized_is_normalized) as (Hlen & Hhead & _).
  split; [exact Hlen|]. split; [reflexivity|].
  rewrite <- Hhead. reflexivity.
Defined.

(** *** The volume *)

Lemma volume_step_in_tune act s :
  in_tune s -> on_slider act ->
  exists s', volume_step act s = Some s' /\ in_tune s'.
Proof.
  intros (Hv & [Hlo Hhi] & [Hl Hl']) Hact.
  destruct s as [vol last el]. cbn in *. subst el.
  destruct act as [v|]; cbn [volume_step].
  - destruct Hact as [Hv0 Hv1].
    unfold handleVolumeChange, set_video_volume. cbn.
    apply Qleb_le in Hv0, Hv1. rewrite Hv0, Hv1. cbn.
    apply Qleb_le in Hv0, Hv1. eexists. split; [reflexivity|].
    repeat split; cbn; done.
  - unfold toggleMute, set_video_volume. cbn.
    destruct (Qltb 0 vol) eqn:Hpos.
    + cbn. apply Qltb_lt in Hpos. eexists. split; [reflexivity|].
      repeat split; cbn; try done; lra.
    + apply Qltb_lt in Hl. rewrite Hl. apply Qltb_lt in Hl.
      assert (H0 : Qleb 0 last = true) by (apply Qleb_le; lra).
      assert (H1 : Qleb last 1 = true) by by apply Qleb_le.
      rewrite H0, H1. cbn. eexists. split; [reflexivity|].
      repeat split; cbn; try done; lra.
Qed.

(** X17.  The volume controls never put the video element out of range.
    From a state in which the element and the slider agree on a volume
    between 0 and 1 and the remembered volume is audible, any sequence of
    slider moves within the slider's range and of clicks on the mute button
    runs without the volume setter throwing, and ends in such a state:
    unmuting never restores silence. *)
Theorem volume_stays_in_tune acts s :
  in_tune s -> Forall on_slider acts ->
  exists s', volume_run acts s = Some s' /\ in_tune s'.
Proof.
  intros Hs Hacts. revert s Hs.
  induction Hacts as [|act acts Hact Hacts IH]; intros s Hs.
  - by exists s.
  - destruct (volume_step_in_tune act s Hs Hact) as (s1 & Hstep & Hs1).
    destruct (IH s1 Hs1) as (s' & Hrun & Hs').
    exists s'. split; [|done]. cbn [volume_run]. by rewrite Hstep.
Qed.

Lemma volume_stays_in_tune_witness :
  exists s',
    volume_run [Slide 0.3; Mute; Mute; Slide 0; Mute] initial_sound = Some s'
    /\ in_tune s'.
Proof.
  assert (Hs : in_tune initial_sound).
  { repeat split; vm_compute; congruence. }
  assert (Hacts : Forall on_slider [Slide 0.3; Mute; Mute; Slide 0; Mute]).
  { repeat constructor; vm_compute; congruence. }
  exact (volume_stays_in_tune _ _ Hs Hacts).
Defined.

(** X18.  Muting and unmuting is a round trip.  With the element mounted
    and in tune at an audible volume, a first click on the mute button
    silences the element and a second click brings back the volume there
    was, in the state and on the element. *)
Theorem mute_then_unmute_restores s :
  in_tune s -> (0 < volume s)%Q ->
  exists muted,
    toggleMute s = Some muted
    /\ volume muted = 0%Q /\ video_volume muted = Some 0%Q
    /\ toggleMute muted
       = Some (mkSound (volume s) (volume s) (Some (volume s))).
Proof.
  intros (Hv & [Hlo Hhi] & _) Hpos.
  destruct s as [vol last el]. cbn in *. subst el.
  unfold toggleMute at 1. cbn.
  apply Qltb_lt in Hpos. rewrite Hpos. cbn.
  eexists. split; [reflexivity|]. split; [done|]. split; [done|].
  unfold toggleMute, set_video_volume. cbn. rewrite Hpos.
  apply Qleb_le in Hlo, Hhi. by rewrite Hlo, Hhi.
Qed.

Lemma mute_then_unmute_restores_witness :
  exists muted,
    toggleMute (mkSound 0.3 1 (Some 0.3)) = Some muted
    /\ volume muted = 0%Q /\ video_volume muted = Some 0%Q
    /\ toggleMute muted = Some (mkSound 0.3 0.3 (Some 0.3)).
Proof.
  assert (Hs : in_tune (mkSound 0.3 1 (Some 0.3))).
  { repeat split; vm_compute; congruence. }
  assert (Hpos : (0 < volume (mkSound 0.3 1 (Some 0.3)))%Q)
    by (vm_compute; reflexivity).
  exact (mute_then_unmute_restores _ Hs Hpos).
Defined.

End ControlsFacts.

(** ** Burned-video export *)

Section ExportFacts.

Import Double BurnedExport.

Local Open Scope string_scope.

(** *** Target dimensions *)

Lemma make_even_even n : Z.even (make_even n) = true.
Proof.
  unfold make_even. destruct (Z.eqb_spec (Z.rem n 2) 0) as [H|H].
  - apply Z.even_spec. exists (Z.quot n 2).
    Z.quot_rem_to_equations. lia.
  - apply Z.even_spec. exists (Z.quot (n - 1) 2).
    Z.quot_rem_to_equations. lia.
Qed.

Lemma make_even_le n : (0 <= n -> 0 <= make_even n <= n)%Z.
Proof.
  intros H. unfold make_even. destruct (Z.eqb_spec (Z.rem n 2) 0) as [E|E].
  - lia.
  - split; [|lia]. assert (n <> 0)%Z by (intros ->; by apply E). lia.
Qed.

(** Both target dimensions are even, for every source. *)
Lemma target_dimensions_even w h :
  Z.even (target_dimensions w h).1 = true
  /\ Z.even (target_dimensions w h).2 = true.
Proof.
  unfold target_dimensions, Number_divide, Number_multiply.
  destruct (_ || _); [destruct (h =? 0)%Z; [|destruct (Qltb _ _)]|];
    split; apply make_even_even.
Qed.

Lemma Math_round_le (q : Q) (n : Z) :
  (q <= inject_Z n)%Q -> (Math_round q <= n)%Z.
Proof.
  intros H. unfold Math_round.
  assert (Hlt : (inject_Z (Qfloor (q + 0.5)) < inject_Z (n + 1))%Q).
  { pose proof (Qfloor_le (q + 0.5)). rewrite inject_Z_plus.
    change (inject_Z 1) with 1%Q. lra. }
  rewrite <- Zlt_Qlt in Hlt. lia.
Qed.

Lemma Math_round_nonneg (q : Q) : (0 <= q)%Q -> (0 <= Math_round q)%Z.
Proof.
  intros H. unfold Math_round.
  assert (Hlt : (inject_Z (-1) < inject_Z (Qfloor (q + 0.5)))%Q).
  { pose proof (Qlt_floor (q + 0.5)) as Hf. rewrite inject_Z_plus in Hf.
    change (inject_Z 1) with 1%Q in Hf. change (inject_Z (-1)) with (-1)%Q.
    lra. }
  rewrite <- Zlt_Qlt in Hlt. lia.
Qed.

Lemma ratio_facts w h :
  (0 <= w)%Z -> (0 < h)%Z ->
  let ratio := (inject_Z w / inject_Z h)%Q in
  (0 <= ratio)%Q /\ (ratio * inject_Z h == inject_Z w)%Q /\ (0 < inject_Z h)%Q.
Proof.
  intros Hw Hh ratio.
  assert (HH : (0 < inject_Z h)%Q).
  { change 0%Q with (inject_Z 0). by rewrite <- Zlt_Qlt. }
  assert (HW : (0 <= inject_Z w)%Q).
  { change 0%Q with (inject_Z 0). by rewrite <- Zle_Qle. }
  split; [|split; [|done]].
  - unfold ratio. apply Qle_shift_div_l; [done | lra].
  - unfold ratio. field. lra.
Qed.

(** The double quotient of the sides is above 1 for no source that is at
    most as wide as tall, and at least the double nearest to 16/9 for a
    source that is at least 16:9 wide. *)
Lemma ratio_rounded w h :
  (0 <= w)%Z -> (0 < h)%Z ->
  let ratio := binary64 (inject_Z w / inject_Z h) in
  0 <= ratio
  /\ ((w <= h)%Z -> ratio <= 1)
  /\ ((16 * h <= 9 * w)%Z -> binary64 (16 # 9) <= ratio).
Proof.
  intros Hw Hh ratio. destruct (ratio_facts w h Hw Hh) as (Hr0 & Hr & HH).
  split; [by apply binary64_nonneg|]. split.
  - intros Hle. rewrite Zle_Qle in Hle.
    assert (H1 : binary64 1 == 1) by (vm_compute; reflexivity).
    rewrite <- H1. apply binary64_le; [done|].
    apply Qle_shift_div_r; [done | lra].
  - intros Hle. rewrite Zle_Qle, !inject_Z_mult in Hle.
    change (inject_Z 16) with 16 in Hle. change (inject_Z 9) with 9 in Hle.
    apply binary64_le; [done|]. apply Qle_shift_div_l; [done|].
    lra.
Qed.

(** The target width stays within [MAX_WIDTH], for every source. *)
Lemma target_width_bounded w h :
  (0 <= w)%Z -> (0 <= h)%Z ->
  (0 <= (target_dimensions w h).1 <= MAX_WIDTH)%Z.
Proof.
  intros Hw Hh. unfold target_dimensions, Number_divide, Number_multiply.
  destruct ((MAX_WIDTH <? w)%Z || (MAX_HEIGHT <? h)%Z) eqn:Hclamp.
  - destruct (Z.eqb_spec h 0) as [->|Hne]; [done|].
    destruct (ratio_rounded w h Hw) as (Hr0 & _ & _); [lia|].
    destruct (Qltb 1 (binary64 (inject_Z w / inject_Z h))) eqn:Hlt; [done|].
    apply Qltb_ge in Hlt. cbn [fst].
    set (ratio := binary64 (inject_Z w / inject_Z h)) in *.
    assert (0 <= Math_round (binary64 (inject_Z MAX_HEIGHT * ratio))
            <= 1080)%Z.
    { change (inject_Z MAX_HEIGHT) with 1080%Q.
      split; [apply Math_round_nonneg | apply Math_round_le].
      - apply binary64_nonneg. nra.
      - assert (H1 : binary64 1080 == inject_Z 1080)
          by (vm_compute; reflexivity).
        rewrite <- H1. apply binary64_le; nra. }
    pose proof
      (make_even_le (Math_round (binary64 (inject_Z MAX_HEIGHT * ratio)))).
    unfold MAX_WIDTH. lia.
  - apply orb_false_iff in Hclamp as [Hcw _]. apply Z.ltb_ge in Hcw.
    cbn [fst]. pose proof (make_even_le w Hw). lia.
Qed.

(** The target height stays within [MAX_HEIGHT] for a source that is no
    wider than tall, or at least 16:9 wide. *)
Lemma target_height_bounded w h :
  (0 <= w)%Z -> (0 <= h)%Z -> (w <= h \/ 16 * h <= 9 * w)%Z ->
  (0 <= (target_dimensions w h).2 <= MAX_HEIGHT)%Z.
Proof.
  intros Hw Hh Hshape. unfold target_dimensions, Number_divide, Number_multiply.
  destruct ((MAX_WIDTH <? w)%Z || (MAX_HEIGHT <? h)%Z) eqn:Hclamp.
  - destruct (Z.eqb_spec h 0) as [->|Hne]; [done|].
    destruct (ratio_rounded w h Hw) as (Hr0 & Htall & Hwide); [lia|].
    destruct (Qltb 1 (binary64 (inject_Z w / inject_Z h))) eqn:Hlt; [|done].
    apply Qltb_lt in Hlt. cbn [snd].
    set (ratio := binary64 (inject_Z w / inject_Z h)) in *.
    assert (H169 : binary64 (16 # 9) <= ratio).
    { destruct Hshape as [Hle|Hle]; [|by apply Hwide].
      specialize (Htall Hle). lra. }
    assert (0 <= Math_round (binary64 (inject_Z MAX_WIDTH / ratio)) <= 1080)%Z.
    { change (inject_Z MAX_WIDTH) with 1920%Q.
      assert (H0 : 0 <= 1920 / ratio) by (apply Qle_shift_div_l; lra).
      split; [apply Math_round_nonneg | apply Math_round_le].
      - by apply binary64_nonneg.
      - assert (H1 : binary64 (1920 / binary64 (16 # 9)) == inject_Z 1080)
          by (vm_compute; reflexivity).
        rewrite <- H1. apply binary64_le; [done|].
        assert (Hc : 0 < binary64 (16 # 9)) by (vm_compute; reflexivity).
        apply Qle_shift_div_l; [done|].
        assert (E : 1920 / ratio * binary64 (16 # 9)
                    == 1920 * (binary64 (16 # 9) / ratio)) by (field; lra).
        rewrite E.
        assert (binary64 (16 # 9) / ratio <= 1)
          by (apply Qle_shift_div_r; lra).
        lra. }
    pose proof
      (make_even_le (Math_round (binary64 (inject_Z MAX_WIDTH / ratio)))).
    unfold MAX_HEIGHT. lia.
  - apply orb_false_iff in Hclamp as [_ Hch]. apply Z.ltb_ge in Hch.
    cbn [snd]. pose proof (make_even_le h Hh). lia.
Qed.

Lemma Math_round_near (q : Q) :
  (q - 0.5 < inject_Z (Math_round q) /\ inject_Z (Math_round q) <= q + 0.5)%Q.
Proof.
  unfold Math_round. pose proof (Qfloor_le (q + 0.5)) as Hle.
  pose proof (Qlt_floor (q + 0.5)) as Hlt. rewrite inject_Z_plus in Hlt.
  change (inject_Z 1) with 1%Q in Hlt. split; lra.
Qed.

Lemma make_even_near n :
  (inject_Z n - 1 <= inject_Z (make_even n)
   /\ inject_Z (make_even n) <= inject_Z n)%Q.
Proof.
  unfold make_even. destruct (Z.rem n 2 =? 0)%Z; [split; lra|].
  replace (n - 1)%Z with (n + -1)%Z by lia.
  rewrite inject_Z_plus. change (inject_Z (-1)) with (-1)%Q. split; lra.
Qed.

(** A whole number above -1 is not negative. *)
Lemma whole_above z : -1 < inject_Z z -> 0 <= inject_Z z.
Proof.
  intros H. change (-1) with (inject_Z (-1)) in H. rewrite <- Zlt_Qlt in H.
  change 0 with (inject_Z 0). rewrite <- Zle_Qle. lia.
Qed.

(** The rounded and evened quotient [c / (a / b)] of the clamping branch,
    computed in double precision, against the exact proportion: for sides
    below 2^32 the two roundings move it by less than the distance between
    two multiples of 1 / (2 a). *)
Lemma proportional_side (c a b t : Z) (q : Q) :
  (0 < a < 2 ^ 32)%Z -> (0 < b)%Z -> (0 < c <= 1920)%Z -> (b <= a)%Z ->
  let E := inject_Z c * inject_Z b / inject_Z a in
  E * (1 - (3 # 2 ^ 53)) <= q -> q <= E * (1 + (3 # 2 ^ 53)) ->
  q - 1.5 < inject_Z t -> inject_Z t <= q + 0.5 ->
  E - 1.5 <= inject_Z t /\ inject_Z t <= E + 0.5.
Proof.
  intros Ha Hb Hc Hba E Hq1 Hq2 Ht1 Ht2.
  assert (HA : 0 < inject_Z a /\ inject_Z a < 4294967296).
  { change 0 with (inject_Z 0). change 4294967296 with (inject_Z (2 ^ 32)).
    rewrite <- !Zlt_Qlt. lia. }
  assert (HB : 0 < inject_Z b /\ inject_Z b <= inject_Z a).
  { change 0 with (inject_Z 0). rewrite <- Zlt_Qlt, <- Zle_Qle. lia. }
  assert (HC : 0 < inject_Z c /\ inject_Z c <= 1920).
  { change 0 with (inject_Z 0). change 1920 with (inject_Z 1920).
    rewrite <- Zlt_Qlt, <- Zle_Qle. lia. }
  assert (HE : E * inject_Z a == inject_Z c * inject_Z b)
    by (unfold E; field; lra).
  assert (HE0 : 0 <= E /\ E <= 1920).
  { split; [unfold E; apply Qle_shift_div_l; nra|].
    unfold E. apply Qle_shift_div_r; nra. }
  change (3 # 2 ^ 53) with (3 # 9007199254740992) in *.
  assert (Hlo : 0 <= inject_Z (2 * t * a + - (2 * c * b) + 3 * a)).
  { apply whole_above.
    repeat (rewrite inject_Z_plus || rewrite inject_Z_mult
            || rewrite inject_Z_opp).
    change (inject_Z 2) with 2. change (inject_Z 3) with 3.
    clearbody E. set (A := inject_Z a) in *. set (B := inject_Z b) in *.
    set (C := inject_Z c) in *. set (T := inject_Z t) in *.
    clearbody A B C T. nra. }
  assert (Hhi : 0 <= inject_Z (2 * c * b + a + - (2 * t * a))).
  { apply whole_above.
    repeat (rewrite inject_Z_plus || rewrite inject_Z_mult
            || rewrite inject_Z_opp).
    change (inject_Z 2) with 2.
    clearbody E. set (A := inject_Z a) in *. set (B := inject_Z b) in *.
    set (C := inject_Z c) in *. set (T := inject_Z t) in *.
    clearbody A B C T. nra. }
  repeat (rewrite inject_Z_plus in Hlo || rewrite inject_Z_mult in Hlo
          || rewrite inject_Z_opp in Hlo).
  repeat (rewrite inject_Z_plus in Hhi || rewrite inject_Z_mult in Hhi
          || rewrite inject_Z_opp in Hhi).
  change (inject_Z 2) with 2 in Hlo, Hhi. change (inject_Z 3) with 3 in Hlo.
  clearbody E. clear -Hlo Hhi HE HA.
  set (A := inject_Z a) in *. set (T := inject_Z t) in *.
  set (B := inject_Z b) in *. set (C := inject_Z c) in *. clearbody A T B C.
  split.
  - assert (H : 0 <= (T - (E - 1.5)) * A) by nra.
    apply nonneg_factor in H; lra.
  - assert (H : 0 <= (E + 0.5 - T) * A) by nra.
    apply nonneg_factor in H; lra.
Qed.

(** Where a source with sides below 2^32 is clamped, the side that is not
    pinned to its bound is the proportional one, computed in double
    precision, rounded and made even: it lies at most a pixel and a half
    below and half a pixel above the exact proportion. *)
Lemma target_dimensions_proportional w h :
  (0 < w < 2 ^ 32)%Z -> (0 < h < 2 ^ 32)%Z ->
  (MAX_WIDTH < w \/ MAX_HEIGHT < h)%Z ->
  let W := inject_Z w in
  let H := inject_Z h in
  let tw := inject_Z (target_dimensions w h).1 in
  let th := inject_Z (target_dimensions w h).2 in
  ((h < w)%Z ->
     tw == 1920 /\ 1920 * H / W - 1.5 <= th /\ th <= 1920 * H / W + 0.5)
  /\ ((w <= h)%Z ->
      th == 1080 /\ 1080 * W / H - 1.5 <= tw /\ tw <= 1080 * W / H + 0.5).
Proof.
  intros Hw Hh Hbig W H tw th. subst tw th. unfold target_dimensions, Number_divide, Number_multiply.
  assert (Hclamp : (MAX_WIDTH <? w)%Z || (MAX_HEIGHT <? h)%Z = true).
  { apply orb_true_iff. destruct Hbig; [left | right]; by apply Z.ltb_lt. }
  rewrite Hclamp. destruct (Z.eqb_spec h 0) as [->|_]; [lia|].
  destruct (ratio_facts w h) as (Hr0 & Hr & HH); [lia | lia|].
  destruct (ratio_facts h w) as (_ & Hr' & HW); [lia | lia|].
  destruct (ratio_rounded w h) as (_ & Htall & _); [lia | lia|].
  fold W H in Hr0, Hr, HH, Hr', HW, Htall |- *.
  change (inject_Z MAX_WIDTH) with 1920.
  change (inject_Z MAX_HEIGHT) with 1080.
  split; intros Hshape.
  - assert (Hx : 1 + (1 # 4294967296) <= W / H).
    { assert (H32 : H < 4294967296).
      { unfold H. change 4294967296 with (inject_Z (2 ^ 32)).
        rewrite <- Zlt_Qlt. lia. }
      assert (HWH : H + 1 <= W).
      { unfold W, H. change 1 with (inject_Z 1).
        rewrite <- inject_Z_plus, <- Zle_Qle. lia. }
      set (x := W / H) in *. clearbody x W H.
      assert (Hx : 1 <= (x - 1) * H) by nra. nra. }
    destruct (binary64_relative (W / H)) as [Hr1 _]; [lra|].
    change (1 # 2 ^ 53) with (1 # 9007199254740992) in Hr1.
    assert (Hlt : Qltb 1 (binary64 (W / H)) = true).
    { apply Qltb_lt. set (x := W / H) in *. clearbody x. nra. }
    rewrite Hlt. cbn [fst snd].
    destruct (quotient_rounded_twice 1920 (W / H)) as [Hq1 Hq2]; [lra | lra|].
    set (q := binary64 (1920 / binary64 (W / H))) in *.
    pose proof (Math_round_near q) as [Hn1 Hn2].
    pose proof (make_even_near (Math_round q)) as [He1 He2].
    assert (HE : 1920 / (W / H) == inject_Z 1920 * H / W)
      by (change (inject_Z 1920) with 1920; field; lra).
    rewrite HE in Hq1, Hq2.
    split; [reflexivity|].
    change (1920 * H / W) with (inject_Z 1920 * H / W).
    apply (proportional_side 1920 w h _ q); [lia | lia | lia | lia | done
      | done | lra | lra].
  - specialize (Htall Hshape).
    assert (Hlt : Qltb 1 (binary64 (W / H)) = false) by (by apply Qltb_ge).
    rewrite Hlt. cbn [fst snd].
    destruct (product_rounded_twice 1080 (W / H)) as [Hq1 Hq2]; [lra | lra|].
    set (q := binary64 (1080 * binary64 (W / H))) in *.
    pose proof (Math_round_near q) as [Hn1 Hn2].
    pose proof (make_even_near (Math_round q)) as [He1 He2].
    assert (HE : 1080 * (W / H) == inject_Z 1080 * W / H)
      by (change (inject_Z 1080) with 1080; field; lra).
    rewrite HE in Hq1, Hq2.
    split; [reflexivity|].
    change (1080 * W / H) with (inject_Z 1080 * W / H).
    apply (proportional_side 1080 h w _ q); [lia | lia | lia | lia | done
      | done | lra | lra].
Qed.

(** *** C2 *)

(** C2.  The claim is that the target dimensions keep the aspect ratio,
    stay within 1920 by 1080 and are even.  They are even, and the width is
    bounded ([target_dimensions_even], [target_width_bounded]); the height
    is bounded for portrait and for 16:9 or wider sources
    ([target_height_bounded]).  A landscape source narrower than 16:9 that
    needs clamping takes the branch [ratio > 1], which fixes the width at
    [MAX_WIDTH] and lets the height follow: the 4:3 source of 2048 by 1536
    gets a canvas of 1920 by 1440. *)
Theorem target_dimensions_exceed_max_height :
  target_dimensions 2048 1536 = (1920, 1440)%Z
  /\ (MAX_HEIGHT < (target_dimensions 2048 1536).2)%Z.
Proof. split; [vm_compute; reflexivity | vm_compute; reflexivity]. Qed.

(** *** The export key determines the choices it is made of *)

Lemma append_inv_head s x y : s ++ x = s ++ y -> x = y.
Proof.
  induction s as [|c s IH]; [done|].
  rewrite !append_String. intros [= H]. by apply IH.
Qed.

Lemma unquote_quote_char c r : unquote_char (quote_char c ++ r) = Some (c, r).
Proof. destruct c as [[] [] [] [] [] [] [] []]; reflexivity. Qed.

Lemma unquote_closing r : unquote_char (String quote r) = None.
Proof. reflexivity. Qed.

Lemma quote_chars_inv s1 s2 r1 r2 :
  quote_chars s1 ++ String quote r1 = quote_chars s2 ++ String quote r2 ->
  s1 = s2 /\ r1 = r2.
Proof.
  revert s2. induction s1 as [|c1 s1 IH]; intros [|c2 s2];
    cbn [quote_chars]; rewrite ?append_Empty, ?append_assoc; intros H.
  - by injection H as ->.
  - apply (f_equal unquote_char) in H.
    by rewrite unquote_closing, unquote_quote_char in H.
  - apply (f_equal unquote_char) in H.
    by rewrite unquote_closing, unquote_quote_char in H.
  - apply (f_equal unquote_char) in H.
    rewrite !unquote_quote_char in H. injection H as -> H.
    by destruct (IH _ H) as [-> ->].
Qed.

(** A quoted string can be told from what follows it. *)
Lemma JSON_string_inv s1 s2 r1 r2 :
  JSON_string s1 ++ r1 = JSON_string s2 ++ r2 -> s1 = s2 /\ r1 = r2.
Proof.
  unfold JSON_string. string_norm. intros [= H]. by apply quote_chars_inv.
Qed.

Lemma all_numeric_uint d : all_numeric (NilEmpty.string_of_uint d) = true.
Proof. induction d; simpl; auto. Qed.

Lemma all_numeric_integer n : all_numeric (JSON_integer n) = true.
Proof.
  unfold JSON_integer. destruct (Z.to_int n); simpl;
    apply all_numeric_uint.
Qed.

(** Two runs of numeric characters, each followed by one that is not. *)
Lemma numeric_run_inv s1 s2 c1 c2 r1 r2 :
  all_numeric s1 = true -> all_numeric s2 = true ->
  numeric c1 = false -> numeric c2 = false ->
  s1 ++ String c1 r1 = s2 ++ String c2 r2 ->
  s1 = s2 /\ String c1 r1 = String c2 r2.
Proof.
  intros H1 H2 Hc1 Hc2. revert s2 H2.
  induction s1 as [|a s1 IH]; intros [|b s2] H2;
    rewrite ?append_Empty, ?append_String; intros [= Ha Hs].
  - by subst.
  - subst. cbn [all_numeric] in H2. by rewrite Hc1 in H2.
  - subst. cbn [all_numeric] in H1. by rewrite Hc2 in H1.
  - subst. cbn [all_numeric] in H1, H2.
    apply andb_true_iff in H1 as [_ H1]. apply andb_true_iff in H2 as [_ H2].
    destruct (IH H1 _ H2 Hs) as [-> ?]. done.
Qed.

Lemma JSON_integer_inj n1 n2 : JSON_integer n1 = JSON_integer n2 -> n1 = n2.
Proof.
  unfold JSON_integer. intros H.
  apply (f_equal NilEmpty.int_of_string) in H.
  rewrite !NilEmpty.isi in H. injection H as H.
  apply (f_equal Z.of_int) in H. by rewrite !DecimalZ.of_to in H.
Qed.

(** A printed integer can be told from the comma or brace after it. *)
Lemma JSON_integer_inv n1 n2 c r1 r2 :
  numeric c = false ->
  JSON_integer n1 ++ String c r1 = JSON_integer n2 ++ String c r2 ->
  n1 = n2 /\ r1 = r2.
Proof.
  intros Hc H.
  apply numeric_run_inv in H as [Hn [= Hr]];
    try apply all_numeric_integer; try done.
  split; [by apply JSON_integer_inj | done].
Qed.

Lemma viewMode_string_inj m1 m2 :
  viewMode_string m1 = viewMode_string m2 -> m1 = m2.
Proof. by destruct m1, m2. Qed.

Lemma format_string_inj f1 f2 : format_string f1 = format_string f2 -> f1 = f2.
Proof. by destruct f1, f2. Qed.

Lemma JSON_style_shape st r :
  JSON_style st ++ r
  = ("{" ++ property "enSize")
    ++ (JSON_integer (enSize st)
        ++ String ","
             (property "cnSize"
              ++ (JSON_integer (cnSize st)
                  ++ String ","
                       (property "enColor"
                        ++ (JSON_string (enColor st)
                            ++ (("," ++ property "cnColor")
                                ++ (JSON_string (cnColor st)
                                    ++ (("," ++ property "verticalPosition")
                                        ++ (JSON_integer (verticalPosition st)
                                            ++ String "}" r))))))))).
Proof. unfold JSON_style. by string_norm. Qed.

Lemma JSON_style_inv st1 st2 r1 r2 :
  JSON_style st1 ++ r1 = JSON_style st2 ++ r2 -> st1 = st2 /\ r1 = r2.
Proof.
  rewrite !JSON_style_shape. intros H.
  apply append_inv_head in H.
  apply JSON_integer_inv in H as [He H]; [|done].
  apply append_inv_head in H.
  apply JSON_integer_inv in H as [Hc H]; [|done].
  apply append_inv_head in H.
  apply JSON_string_inv in H as [Hec H].
  apply append_inv_head in H.
  apply JSON_string_inv in H as [Hcc H].
  apply append_inv_head in H.
  apply JSON_integer_inv in H as [Hv H]; [|done].
  split; [|done]. destruct st1, st2. simpl in *. by subst.
Qed.

Section KeyFacts.

Variable JSON_number : Q -> string.

Lemma export_key_shape url s :
  export_key JSON_number url s
  = ("{" ++ property "videoUrl" ++ JSON_string url
     ++ "," ++ property "subtitles"
     ++ JSON_subtitles JSON_number (subtitles s)
     ++ "," ++ property "viewMode")
    ++ (JSON_string (viewMode_string (viewMode s))
        ++ (("," ++ property "subStyle")
            ++ (JSON_style (subStyle s)
                ++ (("," ++ property "exportFormat")
                    ++ (JSON_string (format_string (exportFormat s))
                        ++ "}"))))).
Proof. unfold export_key. f_equal. Qed.

(** Requests for one source and one segment list have the same key only if
    they agree in view mode, style and format. *)
Lemma export_key_inj url s1 s2 :
  subtitles s1 = subtitles s2 ->
  export_key JSON_number url s1 = export_key JSON_number url s2 ->
  viewMode s1 = viewMode s2 /\ subStyle s1 = subStyle s2
  /\ exportFormat s1 = exportFormat s2.
Proof.
  intros Hsubs. rewrite !export_key_shape, Hsubs. intros H.
  apply append_inv_head in H.
  apply JSON_string_inv in H as [Hm H].
  apply append_inv_head in H.
  apply JSON_style_inv in H as [Hst H].
  apply append_inv_head in H.
  apply JSON_string_inv in H as [Hf _].
  split; [by apply viewMode_string_inj|].
  split; [done | by apply format_string_inj].
Qed.

End KeyFacts.

(** *** The handlers *)

Section CacheFacts.

Variable JSON_number : Q -> string.
Variable isTypeSupported : string -> bool.

Let request := handleExportBurned JSON_number isTypeSupported.

(** A request that finds its key in the cache. *)
Lemma request_hit w h a url c :
  videoData_url (settings a) = Some url -> isExporting a = false ->
  cache_get (cachedExportRef a) (export_key JSON_number url (settings a))
  = Some c ->
  request w h a
  = mkApp (settings a) false None (cachedExportRef a) (mediaRecorderRef a)
      (offlineVideoRef a) (exportAudioCtxRef a) (job a)
      (effects a ++ [Download (blob c) (fileName c)]).
Proof.
  intros Hurl Hidle Hget. unfold request, handleExportBurned.
  by rewrite Hurl, Hidle, Hget.
Qed.

(** A request that does not, on a runtime that supports a type. *)
Lemma request_miss w h a url mime :
  videoData_url (settings a) = Some url -> isExporting a = false ->
  cache_get (cachedExportRef a) (export_key JSON_number url (settings a))
  = None ->
  List.find isTypeSupported (preferredMimes (exportFormat (settings a)))
  = Some mime ->
  request w h a
  = mkApp (settings a) true None (cachedExportRef a) true true true
      (Some (mkJob (export_key JSON_number url (settings a)) mime
               (videoData_stem (settings a) ++ "_subs."
                ++ format_string (exportFormat (settings a)))
               (target_dimensions w h) [] (mkVideo false true true) false
               (mkRecorder recording true true)))
      (effects a
       ++ [CreateVideoElement; CreateAudioContext; CaptureStream;
           NewMediaRecorder mime]).
Proof.
  intros Hurl Hidle Hget Hmime. unfold request, handleExportBurned.
  by rewrite Hurl, Hidle, Hget, Hmime.
Qed.

(** Chunks change the chunks of the job and nothing else. *)
Lemma receive_spec datas a j :
  job a = Some j -> exists chunks', receive datas a = with_chunks chunks' j a.
Proof.
  revert a j. induction datas as [|data datas IH]; intros a j Hj.
  - exists (chunks j). destruct a, j. simpl in *. by subst.
  - change (receive (data :: datas) a)
      with (receive datas (dispatch (DataAvailable data) a)).
    unfold dispatch, recorder_ondataavailable. rewrite Hj.
    destruct (0 <? String.length data)%nat.
    + edestruct (IH (with_job (mkJob (currentExportKey j) (mimeType j)
                     (job_fileName j) (canvas_size j) (chunks j ++ [data])
                     (offlineVideo j) (audioCtx_closed j) (recorder j)) a))
        as [chunks' Heq]; [reflexivity|].
      exists chunks'. rewrite Heq. reflexivity.
    + by apply IH.
Qed.

Lemma cache_get_Some cache k c :
  cache_get cache k = Some c <-> cache = Some c /\ key c = k.
Proof.
  unfold cache_get. destruct cache as [c'|]; [|by split; [|intros []]].
  destruct (String.eqb_spec (key c') k) as [Heq|Hne].
  - split; [by intros [= ->] | by intros [[= ->] _]].
  - split; [done | intros [[= ->] ?]; done].
Qed.

Lemma constructions_app a es :
  constructions (mkApp (settings a) (isExporting a) (exportResult a)
                   (cachedExportRef a) (mediaRecorderRef a)
                   (offlineVideoRef a) (exportAudioCtxRef a) (job a)
                   (effects a ++ es))
  = (constructions a + length (List.filter is_construction es))%nat.
Proof.
  unfold constructions. cbn [effects].
  by rewrite List.filter_app, length_app.
Qed.

(** *** C6 *)

(** C6.  (1) A request that misses, on a runtime that supports a type,
    starts a job; once the job has received its chunks and stopped, the
    cache holds an entry under the key of that request, and a second request
    with the same settings is a hit: it offers the cached artifact and
    constructs nothing.  (2) If the cache holds an entry made for settings
    that differ from the present ones in view mode, style or format (same
    source and segments), the request is a miss: the cache gives nothing
    and the request builds a new job, or alerts when no type is supported.
    (3) The stop handler of a job puts the entry of that job in the cache
    whatever the cache held. *)
Theorem export_cache :
  (forall a url mime datas w h w' h',
     videoData_url (settings a) = Some url -> isExporting a = false ->
     cache_get (cachedExportRef a) (export_key JSON_number url (settings a))
     = None ->
     List.find isTypeSupported (preferredMimes (exportFormat (settings a)))
     = Some mime ->
     let finished :=
       dispatch Stop (drawFrame_at_end (receive datas (request w h a))) in
     let again := request w' h' finished in
     exists c,
       cachedExportRef finished = Some c
       /\ key c = export_key JSON_number url (settings a)
       /\ effects again
          = (effects finished ++ [Download (blob c) (fileName c)])%list
       /\ constructions again = constructions finished
       /\ job again = job finished /\ isExporting again = false)
  /\ (forall a url c earlier w h,
        videoData_url (settings a) = Some url -> isExporting a = false ->
        cachedExportRef a = Some c ->
        key c = export_key JSON_number url earlier ->
        subtitles earlier = subtitles (settings a) ->
        (viewMode earlier <> viewMode (settings a)
         \/ subStyle earlier <> subStyle (settings a)
         \/ exportFormat earlier <> exportFormat (settings a)) ->
        cache_get (cachedExportRef a)
          (export_key JSON_number url (settings a)) = None
        /\ match List.find isTypeSupported
                  (preferredMimes (exportFormat (settings a))) with
           | Some mime =>
               isExporting (request w h a) = true
               /\ constructions (request w h a) = (constructions a + 4)%nat
           | None => effects (request w h a) = (effects a ++ [Alert])%list
           end)
  /\ (forall a j,
        job a = Some j ->
        cachedExportRef (recorder_onstop a)
        = Some (mkEntry (currentExportKey j) (mkBlob (chunks j) (mimeType j))
                  (job_fileName j))).
Proof.
  split; [|split].
  - intros a url mime datas w h w' h' Hurl Hidle Hget Hmime finished again.
    subst again finished.
    rewrite (request_miss w h a url mime Hurl Hidle Hget Hmime).
    edestruct receive_spec as [chunks' ->]; [reflexivity|].
    unfold with_chunks, drawFrame_at_end, dispatch, with_job, with_recorder,
      recorder_onstop, cleanup, release_media, release_video.
    cbn -[export_key target_dimensions String.append].
    eexists. split; [reflexivity|]. split; [reflexivity|].
    erewrite request_hit; cycle 1.
    + exact Hurl.
    + reflexivity.
    + cbn [cachedExportRef settings cache_get key].
      by rewrite String.eqb_refl.
    + cbn [effects job isExporting blob fileName]. split; [reflexivity|].
      split; [|done]. unfold constructions. cbn [effects].
      rewrite !List.filter_app, !length_app. simpl. lia.
  - intros a url c earlier w h Hurl Hidle Hc Hkey Hsubs Hdiff.
    assert (Hget : cache_get (cachedExportRef a)
                     (export_key JSON_number url (settings a)) = None).
    { destruct (cache_get _ _) as [c'|] eqn:Hget; [|done].
      apply cache_get_Some in Hget as [Hc' Hk]. rewrite Hc in Hc'.
      injection Hc' as <-. rewrite Hkey in Hk.
      apply export_key_inj in Hk as (? & ? & ?); [|done].
      destruct Hdiff as [?|[?|?]]; done. }
    split; [done|].
    unfold request, handleExportBurned. rewrite Hurl, Hidle, Hget.
    destruct (List.find isTypeSupported _) as [mime|]; [|done].
    cbn [isExporting]. split; [done|]. unfold constructions. cbn [effects].
    rewrite List.filter_app, length_app. simpl. lia.
  - intros a j Hj. unfold recorder_onstop. by rewrite Hj.
Qed.

End CacheFacts.

(** An export of [ex_settings] from the mounted component, with two chunks,
    followed by the same request. *)
Lemma export_cache_witness :
  let a := mounted ex_settings in
  let request := handleExportBurned ex_JSON_number ex_isTypeSupported in
  let finished :=
    dispatch Stop
      (drawFrame_at_end (receive ["one"; "two"] (request 1280%Z 720%Z a))) in
  exists c,
    cachedExportRef finished = Some c
    /\ key c = export_key ex_JSON_number "blob:video" ex_settings
    /\ effects (request 1280%Z 720%Z finished)
       = (effects finished ++ [Download (blob c) (fileName c)])%list
    /\ constructions (request 1280%Z 720%Z finished) = constructions finished.
Proof.
  intros a request finished.
  destruct (proj1 (export_cache ex_JSON_number ex_isTypeSupported)
              a "blob:video" "video/mp4;codecs=avc1.640034,mp4a.40.2"
              ["one"; "two"] 1280%Z 720%Z 1280%Z 720%Z
              eq_refl eq_refl eq_refl eq_refl)
    as (c & Hc & Hk & He & Hn & _).
  exists c. repeat split; assumption.
Defined.

(** *** Cancellation and errors *)

(** [cancelExport] on a job under way: the cache and the result shown are
    untouched; the recorder is stopped and holds no handler; the video is
    paused, without source and out of the document; the audio context is
    closed; the refs to both are null. *)
Lemma cancelExport_releases a j :
  job a = Some j -> mediaRecorderRef a = true -> offlineVideoRef a = true ->
  exportAudioCtxRef a = true ->
  let a' := cancelExport a in
  cachedExportRef a' = cachedExportRef a
  /\ exportResult a' = exportResult a
  /\ isExporting a' = false
  /\ option_map recorder (job a') = Some (mkRecorder inactive false false)
  /\ option_map offlineVideo (job a') = Some (mkVideo true false false)
  /\ option_map audioCtx_closed (job a') = Some true
  /\ offlineVideoRef a' = false /\ exportAudioCtxRef a' = false
  /\ dispatch Stop a' = a' /\ dispatch Error a' = a'.
Proof.
  intros Hj Hr Hv Ha. unfold cancelExport. rewrite Hj, Hr, Hv, Ha.
  repeat split.
Qed.

(** The error handler on a job under way: the failure is shown, the cache
    is untouched, video and audio context are released; the recorder is
    left as it was, in its state and with its handlers. *)
Lemma recorder_onerror_spec a j :
  job a = Some j -> onerror (recorder j) = true ->
  offlineVideoRef a = true -> exportAudioCtxRef a = true ->
  let a' := dispatch Error a in
  cachedExportRef a' = cachedExportRef a
  /\ exportResult a' = Some false
  /\ isExporting a' = false
  /\ option_map recorder (job a') = Some (recorder j)
  /\ option_map offlineVideo (job a') = Some (mkVideo true false false)
  /\ option_map audioCtx_closed (job a') = Some true.
Proof.
  intros Hj He Hv Ha. unfold dispatch, recorder_onerror, cleanup.
  rewrite Hj, He. cbn [job offlineVideoRef exportAudioCtxRef option_map].
  rewrite Hv, Ha. repeat split.
Qed.

(** A stop event after the error handler: the stop handler, still on the
    recorder, stores what was recorded and shows success. *)
Lemma stop_after_error a j :
  job a = Some j -> onerror (recorder j) = true -> onstop (recorder j) = true ->
  let a' := dispatch Stop (dispatch Error a) in
  cachedExportRef a'
  = Some (mkEntry (currentExportKey j) (mkBlob (chunks j) (mimeType j))
            (job_fileName j))
  /\ exportResult a' = Some true.
Proof.
  intros Hj He Hs. unfold dispatch at 2. rewrite Hj, He.
  unfold recorder_onerror, cleanup, dispatch, recorder_onstop.
  cbn [job option_map]. rewrite Hj.
  cbn [option_map release_media recorder onstop]. rewrite Hs.
  cbn [job cleanup]. unfold cleanup. cbn. done.
Qed.

(** *** C8 *)

(** C8.  The claim is that a recorder error and a cancellation both leave
    the cache as it was and release video, audio context and recorder, the
    error alone being shown as a failure.  It holds of [cancelExport]
    ([cancelExport_releases]), which detaches [onstop] and [onerror] and
    stops the recorder before it releases the rest.  The error handler does
    neither: on an export under way with one chunk received, it shows the
    failure and releases video and audio context but leaves the recorder
    recording with [onstop] attached, and the stop event a recorder fires
    once it has failed then stores the partial recording in the cache and
    shows success. *)
Theorem recorder_error_keeps_onstop :
  let failed := dispatch Error ex_recording in
  let stopped := dispatch Stop failed in
  let cancelled := cancelExport ex_recording in
  (exportResult failed = Some false
   /\ cachedExportRef failed = None
   /\ option_map offlineVideo (job failed) = Some (mkVideo true false false)
   /\ option_map audioCtx_closed (job failed) = Some true
   /\ option_map recorder (job failed) = Some (mkRecorder recording true true))
  /\ (cachedExportRef stopped
      = Some (mkEntry
                (export_key ex_JSON_number "blob:video" ex_settings)
                (mkBlob ["chunk"] "video/mp4;codecs=avc1.640034,mp4a.40.2")
                "clip_subs.mp4")
      /\ exportResult stopped = Some true)
  /\ (cachedExportRef cancelled = None
      /\ exportResult cancelled = None
      /\ option_map recorder (job cancelled)
         = Some (mkRecorder inactive false false)
      /\ dispatch Stop cancelled = cancelled).
Proof. vm_compute. repeat split. Qed.

End ExportFacts.

(** ** Burned-video export: dimensions, jobs and the cache *)

Section ExportReach.

Import Double BurnedExport.

Local Open Scope string_scope.

(** X19.  What the target dimensions do keep.  For every source, both are
    even and not negative and the width is at most 1920.  The height is at
    most 1080 when the source is no wider than tall or at least 16:9 wide.
    A source within 1920 by 1080 keeps its size, less one pixel on an odd
    side. *)
Theorem target_dimensions_fit w h :
  (0 <= w)%Z -> (0 <= h)%Z ->
  let '(tw, th) := target_dimensions w h in
  (Z.even tw = true /\ Z.even th = true)
  /\ (0 <= tw <= MAX_WIDTH)%Z /\ (0 <= th)%Z
  /\ ((w <= h \/ 16 * h <= 9 * w)%Z -> (th <= MAX_HEIGHT)%Z)
  /\ ((w <= MAX_WIDTH)%Z -> (h <= MAX_HEIGHT)%Z ->
      (w - 1 <= tw <= w)%Z /\ (h - 1 <= th <= h)%Z).
Proof.
  intros Hw Hh.
  pose proof (target_dimensions_even w h) as Heven.
  pose proof (target_width_bounded w h Hw Hh) as Hwidth.
  pose proof (target_height_bounded w h Hw Hh) as Hheight.
  assert (Hnn : (0 <= (target_dimensions w h).2)%Z).
  { unfold target_dimensions, Number_divide, Number_multiply.
    destruct ((MAX_WIDTH <? w)%Z || (MAX_HEIGHT <? h)%Z).
    - destruct (Z.eqb_spec h 0) as [->|Hne]; [done|].
      destruct (ratio_rounded w h Hw) as (Hr0 & _ & _); [lia|].
      destruct (Qltb 1 (binary64 (inject_Z w / inject_Z h))) eqn:Hlt; [|done].
      apply Qltb_lt in Hlt. cbn [snd]. apply make_even_le.
      apply Math_round_nonneg. apply binary64_nonneg.
      change (inject_Z MAX_WIDTH) with 1920%Q.
      apply Qle_shift_div_l; lra.
    - cbn [snd]. by apply make_even_le. }
  assert (Hsmall : (w <= MAX_WIDTH)%Z -> (h <= MAX_HEIGHT)%Z ->
                   target_dimensions w h = (make_even w, make_even h)).
  { intros H1 H2. unfold target_dimensions, Number_divide, Number_multiply.
    apply Z.ltb_ge in H1, H2. by rewrite H1, H2. }
  destruct (target_dimensions w h) as [tw th]. cbn [fst snd] in *.
  split; [done|]. split; [done|]. split; [done|]. split; [intros; lia|].
  intros H1 H2. specialize (Hsmall H1 H2). injection Hsmall as -> ->.
  pose proof (make_even_le w Hw). pose proof (make_even_le h Hh).
  unfold make_even in *.
  destruct (Z.rem w 2 =? 0)%Z, (Z.rem h 2 =? 0)%Z; lia.
Qed.

Lemma target_dimensions_fit_witness :
  ((0 <= 3840)%Z /\ (0 <= 2160)%Z)
  /\ target_dimensions 3840 2160 = (1920, 1080)%Z
  /\ (Z.even 1920 = true /\ Z.even 1080 = true)
  /\ (0 <= 1920 <= MAX_WIDTH)%Z.
Proof.
  assert (H0 : (0 <= 3840)%Z) by lia. assert (H1 : (0 <= 2160)%Z) by lia.
  pose proof (target_dimensions_fit 3840 2160 H0 H1) as H.
  split; [by split|]. split; [vm_compute; reflexivity|].
  split; [exact (proj1 H) | exact (proj1 (proj2 H))].
Defined.

(** X20.  Where a source is scaled down its proportions are kept up to
    rounding.  For sides below 2^32, as those of a video are, a source
    wider than tall gets the width 1920 and a height at most a pixel and a
    half below and half a pixel above the proportional height; a source no
    wider than tall gets the height 1080 and a width within the same
    margins of the proportional width.  The quotients and the product are
    those of double precision: the source of 1280 by 1093 gets the height
    1638, a pixel and a half below its proportion of 1639.5. *)
Theorem target_dimensions_keep_ratio w h :
  (0 < w < 2 ^ 32)%Z -> (0 < h < 2 ^ 32)%Z ->
  (MAX_WIDTH < w \/ MAX_HEIGHT < h)%Z ->
  let W := inject_Z w in
  let H := inject_Z h in
  let tw := inject_Z (target_dimensions w h).1 in
  let th := inject_Z (target_dimensions w h).2 in
  ((h < w)%Z ->
     (tw == 1920 /\ 1920 * H / W - 1.5 <= th /\ th <= 1920 * H / W + 0.5)%Q)
  /\ ((w <= h)%Z ->
      (th == 1080 /\ 1080 * W / H - 1.5 <= tw /\ tw <= 1080 * W / H + 0.5)%Q).
Proof. apply target_dimensions_proportional. Qed.

Lemma target_dimensions_keep_ratio_witness :
  target_dimensions 1280 1093 = (1920, 1638)%Z
  /\ (1920 * inject_Z 1093 / inject_Z 1280 - 1.5
      <= inject_Z (target_dimensions 1280 1093).2)%Q.
Proof.
  assert (Hw : (0 < 1280 < 2 ^ 32)%Z) by lia.
  assert (Hh : (0 < 1093 < 2 ^ 32)%Z) by lia.
  assert (Hbig : (MAX_WIDTH < 1280 \/ MAX_HEIGHT < 1093)%Z)
    by (right; reflexivity).
  assert (Hshape : (1093 < 1280)%Z) by lia.
  destruct (target_dimensions_keep_ratio 1280 1093 Hw Hh Hbig)
    as [Hwide _].
  destruct (Hwide Hshape) as (H1 & H2 & _).
  split; [vm_compute; reflexivity | exact H2].
Defined.

(** *** Cancellation *)

(** X21.  A cancelled export stays cancelled.  Once [cancelExport] has run
    on a component that holds a recorder, no event the recorder may still
    fire — the data of its last chunk, its stop, an error — changes the
    cache, the result notice, the busy flag or what was offered for
    download; the refs to the video and to the audio context stay empty. *)
Theorem cancelled_export_stays_cancelled events a :
  mediaRecorderRef a = true ->
  let a' := dispatch_all events (cancelExport a) in
  cachedExportRef a' = cachedExportRef a
  /\ exportResult a' = exportResult a
  /\ isExporting a' = false
  /\ effects a' = effects a
  /\ offlineVideoRef a' = false /\ exportAudioCtxRef a' = false.
Proof.
  intros Href.
  assert (Hinv : forall b,
             (forall j, job b = Some j ->
                        onstop (recorder j) = false
                        /\ onerror (recorder j) = false) ->
             forall e,
               (forall j, job (dispatch e b) = Some j ->
                          onstop (recorder j) = false
                          /\ onerror (recorder j) = false)
               /\ cachedExportRef (dispatch e b) = cachedExportRef b
               /\ exportResult (dispatch e b) = exportResult b
               /\ isExporting (dispatch e b) = isExporting b
               /\ effects (dispatch e b) = effects b
               /\ offlineVideoRef (dispatch e b) = offlineVideoRef b
               /\ exportAudioCtxRef (dispatch e b) = exportAudioCtxRef b).
  { intros b Hb e. unfold dispatch.
    destruct (job b) as [j|] eqn:Hj; [|by rewrite Hj].
    destruct (Hb j eq_refl) as [Hs He].
    destruct e as [data| |].
    - unfold recorder_ondataavailable. rewrite Hj.
      destruct (0 <? String.length data)%nat; [|by rewrite Hj].
      cbn. split; [|done]. by intros ? [= <-].
    - rewrite Hs. split; [|done]. intros j' Hj'. apply Hb. congruence.
    - rewrite He. split; [|done]. intros j' Hj'. apply Hb. congruence. }
  assert (Hall : forall events b,
             (forall j, job b = Some j ->
                        onstop (recorder j) = false
                        /\ onerror (recorder j) = false) ->
             cachedExportRef (dispatch_all events b) = cachedExportRef b
             /\ exportResult (dispatch_all events b) = exportResult b
             /\ isExporting (dispatch_all events b) = isExporting b
             /\ effects (dispatch_all events b) = effects b
             /\ offlineVideoRef (dispatch_all events b) = offlineVideoRef b
             /\ exportAudioCtxRef (dispatch_all events b)
                = exportAudioCtxRef b).
  { clear events. induction events as [|e events IH]; intros b Hb; [done|].
    destruct (Hinv b Hb e) as (Hb' & H1 & H2 & H3 & H4 & H5 & H6).
    destruct (IH (dispatch e b) Hb') as (G1 & G2 & G3 & G4 & G5 & G6).
    unfold dispatch_all in *. cbn [fold_left].
    rewrite G1, G2, G3, G4, G5, G6. done. }
  cbv zeta. destruct (Hall events (cancelExport a)) as (H1 & H2 & H3 & H4 & H5 & H6).
  { unfold cancelExport. cbn [job]. rewrite Href.
    destruct (job a) as [j|]; [|done]. cbn. by intros ? [= <-]. }
  rewrite H1, H2, H3, H4, H5, H6. done.
Qed.

Lemma cancelled_export_stays_cancelled_witness :
  let a' :=
    dispatch_all [DataAvailable "tail"; Stop; Error]
      (cancelExport ex_recording) in
  cachedExportRef a' = None /\ exportResult a' = None
  /\ isExporting a' = false.
Proof.
  assert (Href : mediaRecorderRef ex_recording = true) by reflexivity.
  destruct (cancelled_export_stays_cancelled
              [DataAvailable "tail"; Stop; Error] ex_recording Href)
    as (H1 & H2 & H3 & _).
  cbv zeta. split; [exact H1|]. split; [exact H2 | exact H3].
Defined.

(** *** Jobs *)

Section Jobs.

Variable JSON_number : Q -> string.
Variable isTypeSupported : string -> bool.

Let request := handleExportBurned JSON_number isTypeSupported.

Lemma export_key_url url1 url2 s1 s2 :
  export_key JSON_number url1 s1 = export_key JSON_number url2 s2 ->
  url1 = url2.
Proof.
  unfold export_key. rewrite !append_assoc. intros H.
  apply append_inv_head in H. apply append_inv_head in H.
  by apply JSON_string_inv in H as [? _].
Qed.

(** X22.  A cached export is never offered for another video.  The key
    holds the object URL of the video: when the cache holds an entry made
    for one URL and the video loaded has another, whatever the segments,
    the view mode, the style and the format, the cache gives nothing and
    the request builds a new job, or alerts when the runtime supports no
    type. *)
Theorem cache_misses_other_video a url url0 earlier c w h :
  videoData_url (settings a) = Some url -> isExporting a = false ->
  cachedExportRef a = Some c ->
  key c = export_key JSON_number url0 earlier ->
  url <> url0 ->
  cache_get (cachedExportRef a) (export_key JSON_number url (settings a))
  = None
  /\ match List.find isTypeSupported
            (preferredMimes (exportFormat (settings a))) with
     | Some mime =>
         effects (request w h a)
         = (effects a
            ++ [CreateVideoElement; CreateAudioContext; CaptureStream;
                NewMediaRecorder mime])%list
     | None => effects (request w h a) = (effects a ++ [Alert])%list
     end.
Proof.
  intros Hurl Hidle Hc Hkey Hdiff.
  assert (Hget : cache_get (cachedExportRef a)
                   (export_key JSON_number url (settings a)) = None).
  { destruct (cache_get _ _) as [c'|] eqn:Hget; [|done].
    apply cache_get_Some in Hget as [Hc' Hk]. rewrite Hc in Hc'.
    injection Hc' as <-. rewrite Hkey in Hk.
    apply export_key_url in Hk. by subst. }
  split; [done|]. unfold request, handleExportBurned.
  rewrite Hurl, Hidle, Hget. by destruct (List.find isTypeSupported _).
Qed.

(** The chunks a job holds after the recorder has delivered [datas]: those
    it held, then the ones of [datas] that are not empty, in order. *)
Lemma receive_chunks datas a j :
  job a = Some j ->
  receive datas a
  = with_chunks (chunks j ++ List.filter has_data datas) j a.
Proof.
  revert a j. induction datas as [|data datas IH]; intros a j Hj.
  - cbn [List.filter]. rewrite app_nil_r.
    destruct a, j. simpl in *. by subst.
  - change (receive (data :: datas) a)
      with (receive datas (dispatch (DataAvailable data) a)).
    unfold dispatch, recorder_ondataavailable. rewrite Hj.
    cbn [List.filter]. unfold has_data at 1.
    destruct (0 <? String.length data)%nat.
    + erewrite IH; [|reflexivity]. cbn [chunks].
      unfold with_chunks, with_job. cbn. by rewrite <- app_assoc.
    + by apply IH.
Qed.

(** X23.  What a completed export leaves.  A request that misses the cache
    on a runtime that supports a type, followed by the chunks of the
    recorder, the end of the source and the stop of the recorder, caches and
    offers for download one blob: the chunks that were not empty, in the
    order received, under the type the recorder was made with, named after
    the file and the format chosen.  The notice reports success, the
    component is no longer busy, the off-screen video is released and the
    audio context closed. *)
Theorem completed_export_holds_chunks a url mime datas w h :
  videoData_url (settings a) = Some url -> isExporting a = false ->
  cache_get (cachedExportRef a) (export_key JSON_number url (settings a))
  = None ->
  List.find isTypeSupported (preferredMimes (exportFormat (settings a)))
  = Some mime ->
  let finished :=
    dispatch Stop (drawFrame_at_end (receive datas (request w h a))) in
  let blob := mkBlob (List.filter has_data datas) mime in
  let name :=
    videoData_stem (settings a) ++ "_subs."
    ++ format_string (exportFormat (settings a)) in
  cachedExportRef finished
  = Some (mkEntry (export_key JSON_number url (settings a)) blob name)
  /\ effects finished
     = (effects a
        ++ [CreateVideoElement; CreateAudioContext; CaptureStream;
            NewMediaRecorder mime; Download blob name])%list
  /\ exportResult finished = Some true
  /\ isExporting finished = false
  /\ option_map offlineVideo (job finished) = Some (mkVideo true false false)
  /\ option_map audioCtx_closed (job finished) = Some true.
Proof.
  intros Hurl Hidle Hget Hmime finished blob name. subst finished blob name.
  unfold request.
  rewrite (request_miss JSON_number isTypeSupported w h a url mime
             Hurl Hidle Hget Hmime).
  erewrite receive_chunks; [|reflexivity].
  unfold with_chunks, drawFrame_at_end, dispatch, with_job, with_recorder,
    recorder_onstop, cleanup, release_media, release_video.
  cbn -[export_key target_dimensions String.append List.filter].
  rewrite <- app_assoc. done.
Qed.

(** X24.  A new file forgets the cached export.  After
    [processSelectedFile] and the cleanup of the effect on the video URL, on
    a component that is not exporting, the cache is empty and a request
    never offers a cached artifact: it builds a new job, or alerts when the
    runtime supports no type. *)
Theorem new_file_forgets_export a url stem w h :
  isExporting a = false ->
  let b := videoUrl_cleanup (processSelectedFile url stem a) in
  cachedExportRef b = None
  /\ match List.find isTypeSupported
            (preferredMimes (exportFormat (settings a))) with
     | Some mime =>
         effects (request w h b)
         = (effects a
            ++ [CreateVideoElement; CreateAudioContext; CaptureStream;
                NewMediaRecorder mime])%list
         /\ isExporting (request w h b) = true
     | None => effects (request w h b) = (effects a ++ [Alert])%list
     end.
Proof.
  intros Hidle b. subst b. split; [done|].
  unfold request, handleExportBurned, videoUrl_cleanup, processSelectedFile.
  cbn [settings videoData_url isExporting cachedExportRef cache_get
       exportFormat effects].
  rewrite Hidle. by destruct (List.find isTypeSupported _).
Qed.

(** X25.  The file keeps the extension asked for, whatever is recorded.
    When MP4 is chosen on a runtime that supports none of the three MP4
    types of the preference list but does support plain WebM, a request
    that misses the cache makes the recorder with a WebM type — the first
    of the two WebM types that is supported — and names the download
    with the extension [.mp4]. *)
Theorem fallback_keeps_requested_extension a url w h :
  videoData_url (settings a) = Some url -> isExporting a = false ->
  cache_get (cachedExportRef a) (export_key JSON_number url (settings a))
  = None ->
  exportFormat (settings a) = mp4 ->
  isTypeSupported "video/mp4;codecs=avc1.640034,mp4a.40.2" = false ->
  isTypeSupported "video/mp4;codecs=avc1.42E01E,mp4a.40.2" = false ->
  isTypeSupported "video/mp4" = false ->
  isTypeSupported "video/webm" = true ->
  exists j,
    job (request w h a) = Some j
    /\ mimeType j
       = (if isTypeSupported "video/webm;codecs=vp9,opus"
          then "video/webm;codecs=vp9,opus" else "video/webm")
    /\ job_fileName j = videoData_stem (settings a) ++ "_subs.mp4"
    /\ effects (request w h a)
       = (effects a
          ++ [CreateVideoElement; CreateAudioContext; CaptureStream;
              NewMediaRecorder (mimeType j)])%list.
Proof.
  intros Hurl Hidle Hget Hfmt H1 H2 H3 H4.
  assert (Hfind :
            List.find isTypeSupported
              (preferredMimes (exportFormat (settings a)))
            = Some (if isTypeSupported "video/webm;codecs=vp9,opus"
                    then "video/webm;codecs=vp9,opus" else "video/webm")).
  { rewrite Hfmt. cbn [preferredMimes find]. rewrite H1, H2, H3.
    destruct (isTypeSupported "video/webm;codecs=vp9,opus"); [done|].
    by rewrite H4. }
  unfold request.
  rewrite (request_miss JSON_number isTypeSupported w h a url _
             Hurl Hidle Hget Hfind).
  eexists. split; [reflexivity|]. cbn [mimeType job_fileName effects].
  split; [done|]. split; [by rewrite Hfmt | done].
Qed.

End Jobs.

Lemma cache_misses_other_video_witness :
  cache_get (cachedExportRef ex_other_video)
    (export_key ex_JSON_number "blob:other" (settings ex_other_video))
  = None.
Proof.
  assert (Hne : "blob:other" <> "blob:video") by discriminate.
  exact (proj1 (cache_misses_other_video ex_JSON_number ex_isTypeSupported
                  ex_other_video "blob:other" "blob:video" ex_settings
                  (mkEntry
                     (export_key ex_JSON_number "blob:video" ex_settings)
                     (mkBlob ["chunk"]
                        "video/mp4;codecs=avc1.640034,mp4a.40.2")
                     "clip_subs.mp4")
                  1280 720 eq_refl eq_refl eq_refl eq_refl Hne)).
Defined.

Lemma completed_export_holds_chunks_witness :
  let finished :=
    dispatch Stop
      (drawFrame_at_end
         (receive ["one"; ""; "two"]
            (handleExportBurned ex_JSON_number ex_isTypeSupported 1280 720
               (mounted ex_settings)))) in
  option_map blob (cachedExportRef finished)
  = Some (mkBlob ["one"; "two"] "video/mp4;codecs=avc1.640034,mp4a.40.2")
  /\ option_map fileName (cachedExportRef finished) = Some "clip_subs.mp4".
Proof.
  assert (Hurl : videoData_url (settings (mounted ex_settings))
                 = Some "blob:video") by reflexivity.
  assert (Hidle : isExporting (mounted ex_settings) = false) by reflexivity.
  assert (Hget : cache_get (cachedExportRef (mounted ex_settings))
                   (export_key ex_JSON_number "blob:video"
                      (settings (mounted ex_settings))) = None)
    by reflexivity.
  assert (Hmime : List.find ex_isTypeSupported
                    (preferredMimes (exportFormat (settings (mounted ex_settings))))
                  = Some "video/mp4;codecs=avc1.640034,mp4a.40.2")
    by reflexivity.
  destruct (completed_export_holds_chunks ex_JSON_number ex_isTypeSupported
              (mounted ex_settings) "blob:video" _ ["one"; ""; "two"]
              1280 720 Hurl Hidle Hget Hmime) as (Hc & _).
  cbv zeta. rewrite Hc. split; reflexivity.
Defined.

Lemma new_file_forgets_export_witness :
  let b := videoUrl_cleanup (processSelectedFile "blob:next" "next"
                               (cancelExport ex_recording)) in
  cachedExportRef b = None
  /\ isExporting
       (handleExportBurned ex_JSON_number ex_isTypeSupported 640 360 b)
     = true.
Proof.
  assert (Hidle : isExporting (cancelExport ex_recording) = false)
    by reflexivity.
  destruct (new_file_forgets_export ex_JSON_number ex_isTypeSupported
              (cancelExport ex_recording) "blob:next" "next" 640 360 Hidle)
    as (Hc & _ & Hbusy).
  cbv zeta. split; [exact Hc | exact Hbusy].
Defined.

Lemma fallback_keeps_requested_extension_witness :
  exists j,
    job (handleExportBurned ex_JSON_number ex_webm_only 1280 720
           (mounted ex_settings)) = Some j
    /\ mimeType j = "video/webm;codecs=vp9,opus"
    /\ job_fileName j = "clip_subs.mp4".
Proof.
  destruct (fallback_keeps_requested_extension ex_JSON_number ex_webm_only
              (mounted ex_settings) "blob:video" 1280 720
              eq_refl eq_refl eq_refl eq_refl eq_refl eq_refl eq_refl eq_refl)
    as (j & Hj & Hm & Hn & _).
  exists j. split; [exact Hj|]. split; [exact Hm | exact Hn].
Defined.

(** *** Drawing the captions *)

Lemma put_together_app l1 l2 :
  put_together (l1 ++ l2) = put_together l1 ++ put_together l2.
Proof.
  induction l1 as [|x l1 IH]; [done|].
  cbn [app put_together foldr]. fold (put_together (l1 ++ l2)).
  fold (put_together l1). by rewrite IH, append_assoc.
Qed.

(** Splitting at the spaces and putting a space after every piece gives
    the text back, with one more space. *)
Lemma split_put_together text :
  put_together (map (fun word => word ++ " ") (split " " text)) = text ++ " ".
Proof.
  induction text as [|c rest IH]; [done|]. cbn [split].
  destruct (Ascii.eqb_spec c " ") as [->|Hne].
  - cbn [map put_together foldr].
    fold (put_together (map (fun word => word ++ " ") (split " " rest))).
    rewrite IH. by string_norm.
  - destruct (split " " rest) as [|piece pieces].
    + destruct rest; discriminate IH.
    + cbn [map put_together foldr] in *.
      fold (put_together (map (fun word => word ++ " ") pieces)) in *.
      rewrite !append_String. by rewrite IH.
Qed.

Lemma imap_first {A B C} (g : nat -> A -> B) (h : nat -> A -> C)
    (l : list A) :
  (imap (fun i x => (x, g i x, h i x)) l).*1.*1 = l.
Proof.
  revert g h. induction l as [|x l IH]; intros g h; [done|].
  cbn. f_equal. apply (IH (g ∘ S) (h ∘ S)).
Qed.

Section CanvasFacts.

Variable measureText : Q -> string -> Q.

Lemma wrap_loop_put_together fontSize maxWidth words n line lines :
  let '(line', lines') :=
    wrap_loop measureText fontSize maxWidth words n line lines in
  put_together (lines' ++ [line'])
  = put_together (lines ++ [line])
    ++ put_together (map (fun word => word ++ " ") words).
Proof.
  revert n line lines.
  induction words as [|word rest IH]; intros n line lines.
  - cbn. by rewrite append_Empty_r.
  - cbn [wrap_loop map]. cbv zeta.
    destruct (Qltb maxWidth _ && (0 <? n)%nat).
    + specialize (IH (S n) (word ++ " ") (lines ++ [line])%list).
      destruct (wrap_loop _ _ _ _ _ _ _) as [line' lines']. rewrite IH.
      rewrite !put_together_app. cbn [put_together foldr].
      by rewrite !append_Empty_r, !append_assoc.
    + specialize (IH (S n) (line ++ word ++ " ") lines).
      destruct (wrap_loop _ _ _ _ _ _ _) as [line' lines']. rewrite IH.
      rewrite !put_together_app. cbn [put_together foldr].
      by rewrite !append_Empty_r, !append_assoc.
Qed.

Lemma wrap_loop_fits fontSize maxWidth (all : list string) words n line lines :
  let fits line :=
    (measureText fontSize line <= maxWidth)%Q \/ one_word all line in
  (forall word, In word words -> In word all) ->
  Forall fits lines ->
  (n = 0%nat /\ line = "" /\ words <> []) \/ ((0 < n)%nat /\ fits line) ->
  let '(line', lines') :=
    wrap_loop measureText fontSize maxWidth words n line lines in
  Forall fits (lines' ++ [line']).
Proof.
  intros fits. revert n line lines.
  induction words as [|word rest IH]; intros n line lines Hin Hlines Hline.
  - cbn. apply Forall_app. split; [done|]. constructor; [|done].
    by destruct Hline as [(_ & _ & ?)|[_ ?]].
  - cbn [wrap_loop]. cbv zeta.
    assert (Hin' : forall w, In w rest -> In w all)
      by (intros w Hw; apply Hin; by right).
    assert (Hword : fits (word ++ " ")).
    { right. exists word. split; [apply Hin; by left | done]. }
    destruct (Qltb maxWidth (measureText fontSize (line ++ word ++ " ")))
      eqn:Hwide; cbn [andb].
    + destruct n as [|n].
      * change (0 <? 0)%nat with false. cbv iota.
        destruct Hline as [(_ & -> & _)|[Hn _]]; [|lia].
        apply IH; [done | done|]. right. split; [lia | done].
      * change (0 <? S n)%nat with true. cbv iota.
        destruct Hline as [(Hn & _)|[_ Hfit]]; [lia|].
        apply IH; [done | |].
        -- apply Forall_app. split; [done|]. by constructor.
        -- right. split; [lia | done].
    + apply Qltb_ge in Hwide. apply IH; [done | done|].
      right. split; [lia | by left].
Qed.

(** X26.  Wrapping loses nothing and keeps to the width where it can.  The
    lines the wrapping branch of [drawText] draws, put end to end, are the
    text followed by one space; every line either measures at most
    [maxWidth] or holds a single word of the text; the lines are drawn in
    the size asked for, the last on the baseline given and each earlier
    one a line height of 1.35 sizes above the next; and the height
    returned is that of all the lines. *)
Theorem wrap_keeps_text text y maxWidth fontSize :
  let lines := wrap measureText fontSize maxWidth text in
  let drawn := drawText measureText text y maxWidth fontSize true in
  put_together lines = text ++ " "
  /\ Forall (fun line =>
               (measureText fontSize line <= maxWidth)%Q
               \/ one_word (split " " text) line) lines
  /\ (strings drawn).*1.*1 = lines
  /\ (forall i line size baseline,
        strings drawn !! i = Some (line, size, baseline) ->
        size = fontSize
        /\ baseline
           = (y - inject_Z (Z.of_nat (length lines - 1 - i))
                  * (fontSize * 1.35))%Q)
  /\ heightUsed drawn
     = (inject_Z (Z.of_nat (length lines)) * (fontSize * 1.35))%Q.
Proof.
  intros lines drawn. subst lines drawn. split; [|split; [|split; [|split]]].
  - unfold wrap.
    pose proof (wrap_loop_put_together fontSize maxWidth (split " " text) 0
                  "" []) as H.
    destruct (wrap_loop _ _ _ _ _ _ _) as [line lines]. rewrite H.
    cbn [app put_together foldr]. rewrite append_Empty.
    apply split_put_together.
  - unfold wrap.
    pose proof (wrap_loop_fits fontSize maxWidth (split " " text)
                  (split " " text) 0 "" []) as H.
    destruct (wrap_loop _ _ _ _ _ _ _) as [line lines]. apply H.
    + done.
    + constructor.
    + left. split; [done|]. split; [done|]. by destruct text as [|c rest];
        cbn [split]; [|destruct (Ascii.eqb c " "); [|destruct (split " " rest)]].
  - unfold drawText. cbn [strings]. apply imap_first.
  - intros i line size baseline Hi. unfold drawText in Hi. cbn [strings] in Hi.
    rewrite list_lookup_imap in Hi.
    destruct (wrap measureText fontSize maxWidth text !! i) as [l|];
      [|done].
    cbn in Hi. by injection Hi as <- <- <-.
  - done.
Qed.


(** *** What a call has burned in *)

Lemma wrap_put_together text maxWidth fontSize :
  put_together (wrap measureText fontSize maxWidth text) = text ++ " ".
Proof.
  unfold wrap.
  pose proof (wrap_loop_put_together fontSize maxWidth (split " " text) 0
                "" []) as H.
  destruct (wrap_loop _ _ _ _ _ _ _) as [line lines]. rewrite H.
  cbn [app put_together foldr]. rewrite append_Empty.
  apply split_put_together.
Qed.

Lemma wrap_last text maxWidth fontSize :
  exists line,
    wrap measureText fontSize maxWidth text
    !! pred (length (wrap measureText fontSize maxWidth text)) = Some line.
Proof.
  unfold wrap. destruct (wrap_loop _ _ _ _ _ _ _) as [line lines].
  exists line. rewrite length_app. cbn [length].
  apply list_lookup_middle. lia.
Qed.

Lemma shrink_range text maxWidth fontSize :
  (0 <= maxWidth)%Q -> (0 <= fontSize)%Q ->
  (0 <= shrink measureText fontSize maxWidth text
   /\ shrink measureText fontSize maxWidth text <= fontSize)%Q.
Proof.
  intros Hmax Hsize. unfold shrink. cbv zeta.
  destruct (Qltb maxWidth (measureText fontSize text)) eqn:Hwide;
    [|split; lra].
  apply Qltb_lt in Hwide. set (width := measureText fontSize text) in *.
  assert (Hr : (0 <= maxWidth / width /\ maxWidth / width <= 1)%Q).
  { split; [apply Qle_shift_div_l | apply Qle_shift_div_r]; lra. }
  pose proof (Qfloor_le (fontSize * (maxWidth / width))) as Hfl.
  assert (Hnn : (0 <= fontSize * (maxWidth / width))%Q) by nra.
  assert (H0 : (0 <= Qfloor (fontSize * (maxWidth / width)))%Z).
  { change 0%Z with (Qfloor 0). by apply Qfloor_resp_le. }
  rewrite Zle_Qle in H0. change (inject_Z 0) with 0%Q in H0.
  split; [done | nra].
Qed.

Lemma drawText_burned_in text y maxWidth fontSize shouldWrap :
  (0 <= maxWidth)%Q -> (0 <= fontSize)%Q ->
  burned_in measureText maxWidth text fontSize y
    (drawText measureText text y maxWidth fontSize shouldWrap).
Proof.
  intros Hmax Hsize. unfold burned_in, drawText. destruct shouldWrap.
  - cbn [strings heightUsed].
    set (lines := wrap measureText fontSize maxWidth text).
    assert (Hnat : forall k : nat, (0 <= inject_Z (Z.of_nat k))%Q).
    { intros k. change 0%Q with (inject_Z 0). rewrite <- Zle_Qle. lia. }
    split; [|split; [|split]].
    + right. rewrite imap_first. apply wrap_put_together.
    + apply Forall_forall. intros s Hs.
      apply elem_of_lookup_imap in Hs as (i & line & -> & _). cbn [fst snd].
      split; [|by left].
      pose proof (Hnat (length lines - 1 - i)%nat). nra.
    + destruct (wrap_last text maxWidth fontSize) as [line Hline].
      fold lines in Hline. eexists. split.
      * rewrite last_lookup, length_imap, list_lookup_imap, Hline.
        reflexivity.
      * cbn [snd].
        replace (length lines - 1 - pred (length lines))%nat with 0%nat
          by lia.
        change (inject_Z (Z.of_nat 0)) with 0%Q. ring.
    + pose proof (Hnat (length lines)). nra.
  - cbn [strings heightUsed fmap list_fmap fst snd].
    destruct (shrink_range text maxWidth fontSize Hmax Hsize) as [H0 H1].
    split; [|split; [|split]].
    + left. cbn [put_together foldr]. apply append_Empty_r.
    + constructor; [|done]. cbn [fst snd]. split; [lra|].
      unfold shrink in *. cbv zeta in *.
      destruct (Qltb maxWidth (measureText fontSize text)) eqn:Hwide;
        [|by left].
      right. split; [done|]. split; [by apply Qltb_lt | done].
    + eexists. split; [reflexivity | reflexivity].
    + nra.
Qed.

End CanvasFacts.

(** A canvas on which every character is 0.6 font sizes wide. *)
Lemma wrap_keeps_text_witness :
  wrap ex_measureText 20 100 "never gonna give you up"
  = ["never "; "gonna "; "give "; "you up "]
  /\ put_together (wrap ex_measureText 20 100 "never gonna give you up")
     = "never gonna give you up ".
Proof.
  destruct (wrap_keeps_text ex_measureText "never gonna give you up" 0 100 20)
    as (H & _).
  split; [reflexivity | exact H].
Defined.



(** *** The captions of the preview and of the export *)

Section FrameFacts.

Variable measureText : string -> Q -> string -> Q.

(** X28.  The export burns in what the preview shows.  For every canvas
    that is not of negative width, every style whose sizes are not
    negative, every time, list of segments and view mode, take the segment
    the export finds at that time and give it to [SubtitleOverlay] as the
    active one.  Where the overlay renders nothing the export draws
    nothing.  Otherwise [drawText] is called once for each caption of
    the overlay, from the bottom up, with the text and the colour of the
    caption and its size scaled by one and a half times the width of the
    canvas over 1280, and what the call draws is that text: the strings
    drawn, put end to end, are the text of the caption, followed by a
    space where it was wrapped; each is drawn on a baseline at or above
    the one of the call, the last on that baseline itself, and in the
    scaled size, unless it is a text drawn as one string that measures more
    than nine tenths of the canvas in the family of the call, which is
    drawn in a size between 0 and the scaled one.  The lowest call has its
    baseline as far above the bottom of the canvas, in percent of its
    height, as the overlay stands above the bottom of the player; and in
    dual mode the English call has its baseline above the Chinese one, by
    the height the Chinese call returned and eight scaled pixels. *)
Theorem export_draws_what_overlay_shows width height time subtitles viewMode
    subStyle :
  (0 <= width)%Z -> (0 <= enSize subStyle)%Z -> (0 <= cnSize subStyle)%Z ->
  let calls :=
    drawFrame_captions measureText width height time subtitles viewMode
      subStyle in
  let found :=
    List.find (fun s => Qleb (startTime s) time && Qleb time (endTime s))
      subtitles in
  let fontScale := (inject_Z width / 1280)%Q in
  match SubtitleOverlay found viewMode subStyle with
  | None => calls = []
  | Some (position, captions) =>
      Forall2 (fun call c =>
                 caption_text (asked call) = caption_text c
                 /\ caption_color (asked call) = caption_color c
                 /\ caption_size (asked call)
                    = (caption_size c * fontScale * 1.5)%Q
                 /\ burned_in (measureText (fontFamily call))
                      (inject_Z width * 0.9)%Q (caption_text c)
                      (caption_size (asked call)) (baseline call)
                      (drawn call))
        calls (rev captions)
      /\ head (map baseline calls)
         = Some (inject_Z height * (1 - inject_Z position / 100))%Q
      /\ (viewMode = dual ->
          exists low high,
            calls = [low; high]
            /\ baseline high
               = (baseline low - heightUsed (drawn low) - 8 * fontScale)%Q
            /\ (baseline high <= baseline low)%Q)
  end.
Proof.
  intros Hwidth Hen Hcn calls found fontScale. subst calls found fontScale.
  assert (HW : (0 <= inject_Z width)%Q).
  { change 0%Q with (inject_Z 0). by rewrite <- Zle_Qle. }
  assert (Hmax : (0 <= inject_Z width * 0.9)%Q) by lra.
  assert (Hscale : (0 <= inject_Z width / 1280)%Q)
    by (apply Qle_shift_div_l; lra).
  assert (Hsize : forall n : Z,
            (0 <= n)%Z -> (0 <= inject_Z n * (inject_Z width / 1280) * 1.5)%Q).
  { intros n Hn. rewrite Zle_Qle in Hn. change (inject_Z 0) with 0%Q in Hn.
    set (scale := (inject_Z width / 1280)%Q) in *. clearbody scale. nra. }
  pose proof (Hsize _ Hen) as Hen'. pose proof (Hsize _ Hcn) as Hcn'.
  unfold drawFrame_captions, SubtitleOverlay.
  destruct (List.find _ subtitles) as [sub|]; [|done].
  destruct viewMode;
    cbn -[drawText Qmult Qminus Qdiv Qle inject_Z burned_in chinese_family
          english_family].
  - split; [|split; [done|]].
    + do 2 (constructor;
              [do 3 (split; [reflexivity|]); by apply drawText_burned_in|]).
      constructor.
    + intros _. eexists _, _. split; [reflexivity|]. cbn [baseline drawn].
      split; [reflexivity|].
      destruct (drawText_burned_in (measureText chinese_family) (chinese sub)
                  (inject_Z height
                   * (1 - inject_Z (verticalPosition subStyle) / 100))
                  (inject_Z width * 0.9)
                  (inject_Z (cnSize subStyle) * (inject_Z width / 1280) * 1.5)
                  false Hmax Hcn') as (_ & _ & _ & Hheight).
      lra.
  - split; [|by split].
    constructor; [|constructor].
    do 3 (split; [reflexivity|]). by apply drawText_burned_in.
  - split; [|by split].
    constructor; [|constructor].
    do 3 (split; [reflexivity|]). by apply drawText_burned_in.
  - done.
Qed.

End FrameFacts.

(** On a canvas of 1280 by 720, with every character 0.6 sizes wide: the
    second line of [ex_caption] is drawn whole and the first in two
    lines, above it. *)
Lemma export_draws_what_overlay_shows_witness :
  map (fun call => (strings (drawn call)).*1.*1)
    (drawFrame_captions (fun _ => ex_measureText) 1280 720 1 [ex_caption]
       dual ex_large_style)
  = [["yong yuan bu hui fang qi ni, yong yuan bu hui rang ni shi wang"];
     ["never gonna give you up, never "; "gonna let you down "]]
  /\ exists low high,
       drawFrame_captions (fun _ => ex_measureText) 1280 720 1 [ex_caption]
         dual ex_large_style
       = [low; high]
       /\ (baseline high <= baseline low)%Q.
Proof.
  split; [vm_compute; reflexivity|].
  assert (H0 : (0 <= 1280)%Z) by lia. assert (H1 : (0 <= 40)%Z) by lia.
  pose proof (export_draws_what_overlay_shows (fun _ => ex_measureText)
                1280 720 1 [ex_caption] dual ex_large_style H0 H1 H1) as H.
  cbv zeta in H.
  set (o := SubtitleOverlay _ _ _) in H. vm_compute in o. subst o.
  cbv iota beta in H. destruct H as (_ & _ & H).
  destruct (H eq_refl) as (low & high & Hcalls & _ & Hle).
  by exists low, high.
Defined.

(** *** Progress and time left *)




End ExportReach.

(** ** Leaving the application *)

Section ShellFacts.

Import Shell.

Lemma gesture_unconfirmed g d :
  is_confirm g = false ->
  running d = true -> mainWindow d = true -> isQuitting d = false ->
  running (gesture g d) = true /\ mainWindow (gesture g d) = true
  /\ isQuitting (gesture g d) = false.
Proof.
  intros Hg Hr Hw Hq. destruct d as [p r w q m]. cbn in *. subst.
  destruct g; [|done| |]; cbn; by destruct m.
Qed.

(** X30.  The window closes on confirmation only, the first time.  From
    the start of the application, whatever the user does short of
    confirming in the dialog, the window stays open, the application runs
    and the close button only opens the dialog.  Closing and confirming
    closes the window, and quits the application except on macOS.  The
    flag set by the confirmation is never cleared: on macOS a window opened
    again from the dock closes at the first click, with no dialog. *)
Theorem exit_needs_confirmation :
  (forall platform gs,
     forallb (fun g => negb (is_confirm g)) gs = true ->
     let d := gestures gs (ready platform) in
     running d = true /\ mainWindow d = true /\ isQuitting d = false
     /\ showExitModal (gesture CloseWindow d) = true
     /\ mainWindow (gesture CloseWindow d) = true)
  /\ (forall platform,
        let d := gestures [CloseWindow; ConfirmExit] (ready platform) in
        mainWindow d = false /\ running d = platform)
  /\ (forall d gs,
        isQuitting d = true -> isQuitting (gestures gs d) = true)
  /\ (let d := gestures [CloseWindow; ConfirmExit; Activate] (ready true) in
      mainWindow d = true
      /\ mainWindow (gesture CloseWindow d) = false
      /\ showExitModal (gesture CloseWindow d) = false).
Proof.
  split; [|split; [|split]].
  - intros platform gs Hgs d. subst d.
    assert (Hinv : running (gestures gs (ready platform)) = true
                   /\ mainWindow (gestures gs (ready platform)) = true
                   /\ isQuitting (gestures gs (ready platform)) = false).
    { assert (H0 : running (ready platform) = true
                   /\ mainWindow (ready platform) = true
                   /\ isQuitting (ready platform) = false) by done.
      revert H0 Hgs. generalize (ready platform).
      induction gs as [|g gs IH]; intros d H0 Hgs; [done|].
      cbn [forallb] in Hgs. apply andb_true_iff in Hgs as [Hg Hgs].
      apply negb_true_iff in Hg. destruct H0 as (Hr & Hw & Hq).
      apply IH; [|done]. by apply gesture_unconfirmed. }
    destruct Hinv as (Hr & Hw & Hq). split; [done|]. split; [done|].
    split; [done|]. cbn [gesture]. rewrite Hw. unfold on_close.
    rewrite Hq. by cbn.
  - intros platform. by destruct platform.
  - intros d gs. revert d. induction gs as [|g gs IH]; intros d Hq; [done|].
    apply IH. destruct d as [p r w q m]. cbn in Hq. subst.
    destruct g, w, m, r, p; done.
  - done.
Qed.

End ShellFacts.
